(** * django-annotatable-properties: [annotatable_properties/managers.py]

    A shallow embedding of [AnnotatableQuerySet.sort],
    [AnnotatableQuerySet.annotate_property] and of the forwarding
    [AnnotatableManager], together with the part of Python (values,
    [attrgetter], [sorted], [repr], [dict]) and of the queryable
    collection ([extra], [order_by], iteration) that the two methods use. *)

From Stdlib Require Import List String Ascii ZArith Bool Arith Lia.
From Stdlib Require Import Permutation Sorted DecimalString DecimalPos DecimalZ.
Import ListNotations.

Local Open Scope string_scope.
Local Open Scope list_scope.

(** ** Exceptions and the result type *)

Inductive exn : Type :=
| ValueError (msg : string)      (* [raise ValueError(...)], managers.py line 69 *)
| AttributeError (attr : string) (* [attrgetter] on an attribute the record lacks *)
| TypeError (msg : string)       (* [attrgetter()] without a name, unorderable keys *)
| DatabaseError                  (* the database rejects a synthesized expression *)
| FieldError (name : string)     (* [order_by] on a name the query does not select *)
| Raised (tag : nat).            (* an exception raised inside a caller's callable *)

Inductive res (A : Type) : Type :=
| OK (a : A)
| Err (e : exn).

Arguments OK {A} a.
Arguments Err {A} e.

Definition bind {A B : Type} (m : res A) (f : A -> res B) : res B :=
  match m with
  | OK a => f a
  | Err e => Err e
  end.

Notation "x <- m ;; k" := (bind m (fun x => k))
  (at level 61, m at next level, right associativity).

Fixpoint mapM {A B : Type} (f : A -> res B) (l : list A) : res (list B) :=
  match l with
  | [] => OK []
  | a :: l' => b <- f a ;; bs <- mapM f l' ;; OK (b :: bs)
  end.

(** ** Python values *)

Module Py.

(** The values records carry and key functions return.  Strings are
    sequences of code points below 256.  Floats are outside the model: a
    database does not read every [repr] of a float back to the same float,
    and which ones it does is its own affair. *)
#[warnings="-register-all"]
Inductive value : Type :=
| VNone
| VInt (z : Z)
| VStr (s : string)
| VTuple (items : list value).

(** [a == b] *)
Fixpoint eq (a b : value) : bool :=
  match a, b with
  | VNone, VNone => true
  | VInt x, VInt y => Z.eqb x y
  | VStr x, VStr y => String.eqb x y
  | VTuple xs, VTuple ys =>
      (fix items (xs ys : list value) : bool :=
         match xs, ys with
         | [], [] => true
         | x :: xs', y :: ys' => eq x y && items xs' ys'
         | _, _ => false
         end) xs ys
  | _, _ => false
  end.

Definition unorderable : exn :=
  TypeError "'<' not supported between instances".

(** [a < b]: integers numerically, strings by code point, tuples
    lexicographically (the first pair of items that are not [==] decides,
    then the lengths); anything else raises [TypeError]. *)
Fixpoint lt (a b : value) : res bool :=
  match a, b with
  | VInt x, VInt y => OK (Z.ltb x y)
  | VStr x, VStr y => OK (String.ltb x y)
  | VTuple xs, VTuple ys =>
      (fix items (xs ys : list value) : res bool :=
         match xs, ys with
         | [], [] => OK false
         | [], _ :: _ => OK true
         | _ :: _, [] => OK false
         | x :: xs', y :: ys' => if eq x y then items xs' ys' else lt x y
         end) xs ys
  | _, _ => Err unorderable
  end.

(** [str(z)] for an integer, as the f-strings format [pk] and [order]. *)
Definition str_int (z : Z) : string :=
  NilZero.string_of_int (Z.to_int z).

(** [sep.join(parts)] *)
Fixpoint join (sep : string) (parts : list string) : string :=
  match parts with
  | [] => ""
  | [p] => p
  | p :: rest => p ++ sep ++ join sep rest
  end.

Fixpoint contains (c : ascii) (s : string) : bool :=
  match s with
  | EmptyString => false
  | String d s' => Ascii.eqb c d || contains c s'
  end.

Definition squote : ascii := "'"%char.
Definition dquote : ascii := "034"%char.
Definition backslash : ascii := "\"%char.

Definition hex_digit (n : nat) : ascii :=
  if (n <? 10)%nat then ascii_of_nat (48 + n) else ascii_of_nat (87 + n).

(** [str.isprintable] on one code point below 256. *)
Definition printable (c : ascii) : bool :=
  let n := nat_of_ascii c in
  ((32 <=? n)%nat && (n <? 127)%nat) || ((161 <=? n)%nat && negb (n =? 173)%nat).

Definition repr_char (quote c : ascii) : string :=
  let n := nat_of_ascii c in
  if Ascii.eqb c quote || Ascii.eqb c backslash then String backslash (String c "")
  else if (n =? 9)%nat then String backslash "t"
  else if (n =? 10)%nat then String backslash "n"
  else if (n =? 13)%nat then String backslash "r"
  else if printable c then String c ""
  else String backslash
         (String "x" (String (hex_digit (n / 16)) (String (hex_digit (n mod 16)) ""))).

Fixpoint repr_chars (quote : ascii) (s : string) : string :=
  match s with
  | EmptyString => ""
  | String c s' => repr_char quote c ++ repr_chars quote s'
  end.

(** [repr(s)] for a string: double quotes only when [s] holds a single
    quote and no double quote. *)
Definition repr_str (s : string) : string :=
  let quote := if contains squote s && negb (contains dquote s)
               then dquote else squote in
  String quote (repr_chars quote s ++ String quote "").

(** [repr(v)] *)
Fixpoint repr (v : value) : string :=
  match v with
  | VNone => "None"
  | VInt z => str_int z
  | VStr s => repr_str s
  | VTuple items =>
      match items with
      | [] => "()"
      | [x] => "(" ++ repr x ++ ",)"
      | _ => "(" ++ join ", " (map repr items) ++ ")"
      end
  end.

(** *** Dictionaries

    A [dict] keeps insertion order; storing under a key already present
    replaces the value in place. *)
Section Dict.
Context {K V : Type} (eqb : K -> K -> bool).

Fixpoint dict_set (k : K) (v : V) (d : list (K * V)) : list (K * V) :=
  match d with
  | [] => [(k, v)]
  | (k', v') :: d' =>
      if eqb k k' then (k, v) :: d' else (k', v') :: dict_set k v d'
  end.

Fixpoint dict_get (k : K) (d : list (K * V)) : option V :=
  match d with
  | [] => None
  | (k', v') :: d' => if eqb k k' then Some v' else dict_get k d'
  end.

(** [{k: v for k, v in items}] *)
Definition dict_of (items : list (K * V)) : list (K * V) :=
  fold_left (fun d kv => dict_set (fst kv) (snd kv) d) items [].

(** [d.update(other)] *)
Definition dict_update (d other : list (K * V)) : list (K * V) :=
  fold_left (fun d kv => dict_set (fst kv) (snd kv) d) other d.
End Dict.

(** *** Records *)

(** A persisted record as iteration yields it: its identifier and its
    named attributes.  The identifier is the integer [id] column, which is
    what [WHEN id = {pk}] compares.  It is kept apart from the attributes
    and nothing overwrites it: a computed field named [pk] or [id], which
    replaces the identifier of a framework record, is outside the model,
    and so are attributes that compute their value when read. *)
Record record : Type := { pk : Z; attrs : list (string * value) }.

(** [obj.<name>]; the name [pk] always resolves to the identifier.  A name
    is taken whole: the dotted paths [attrgetter] follows into the
    attributes of a value are not modelled, so the properties that read an
    attribute by name are about names without a dot. *)
Definition getattr (obj : record) (name : string) : res value :=
  if String.eqb name "pk" then OK (VInt (pk obj))
  else match dict_get String.eqb name (attrs obj) with
       | Some v => OK v
       | None => Err (AttributeError name)
       end.

(** [setattr(obj, name, v)], on the named attributes; the identifier stays. *)
Definition setattr (obj : record) (name : string) (v : value) : record :=
  {| pk := pk obj; attrs := dict_set String.eqb name v (attrs obj) |}.

(** What a caller's callable does on a record. *)
Inductive outcome : Type :=
| Returns (v : value)
| Raises (tag : nat).

Definition callable : Type := record -> outcome.

Definition call (f : callable) (obj : record) : res value :=
  match f obj with
  | Returns v => OK v
  | Raises tag => Err (Raised tag)
  end.

(** [operator.attrgetter] applied to the names: building it needs one name at least;
    one name gives the attribute, several give the tuple of attributes. *)
Definition attrgetter (names : list string) : res (record -> res value) :=
  match names with
  | [] => Err (TypeError "attrgetter expected 1 argument, got 0")
  | [name] => OK (fun obj => getattr obj name)
  | _ => OK (fun obj => vs <- mapM (getattr obj) names ;; OK (VTuple vs))
  end.

(** *** [sorted(iterable, key=key, reverse=reverse)]

    The keys are computed first, one per item and in order; the decorated
    list is then sorted with [<] alone.  The sort is stable; [reverse]
    reverses the list before and after the sort, which keeps the items of
    equal key in their original order.  The sort is written as an
    insertion sort: Python's makes other comparisons, with the same result
    wherever [<] is defined on the keys; a comparison that raises makes
    [sorted] raise. *)
Section Sorting.
Context {A : Type}.

Fixpoint insert (x : value * A) (l : list (value * A)) : res (list (value * A)) :=
  match l with
  | [] => OK [x]
  | y :: l' =>
      b <- lt (fst y) (fst x) ;;
      if b then l'' <- insert x l' ;; OK (y :: l'') else OK (x :: l)
  end.

Fixpoint isort (l : list (value * A)) : res (list (value * A)) :=
  match l with
  | [] => OK []
  | x :: l' => s <- isort l' ;; insert x s
  end.

Definition decorate (key : A -> res value) (l : list A) : res (list (value * A)) :=
  mapM (fun a => k <- key a ;; OK (k, a)) l.

Definition sorted (l : list A) (key : A -> res value) (reverse : bool)
  : res (list A) :=
  keyed <- decorate key l ;;
  s <- (if reverse then r <- isort (rev keyed) ;; OK (rev r) else isort keyed) ;;
  OK (map snd s).
End Sorting.

End Py.

Import Py.

(** ** The target expression language

    The database is not part of the repository.  Section 6 of the
    specification asks of it a per-row conditional (case/when) expression
    keyed on the row's identifier column, given as text.  The fragment
    below is the part of SQL the two methods emit:
    [CASE WHEN id = <integer> THEN <literal> ... END] with one branch at
    least, integer literals and single-quoted text literals (a quote inside
    is written twice).  Everything else is rejected: a bare word such as
    [None] is a column the table lacks, double quotes delimit identifiers,
    and [%] starts a placeholder of the database driver.  The language is
    untyped: branches of one expression may yield integers and texts. *)
Module Sql.

Inductive token : Type :=
| TWord (w : string)
| TText (s : string).

Inductive mode : Type :=
| Out
| InWord (w : string)
| InText (s : string)
| Quote (s : string).   (* after a quote inside a text: its end, or the first half of a doubled quote *)

Definition snoc (s : string) (c : ascii) : string := s ++ String c "".

(** Modelled from the spec: the words and the quoted texts of an
    expression given as text, separated by spaces. *)
Fixpoint lex (m : mode) (s : string) : option (list token) :=
  match s with
  | EmptyString =>
      match m with
      | Out => Some []
      | InWord w => Some [TWord w]
      | InText _ => None
      | Quote t => Some [TText t]
      end
  | String c s' =>
      if Ascii.eqb c "%" then None
      else match m with
           | Out =>
               if Ascii.eqb c " " then lex Out s'
               else if Ascii.eqb c "'" then lex (InText "") s'
               else lex (InWord (String c "")) s'
           | InWord w =>
               if Ascii.eqb c " " then option_map (cons (TWord w)) (lex Out s')
               else if Ascii.eqb c "'" then None
               else lex (InWord (snoc w c)) s'
           | InText t =>
               if Ascii.eqb c "'" then lex (Quote t) s'
               else lex (InText (snoc t c)) s'
           | Quote t =>
               if Ascii.eqb c "'" then lex (InText (snoc t "'")) s'
               else if Ascii.eqb c " " then option_map (cons (TText t)) (lex Out s')
               else None
           end
  end.

(** The characters a word is made of. *)
Definition word_char (c : ascii) : bool :=
  negb (Ascii.eqb c "%" || Ascii.eqb c " " || Ascii.eqb c "'").

Fixpoint word (s : string) : bool :=
  match s with
  | EmptyString => true
  | String c s' => word_char c && word s'
  end.

(** An integer literal, of any length.  A database holds integers of 64
    bits and takes a longer literal for a floating-point number; the
    identifiers and the ranks [sort] writes are below that, and the
    properties on the values read back are stated below that. *)
Definition int_literal (w : string) : option Z :=
  option_map Z.of_int (NilZero.int_of_string w).

Definition literal (t : token) : option value :=
  match t with
  | TWord w => option_map VInt (int_literal w)
  | TText s => Some (VStr s)
  end.

Definition is_word (kw : string) (t : token) : bool :=
  match t with
  | TWord w => String.eqb w kw
  | TText _ => false
  end.

(** Modelled from the spec: the branches of the conditional up to [END],
    each of them [WHEN id = <integer> THEN <literal>]. *)
Fixpoint branches (ts : list token) : option (list (Z * value)) :=
  match ts with
  | [t] => if is_word "END" t then Some [] else None
  | t1 :: t2 :: t3 :: TWord n :: t5 :: t6 :: rest =>
      if is_word "WHEN" t1 && is_word "id" t2 && is_word "=" t3 && is_word "THEN" t5
      then match int_literal n, literal t6, branches rest with
           | Some id, Some v, Some bs => Some ((id, v) :: bs)
           | _, _, _ => None
           end
      else None
  | _ => None
  end.

(** A text that is one literal, and the value it denotes. *)
Definition read_literal (text : string) : option value :=
  match lex Out text with
  | Some [t] => literal t
  | _ => None
  end.

(** Modelled from the spec: the conditional expression a text denotes,
    if it denotes one. *)
Definition parse_case (sql : string) : option (list (Z * value)) :=
  match lex Out sql with
  | Some (t :: ts) =>
      if is_word "CASE" t
      then match branches ts with
           | Some (b :: bs) => Some (b :: bs)
           | _ => None
           end
      else None
  | _ => None
  end.

(** Modelled from the spec: the value of the expression on the row whose
    identifier is [id], that is the first branch that matches, and NULL
    (read back as [None]) without one. *)
Definition eval_case (bs : list (Z * value)) (id : Z) : value :=
  match dict_get Z.eqb id bs with
  | Some v => v
  | None => VNone
  end.

(** Modelled from the spec: ascending order on a field, with NULL first,
    then integers, then texts. *)
Definition le (a b : value) : bool :=
  match a, b with
  | VNone, _ => true
  | VInt x, VInt y => Z.leb x y
  | VInt _, VNone => false
  | VInt _, _ => true
  | VStr x, VStr y => String.leb x y
  | VStr _, VTuple _ => true
  | VStr _, _ => false
  | VTuple _, VTuple _ => true
  | VTuple _, _ => false
  end.

Section OrderBy.
Context {A : Type} (rank : A -> value).

Fixpoint place (x : A) (l : list A) : list A :=
  match l with
  | [] => [x]
  | y :: l' => if le (rank x) (rank y) then x :: l else y :: place x l'
  end.

(** The rows in ascending order of [rank]; rows of equal rank keep the
    order the query had. *)
Definition order_rows (l : list A) : list A := fold_right place [] l.
End OrderBy.

End Sql.

(** ** The queryable collection

    [QuerySet] belongs to the framework, not to the repository.  Section 6
    of the specification lists what the two methods need: raw-expression
    injection ([extra(select=...)]), which attaches a named computed field
    evaluated per row; [order_by] on a named field; and iteration, which
    yields the records with their computed fields. *)
Module Orm.

(** Modelled from the spec: a collection is the rows of its query, the
    computed fields it selects and the field it is ordered by. *)
Record QuerySet : Type := {
  rows : list record;                     (* the rows of the query, in its own order *)
  extra_select : list (string * string);  (* computed fields: name and expression text *)
  ordering : option string                (* the computed field [order_by] names *)
}.

(** Modelled from the spec: [self.extra(select=select)], raw-expression
    injection.  It gives a new collection; a name already selected gets
    the new expression.  Any name is taken: the framework refuses some as
    column aliases (whitespace, quotation marks, semicolons, comment
    marks), and the properties on the records read back are stated for
    names made of a letter followed by letters, digits and underscores. *)
Definition extra (select : list (string * string)) (self : QuerySet) : QuerySet :=
  {| rows := rows self;
     extra_select := dict_update String.eqb (extra_select self) select;
     ordering := ordering self |}.

(** Modelled from the spec: [self.order_by(name)], ascending order on a
    named field.  It gives a new collection; the previous ordering is
    dropped. *)
Definition order_by (name : string) (self : QuerySet) : QuerySet :=
  {| rows := rows self;
     extra_select := extra_select self;
     ordering := Some name |}.

Definition compile_field (field : string * string)
  : res (string * list (Z * value)) :=
  match Sql.parse_case (snd field) with
  | Some bs => OK (fst field, bs)
  | None => Err DatabaseError
  end.

(** One row as a record: every computed field is set as an attribute,
    under its name; the field a name selects is the one [dict_get] finds. *)
Definition fetch (cols : list (string * list (Z * value))) (row : record) : record :=
  fold_right (fun col obj => setattr obj (fst col) (Sql.eval_case (snd col) (pk row)))
             row cols.

(** Modelled from the spec: iteration.  The query runs, with every
    expression it selects, and the rows come back as records, in the
    requested order. *)
Definition iter (self : QuerySet) : res (list record) :=
  cols <- mapM compile_field (extra_select self) ;;
  ordered <- match ordering self with
             | None => OK (rows self)
             | Some name =>
                 match dict_get String.eqb name cols with
                 | Some bs => OK (Sql.order_rows (fun row => Sql.eval_case bs (pk row)) (rows self))
                 | None => Err (FieldError name)
                 end
             end ;;
  OK (map (fetch cols) ordered).

End Orm.

Import Orm.

(** ** [class AnnotatableQuerySet(QuerySet)] *)
Module AnnotatableQuerySet.

(** [key: Union[Callable, str, tuple[str, ...]]] *)
Inductive Key : Type :=
| KCallable (f : callable)
| KStr (name : string)
| KTuple (names : list string).

(** [annotation: Union[Callable, str]] *)
Inductive Annotation : Type :=
| ACallable (f : callable)
| AStr (name : string).

(** Lines 26-30: a string or a tuple becomes an [attrgetter]. *)
Definition normalize (key : Key) : res (record -> res value) :=
  match key with
  | KStr name => attrgetter [name]
  | KTuple names => attrgetter names
  | KCallable f => OK (call f)
  end.

(** [enumerate(l)] *)
Definition enumerate {A : Type} (l : list A) : list (nat * A) :=
  combine (seq 0 (List.length l)) l.

(** [f"CASE {' '.join(whens)} END"] *)
Definition case_sql (whens : list string) : string :=
  "CASE " ++ join " " whens ++ " END".

Definition when_text (id : Z) (text : string) : string :=
  "WHEN id = " ++ str_int id ++ " THEN " ++ text.

(** [f'WHEN id = {pk} THEN {order}'] *)
Definition when_order (item : Z * nat) : string :=
  "WHEN id = " ++ str_int (fst item) ++ " THEN " ++ str_int (Z.of_nat (snd item)).

(** [f'WHEN id = {pk} THEN {repr(annotated_property)}'] *)
Definition when_repr (item : Z * value) : string :=
  "WHEN id = " ++ str_int (fst item) ++ " THEN " ++ repr (snd item).

(** Line 41: [{obj.pk: order for order, obj in enumerate(sorted_objects)}] *)
Definition order_mapping (sorted_objects : list record) : list (Z * nat) :=
  dict_of Z.eqb (map (fun item => (pk (snd item), fst item)) (enumerate sorted_objects)).

(** Lines 41-43, the expression [sort] synthesizes. *)
Definition sort_sql (sorted_objects : list record) : string :=
  case_sql (map when_order (order_mapping sorted_objects)).

Definition sort (self : QuerySet) (key : Key) (reverse : bool) : res QuerySet :=
  key <- normalize key ;;
  objs <- iter self ;;
  sorted_objects <- sorted objs key reverse ;;
  match sorted_objects with
  | [] => OK self
  | _ :: _ =>
      OK (order_by "sort_order" (extra [("sort_order", sort_sql sorted_objects)] self))
  end.

(** Line 74: [{obj.pk: annotation(obj) for obj in self}] *)
Definition value_mapping (annotation : record -> res value) (objs : list record)
  : res (list (Z * value)) :=
  items <- mapM (fun obj => v <- annotation obj ;; OK (pk obj, v)) objs ;;
  OK (dict_of Z.eqb items).

(** Line 76, the expression [annotate_property] synthesizes. *)
Definition annotate_sql (pk_mapping : list (Z * value)) : string :=
  case_sql (map when_repr pk_mapping).

Definition no_name : exn :=
  ValueError "property_name cannot be None if annotation is not a string.".

(** Lines 65-69: the name of the computed field. *)
Definition output_name (annotation : Annotation) (property_name : option string)
  : res string :=
  match property_name with
  | Some name => OK name
  | None =>
      match annotation with
      | AStr name => OK (name ++ "_property")%string
      | ACallable _ => Err no_name
      end
  end.

(** Lines 71-72: a string becomes an [attrgetter]. *)
Definition annotation_key (annotation : Annotation) : res (record -> res value) :=
  match annotation with
  | AStr name => attrgetter [name]
  | ACallable f => OK (call f)
  end.

Definition annotate_property (self : QuerySet) (annotation : Annotation)
  (property_name : option string) : res QuerySet :=
  property_name <- output_name annotation property_name ;;
  annotation <- annotation_key annotation ;;
  objs <- iter self ;;
  pk_mapping <- value_mapping annotation objs ;;
  OK (extra [(property_name, annotate_sql pk_mapping)] self).

End AnnotatableQuerySet.

(** ** [class AnnotatableManager(Manager)] *)
Module AnnotatableManager.

(** A manager stands for all the records of one kind. *)
Record Manager : Type := { model : list record }.

(** [AnnotatableQuerySet(self.model, using=self._db)]: the full default
    collection, with no computed field and no requested ordering. *)
Definition get_queryset (self : Manager) : QuerySet :=
  {| rows := model self; extra_select := []; ordering := None |}.

Definition sort (self : Manager) (key : AnnotatableQuerySet.Key) (reverse : bool)
  : res QuerySet :=
  AnnotatableQuerySet.sort (get_queryset self) key reverse.

Definition annotate_property (self : Manager)
  (annotation : AnnotatableQuerySet.Annotation) (property_name : option string)
  : res QuerySet :=
  AnnotatableQuerySet.annotate_property (get_queryset self) annotation property_name.

End AnnotatableManager.

Import AnnotatableQuerySet.

(** ** Notions used by the properties *)

(** The tokens of one branch. *)
Definition when_tokens (id : Z) (t : Sql.token) : list Sql.token :=
  [Sql.TWord "WHEN"; Sql.TWord "id"; Sql.TWord "="; Sql.TWord (str_int id);
   Sql.TWord "THEN"; t].

(** A branch as it is written and as it is read: the identifier, the text
    after [THEN], and the value that text denotes. *)
Definition branch : Type := (Z * string * value)%type.

Definition branch_text (b : branch) : string := when_text (fst (fst b)) (snd (fst b)).
Definition branch_value (b : branch) : Z * value := (fst (fst b), snd b).
Definition branch_ok (b : branch) : Prop := Sql.read_literal (snd (fst b)) = Some (snd b).

(** The branch [sort] writes for one entry of its mapping, and the branch
    [annotate_property] writes. *)
Definition order_branch (item : Z * nat) : branch :=
  (fst item, str_int (Z.of_nat (snd item)), VInt (Z.of_nat (snd item))).

Definition repr_branch (item : Z * value) : branch :=
  (fst item, repr (snd item), snd item).

(** The rank the database reads for an identifier. *)
Definition rank_of (m : list (Z * nat)) (id : Z) : value :=
  Sql.eval_case (map branch_value (map order_branch m)) id.

Definition position (m : list (Z * nat)) (id : Z) : Z :=
  match dict_get Z.eqb id m with
  | Some n => Z.of_nat n
  | None => 0
  end.

(** The two records of the scenario of section 8, and the collection of both. *)
Definition record_b : record := {| pk := 1; attrs := [("name", VStr "b"); ("cost", VInt 10)] |}.
Definition record_a : record := {| pk := 2; attrs := [("name", VStr "a"); ("cost", VInt 9)] |}.

Definition two_records : QuerySet :=
  {| rows := [record_b; record_a]; extra_select := []; ordering := None |}.

(** A third record, tied with [record_a] on [name] and with [record_b] on [cost]. *)
Definition record_c : record := {| pk := 3; attrs := [("name", VStr "a"); ("cost", VInt 10)] |}.

Definition three_records : QuerySet :=
  {| rows := [record_b; record_a; record_c]; extra_select := []; ordering := None |}.

Definition no_records : QuerySet :=
  {| rows := []; extra_select := []; ordering := None |}.

(** Three rows of which the first and the last share their identifier. *)
Definition row_1a : record := {| pk := 1; attrs := [("name", VStr "a"); ("cost", VInt 5)] |}.
Definition row_2b : record := {| pk := 2; attrs := [("name", VStr "b"); ("cost", VInt 5)] |}.
Definition row_1c : record := {| pk := 1; attrs := [("name", VStr "c"); ("cost", VInt 5)] |}.

Definition repeated_identifier : QuerySet :=
  {| rows := [row_1a; row_2b; row_1c]; extra_select := []; ordering := None |}.

(** Three records of which the last two tie on [rank]; the [tag] of the
    first is a string, the [tag] of the others an integer. *)
Definition record_x : record := {| pk := 1; attrs := [("rank", VInt 2); ("tag", VStr "x")] |}.
Definition record_7 : record := {| pk := 2; attrs := [("rank", VInt 1); ("tag", VInt 7)] |}.
Definition record_5 : record := {| pk := 3; attrs := [("rank", VInt 1); ("tag", VInt 5)] |}.

Definition mixed_records : QuerySet :=
  {| rows := [record_x; record_7; record_5]; extra_select := []; ordering := None |}.

(** [a < b] where it is defined and holds. *)
Definition ltb (a b : value) : bool :=
  match lt a b with
  | OK true => true
  | _ => false
  end.

(** What a total order asks of three values: [x] and [y] compare both
    ways and not both strictly; they are [==] exactly when neither is
    below the other; and if [x < z], then [x < y] or [y < z]. *)
Definition ordered_triple (x y z : value) : bool :=
  match lt x y, lt y x with
  | OK xy, OK yx =>
      negb (xy && yx) && Bool.eqb (eq x y) (negb xy && negb yx)
      && implb (ltb x z) (xy || ltb y z)
  | _, _ => false
  end.

(** [<] is a total order on the values of the list, with [==] as its ties. *)
Definition totally_ordered (vs : list value) : bool :=
  forallb (fun x => forallb (fun y => forallb (ordered_triple x y) vs) vs) vs.

(** The stable sort of [sorted], for a comparison that cannot fail:
    [before y x] tells whether [y] goes strictly before [x]. *)
Section Stable.
Context {A : Type} (before : A -> A -> bool).

Fixpoint ins (x : A) (l : list A) : list A :=
  match l with
  | [] => [x]
  | y :: l' => if before y x then y :: ins x l' else x :: l
  end.

Definition stable_sort (l : list A) : list A := fold_right ins [] l.

Definition sorted_by (reverse : bool) (l : list A) : list A :=
  if reverse then rev (stable_sort (rev l)) else stable_sort l.
End Stable.

(** Neither goes before the other. *)
Definition tied {A : Type} (before : A -> A -> bool) (z x : A) : bool :=
  negb (before x z) && negb (before z x).

(** First by [lt1]; where [lt1] ties, by [lt2]. *)
Definition lex {A : Type} (lt1 lt2 : A -> A -> bool) (y x : A) : bool :=
  lt1 y x || (negb (lt1 x y) && lt2 y x).

(** The value of an attribute, where the record has it. *)
Definition attr_value (name : string) (obj : record) : value :=
  match getattr obj name with
  | OK v => v
  | Err _ => VNone
  end.

Definition by_attr (name : string) (y x : record) : bool :=
  ltb (attr_value name y) (attr_value name x).

(** A string [repr] writes between single quotes as it is, and the target
    language reads back as it is: printable characters, none of them a
    single quote, a backslash or [%]. *)
Definition plain_char (c : ascii) : bool :=
  printable c
  && negb (Ascii.eqb c squote || Ascii.eqb c backslash || Ascii.eqb c "%").

Fixpoint plain (s : string) : bool :=
  match s with
  | EmptyString => true
  | String c s' => plain_char c && plain s'
  end.

(** No two values of the list are [==]. *)
Fixpoint all_distinct (vs : list value) : bool :=
  match vs with
  | [] => true
  | v :: vs' => forallb (fun w => negb (eq v w)) vs' && all_distinct vs'
  end.

(** A value whose [repr] a database reads back as the value: an integer
    it holds as an integer, below [2 ^ 63] in absolute value, or a plain
    string. *)
Definition storable (v : value) : bool :=
  match v with
  | VInt z => (Z.abs z <? 2 ^ 63)%Z
  | VStr s => plain s
  | _ => false
  end.

(** A name for a computed field: a letter, then letters, digits and
    underscores, and neither [pk] nor [id], under which a computed field
    would replace the identifier of the record.  Such a name is taken as a
    column alias, has no dot, and is none of the attributes every object
    has. *)
Definition letter (c : ascii) : bool :=
  let n := nat_of_ascii c in
  ((65 <=? n)%nat && (n <=? 90)%nat) || ((97 <=? n)%nat && (n <=? 122)%nat).

Definition name_char (c : ascii) : bool :=
  let n := nat_of_ascii c in
  letter c || ((48 <=? n)%nat && (n <=? 57)%nat) || (n =? 95)%nat.

Fixpoint name_chars (s : string) : bool :=
  match s with
  | EmptyString => true
  | String c s' => name_char c && name_chars s'
  end.

Definition field_name (s : string) : bool :=
  match s with
  | EmptyString => false
  | String c s' => letter c && name_chars s'
  end
  && negb (String.eqb s "pk") && negb (String.eqb s "id").

(** The comparison of records on several attributes: the first decides;
    where neither record is below the other on it, the next does. *)
Fixpoint by_attrs (names : list string) (y x : record) : bool :=
  match names with
  | [] => false
  | a :: rest => lex (by_attr a) (by_attrs rest) y x
  end.

(** An exception that is not the configuration error. *)
Definition not_value_error (e : exn) : Prop := forall msg, e <> ValueError msg.

(** * Properties *)

(** ** The result monad *)

Lemma bind_OK {A B : Type} (m : res A) (f : A -> res B) (b : B) :
  bind m f = OK b -> exists a, m = OK a /\ f a = OK b.
Proof.
  destruct m as [a | e]; simpl; intros H.
  - exists a. split; [reflexivity | exact H].
  - discriminate.
Qed.

Lemma bind_Err {A B : Type} (m : res A) (f : A -> res B) (e : exn) :
  bind m f = Err e -> m = Err e \/ exists a, m = OK a /\ f a = Err e.
Proof.
  destruct m as [a | e']; simpl; intros H.
  - right. exists a. split; [reflexivity | exact H].
  - left. inversion H. reflexivity.
Qed.

Ltac inv_bind H :=
  let a := fresh "a" in
  let Ha := fresh "Ha" in
  apply bind_OK in H; destruct H as (a & Ha & H).

Lemma mapM_OK_length {A B : Type} (f : A -> res B) (l : list A) (bs : list B) :
  mapM f l = OK bs -> List.length bs = List.length l.
Proof.
  revert bs. induction l as [| a l IH]; simpl; intros bs H.
  - inversion H. reflexivity.
  - inv_bind H. inv_bind H. inversion H; subst. simpl. f_equal. apply IH. assumption.
Qed.

Lemma mapM_OK_Forall2 {A B : Type} (f : A -> res B) (l : list A) (bs : list B) :
  mapM f l = OK bs <-> Forall2 (fun a b => f a = OK b) l bs.
Proof.
  revert bs. induction l as [| a l IH]; simpl; intros bs; split; intros H.
  - inversion H. constructor.
  - inversion H. reflexivity.
  - inv_bind H. inv_bind H. inversion H; subst. constructor; [assumption |].
    apply IH. assumption.
  - inversion H as [| ? b ? bs' Hab Hl]; subst. rewrite Hab. simpl.
    apply IH in Hl. rewrite Hl. reflexivity.
Qed.

Lemma mapM_total {A B : Type} (f : A -> res B) (g : A -> B) (l : list A) :
  (forall a, In a l -> f a = OK (g a)) -> mapM f l = OK (map g l).
Proof.
  induction l as [| a l IH]; simpl; intros H.
  - reflexivity.
  - rewrite (H a (or_introl Logic.eq_refl)). simpl.
    rewrite IH by (intros; apply H; right; assumption). reflexivity.
Qed.

(** ** Dictionaries *)

Section DictFacts.
Context {K V : Type} (eqb : K -> K -> bool).
Hypothesis eqb_eq : forall x y, eqb x y = true <-> x = y.

Lemma eqb_same (x : K) : eqb x x = true.
Proof. apply eqb_eq. reflexivity. Qed.

Lemma eqb_diff (x y : K) : x <> y -> eqb x y = false.
Proof.
  intros H. destruct (eqb x y) eqn:E; [| reflexivity].
  apply eqb_eq in E. contradiction.
Qed.

Lemma dict_get_set_eq (k : K) (v : V) (d : list (K * V)) :
  dict_get eqb k (dict_set eqb k v d) = Some v.
Proof.
  induction d as [| [k' v'] d IH]; simpl.
  - rewrite eqb_same. reflexivity.
  - destruct (eqb k k') eqn:E; simpl.
    + rewrite eqb_same. reflexivity.
    + rewrite E. exact IH.
Qed.

Lemma dict_get_set_ne (k k0 : K) (v : V) (d : list (K * V)) :
  k0 <> k -> dict_get eqb k0 (dict_set eqb k v d) = dict_get eqb k0 d.
Proof.
  intros Hne. induction d as [| [k' v'] d IH]; simpl.
  - rewrite eqb_diff by assumption. reflexivity.
  - destruct (eqb k k') eqn:E; simpl.
    + apply eqb_eq in E. subst k'. rewrite eqb_diff by assumption. reflexivity.
    + rewrite IH. reflexivity.
Qed.

Lemma dict_get_In (k : K) (v : V) (d : list (K * V)) :
  dict_get eqb k d = Some v -> In (k, v) d.
Proof.
  induction d as [| [k' v'] d IH]; simpl; [discriminate |].
  destruct (eqb k k') eqn:E.
  - intros [= <-]. apply eqb_eq in E. subst. left. reflexivity.
  - intros H. right. apply IH. exact H.
Qed.

Lemma dict_get_None (k : K) (d : list (K * V)) :
  dict_get eqb k d = None <-> ~ In k (map fst d).
Proof.
  induction d as [| [k' v'] d IH]; simpl.
  - tauto.
  - destruct (eqb k k') eqn:E.
    + apply eqb_eq in E. subst. split; [discriminate | tauto].
    + rewrite IH. split.
      * intros H [H1 | H1]; [| tauto]. subst. rewrite eqb_same in E. discriminate.
      * tauto.
Qed.

Lemma dict_get_NoDup (k : K) (v : V) (d : list (K * V)) :
  NoDup (map fst d) -> In (k, v) d -> dict_get eqb k d = Some v.
Proof.
  induction d as [| [k' v'] d IH]; simpl; intros Hnd Hin; [contradiction |].
  inversion Hnd as [| ? ? Hnotin Hnd']; subst.
  destruct Hin as [H | H].
  - inversion H; subst. rewrite eqb_same. reflexivity.
  - destruct (eqb k k') eqn:E.
    + apply eqb_eq in E. subst. exfalso. apply Hnotin.
      apply (in_map fst) in H. exact H.
    + apply IH; assumption.
Qed.

Lemma dict_set_keys (k k0 : K) (v : V) (d : list (K * V)) :
  In k0 (map fst (dict_set eqb k v d)) <-> k0 = k \/ In k0 (map fst d).
Proof.
  induction d as [| [k' v'] d IH]; simpl.
  - intuition.
  - destruct (eqb k k') eqn:E; simpl.
    + apply eqb_eq in E. subst. intuition.
    + rewrite IH. intuition.
Qed.

Lemma dict_set_NoDup (k : K) (v : V) (d : list (K * V)) :
  NoDup (map fst d) -> NoDup (map fst (dict_set eqb k v d)).
Proof.
  induction d as [| [k' v'] d IH]; simpl; intros Hnd.
  - constructor; [simpl; tauto | constructor].
  - inversion Hnd as [| ? ? Hnotin Hnd']; subst.
    destruct (eqb k k') eqn:E; simpl.
    + apply eqb_eq in E. subst. constructor; assumption.
    + constructor; [| apply IH; assumption].
      rewrite dict_set_keys. intros [H | H]; [| contradiction].
      subst. rewrite eqb_same in E. discriminate.
Qed.

Lemma dict_set_fresh (k : K) (v : V) (d : list (K * V)) :
  ~ In k (map fst d) -> dict_set eqb k v d = d ++ [(k, v)].
Proof.
  induction d as [| [k' v'] d IH]; simpl; intros Hnotin.
  - reflexivity.
  - rewrite eqb_diff by (intros ->; tauto).
    rewrite IH by tauto. reflexivity.
Qed.

Lemma dict_update_keys (d other : list (K * V)) (k : K) :
  In k (map fst (dict_update eqb d other)) <->
  In k (map fst d) \/ In k (map fst other).
Proof.
  unfold dict_update. revert d.
  induction other as [| [k' v'] other IH]; simpl; intros d.
  - tauto.
  - rewrite IH, dict_set_keys. intuition.
Qed.

Lemma dict_update_NoDup (d other : list (K * V)) :
  NoDup (map fst d) -> NoDup (map fst (dict_update eqb d other)).
Proof.
  unfold dict_update. revert d.
  induction other as [| [k' v'] other IH]; simpl; intros d Hnd.
  - assumption.
  - apply IH, dict_set_NoDup. assumption.
Qed.

Lemma dict_update_fresh (d other : list (K * V)) :
  NoDup (map fst (d ++ other)) -> dict_update eqb d other = d ++ other.
Proof.
  unfold dict_update. revert d.
  induction other as [| [k' v'] other IH]; simpl; intros d Hnd.
  - rewrite app_nil_r. reflexivity.
  - rewrite dict_set_fresh.
    + rewrite IH; rewrite <- app_assoc; [reflexivity | exact Hnd].
    + rewrite map_app in Hnd. simpl in Hnd.
      apply NoDup_remove_2 in Hnd. intros H. apply Hnd.
      apply in_or_app. left. exact H.
Qed.

Lemma dict_of_keys (items : list (K * V)) (k : K) :
  In k (map fst (dict_of eqb items)) <-> In k (map fst items).
Proof.
  unfold dict_of. change (fold_left _ items []) with (dict_update eqb [] items).
  rewrite dict_update_keys. simpl. tauto.
Qed.

Lemma dict_of_NoDup (items : list (K * V)) :
  NoDup (map fst (dict_of eqb items)).
Proof.
  unfold dict_of. change (fold_left _ items []) with (dict_update eqb [] items).
  apply dict_update_NoDup. constructor.
Qed.

Lemma dict_of_fresh (items : list (K * V)) :
  NoDup (map fst items) -> dict_of eqb items = items.
Proof.
  intros Hnd. unfold dict_of.
  change (fold_left _ items []) with (dict_update eqb [] items).
  apply dict_update_fresh. exact Hnd.
Qed.
End DictFacts.

(** ** Integers as text *)

Lemma int_literal_str_int (z : Z) : Sql.int_literal (str_int z) = Some z.
Proof.
  unfold Sql.int_literal, str_int.
  rewrite NilZero.isi.
  - simpl. rewrite DecimalZ.of_to. reflexivity.
  - destruct z; simpl; try discriminate.
    intros [= H]. exact (Unsigned.to_uint_nonnil _ H).
  - destruct z; simpl; try discriminate.
    intros [= H]. exact (Unsigned.to_uint_nonnil _ H).
Qed.

Lemma word_string_of_uint (d : Decimal.uint) :
  Sql.word (NilEmpty.string_of_uint d) = true.
Proof. induction d; simpl; auto. Qed.

Lemma word_str_int (z : Z) : Sql.word (str_int z) = true.
Proof.
  unfold str_int, NilZero.string_of_int, NilZero.string_of_uint.
  destruct (Z.to_int z) as [d | d]; destruct d; simpl;
    try reflexivity; apply word_string_of_uint.
Qed.

Lemma str_int_nonempty (z : Z) : str_int z <> "".
Proof.
  intros H. pose proof (int_literal_str_int z) as E.
  rewrite H in E. discriminate.
Qed.

(** ** Lexing *)

Lemma append_nil_r (s : string) : (s ++ "")%string = s.
Proof. induction s as [| c s IH]; simpl; [| rewrite IH]; reflexivity. Qed.

Lemma append_assoc (s t u : string) :
  ((s ++ t) ++ u)%string = (s ++ (t ++ u))%string.
Proof. induction s as [| c s IH]; simpl; [| rewrite IH]; reflexivity. Qed.

Lemma lex_word_from (s w : string) :
  Sql.word s = true -> Sql.lex (Sql.InWord w) s = Some [Sql.TWord (w ++ s)].
Proof.
  revert w. induction s as [| c s IH]; simpl; intros w H.
  - rewrite append_nil_r. reflexivity.
  - apply andb_true_iff in H. destruct H as [Hc Hs].
    unfold Sql.word_char in Hc. apply negb_true_iff in Hc.
    apply orb_false_iff in Hc. destruct Hc as [Hc H3].
    apply orb_false_iff in Hc. destruct Hc as [H1 H2].
    rewrite H1, H2, H3. rewrite IH by assumption.
    unfold Sql.snoc. rewrite append_assoc. reflexivity.
Qed.

Lemma lex_word (s : string) :
  Sql.word s = true -> s <> "" -> Sql.lex Sql.Out s = Some [Sql.TWord s].
Proof.
  destruct s as [| c s]; simpl; intros H Hne; [congruence |].
  apply andb_true_iff in H. destruct H as [Hc Hs].
  unfold Sql.word_char in Hc. apply negb_true_iff in Hc.
  apply orb_false_iff in Hc. destruct Hc as [Hc H3].
  apply orb_false_iff in Hc. destruct Hc as [H1 H2].
  rewrite H1, H2, H3. rewrite lex_word_from by assumption. reflexivity.
Qed.

(** A text followed by a space and more text: the tokens of the first,
    then the tokens of the rest. *)
Lemma lex_space (a : string) :
  forall (m : Sql.mode) (ta : list Sql.token),
    Sql.lex m a = Some ta ->
    forall b, Sql.lex m (a ++ String " " b) = option_map (app ta) (Sql.lex Sql.Out b).
Proof.
  induction a as [| c a IH]; intros m ta H b.
  - simpl in *. destruct m; inversion H; subst; simpl;
      destruct (Sql.lex Sql.Out b); reflexivity.
  - simpl in *. destruct (Ascii.eqb c "%"); [discriminate |].
    destruct m.
    + destruct (Ascii.eqb c " "); [apply IH; assumption |].
      destruct (Ascii.eqb c "'"); apply IH; assumption.
    + destruct (Ascii.eqb c " ").
      * destruct (Sql.lex Sql.Out a) as [ts |] eqn:E; [| discriminate].
        simpl in H. inversion H; subst.
        rewrite (IH Sql.Out ts E b).
        destruct (Sql.lex Sql.Out b); reflexivity.
      * destruct (Ascii.eqb c "'"); [discriminate |]. apply IH; assumption.
    + destruct (Ascii.eqb c "'"); apply IH; assumption.
    + destruct (Ascii.eqb c "'"); [apply IH; assumption |].
      destruct (Ascii.eqb c " "); [| discriminate].
      destruct (Sql.lex Sql.Out a) as [ts |] eqn:E; [| discriminate].
      simpl in H. inversion H; subst.
      rewrite (IH Sql.Out ts E b).
      destruct (Sql.lex Sql.Out b); reflexivity.
Qed.

Lemma lex_join (parts : list string) (tss : list (list Sql.token)) :
  Forall2 (fun p ts => Sql.lex Sql.Out p = Some ts) parts tss ->
  Sql.lex Sql.Out (join " " parts) = Some (List.concat tss).
Proof.
  induction 1 as [| p ts parts tss Hp Hrest IH]; simpl.
  - reflexivity.
  - destruct parts as [| q parts].
    + inversion Hrest; subst. simpl. rewrite app_nil_r. exact Hp.
    + rewrite (lex_space p Sql.Out ts Hp). rewrite IH. reflexivity.
Qed.

(** ** Parsing what the two methods write *)

Lemma read_literal_inv (text : string) (v : value) :
  Sql.read_literal text = Some v ->
  exists t, Sql.lex Sql.Out text = Some [t] /\ Sql.literal t = Some v.
Proof.
  unfold Sql.read_literal.
  destruct (Sql.lex Sql.Out text) as [[| t [| t' ts]] |]; try discriminate.
  intros H. exists t. split; [reflexivity | exact H].
Qed.

Lemma read_literal_int (z : Z) : Sql.read_literal (str_int z) = Some (VInt z).
Proof.
  unfold Sql.read_literal.
  rewrite lex_word by (apply word_str_int || apply str_int_nonempty).
  simpl. rewrite int_literal_str_int. reflexivity.
Qed.

Lemma lex_when (id : Z) (text : string) (t : Sql.token) :
  Sql.lex Sql.Out text = Some [t] ->
  Sql.lex Sql.Out (when_text id text) = Some (when_tokens id t).
Proof.
  intros H.
  change (when_text id text)
    with (join " " ["WHEN"; "id"; "="; str_int id; "THEN"; text]).
  change (when_tokens id t)
    with (List.concat [[Sql.TWord "WHEN"]; [Sql.TWord "id"]; [Sql.TWord "="];
                       [Sql.TWord (str_int id)]; [Sql.TWord "THEN"]; [t]]).
  apply lex_join.
  repeat constructor; try exact H.
  apply lex_word; [apply word_str_int | apply str_int_nonempty].
Qed.

Lemma branches_when (id : Z) (t : Sql.token) (v : value) (tail : list Sql.token)
  (bs : list (Z * value)) :
  Sql.literal t = Some v ->
  Sql.branches tail = Some bs ->
  Sql.branches (when_tokens id t ++ tail) = Some ((id, v) :: bs).
Proof.
  intros Ht Htail. unfold when_tokens.
  cbn [app]. cbn [Sql.branches].
  change (Sql.is_word "WHEN" (Sql.TWord "WHEN")) with true.
  change (Sql.is_word "id" (Sql.TWord "id")) with true.
  change (Sql.is_word "=" (Sql.TWord "=")) with true.
  change (Sql.is_word "THEN" (Sql.TWord "THEN")) with true.
  cbn [andb].
  rewrite int_literal_str_int, Ht, Htail. reflexivity.
Qed.

Lemma whens_tokens (w : list branch) :
  Forall branch_ok w ->
  exists ts,
    Sql.lex Sql.Out (join " " (map branch_text w)) = Some ts /\
    forall tail bs,
      Sql.branches tail = Some bs ->
      Sql.branches (ts ++ tail) = Some (map branch_value w ++ bs).
Proof.
  induction 1 as [| b w Hb Hw IH].
  - exists []. split; [reflexivity |]. intros tail bs H. exact H.
  - destruct IH as (ts & Hlex & Hbr).
    destruct (read_literal_inv _ _ Hb) as (t & Ht & Hv).
    exists (when_tokens (fst (fst b)) t ++ ts). split.
    + pose proof (lex_when (fst (fst b)) _ t Ht) as Hwhen.
      destruct w as [| b' w].
      * simpl in Hlex. inversion Hlex; subst.
        rewrite app_nil_r. exact Hwhen.
      * change (join " " (map branch_text (b :: b' :: w)))
          with (branch_text b ++ String " " (join " " (map branch_text (b' :: w))))%string.
        unfold branch_text at 1.
        rewrite (lex_space _ Sql.Out _ Hwhen). rewrite Hlex. reflexivity.
    + intros tail bs Htail. rewrite <- app_assoc.
      change (map branch_value (b :: w) ++ bs)
        with ((fst (fst b), snd b) :: (map branch_value w ++ bs)).
      apply branches_when; [exact Hv |]. apply Hbr. exact Htail.
Qed.

Lemma case_sql_join (whens : list string) :
  case_sql whens = join " " ["CASE"; join " " whens; "END"].
Proof. reflexivity. Qed.

(** An expression with one well-written branch at least reads back as the
    branches it was written from. *)
Lemma parse_case_sql (w : list branch) :
  Forall branch_ok w -> w <> [] ->
  Sql.parse_case (case_sql (map branch_text w)) = Some (map branch_value w).
Proof.
  intros Hw Hne.
  destruct (whens_tokens w Hw) as (ts & Hlex & Hbr).
  unfold Sql.parse_case. rewrite case_sql_join.
  rewrite (lex_join _ [[Sql.TWord "CASE"]; ts; [Sql.TWord "END"]]).
  - cbn [List.concat app].
    change (Sql.is_word "CASE" (Sql.TWord "CASE")) with true. cbn iota.
    rewrite (Hbr [Sql.TWord "END"] []) by reflexivity.
    rewrite app_nil_r. destruct w; [congruence | reflexivity].
  - repeat constructor. exact Hlex.
Qed.

(** Without a branch nothing is read: [CASE  END] is not an expression. *)
Lemma parse_case_sql_empty : Sql.parse_case (case_sql []) = None.
Proof. reflexivity. Qed.

(** ** [sorted] returns the items it was given *)

Lemma insert_perm {A : Type} (x : value * A) (l l' : list (value * A)) :
  insert x l = OK l' -> Permutation (x :: l) l'.
Proof.
  revert l'. induction l as [| y l IH]; simpl; intros l' H.
  - inversion H. apply Permutation_refl.
  - inv_bind H. destruct a.
    + inv_bind H. inversion H; subst.
      apply perm_trans with (y :: x :: l); [apply perm_swap |].
      apply perm_skip. apply IH. assumption.
    + inversion H. apply Permutation_refl.
Qed.

Lemma isort_perm {A : Type} (l l' : list (value * A)) :
  isort l = OK l' -> Permutation l l'.
Proof.
  revert l'. induction l as [| x l IH]; simpl; intros l' H.
  - inversion H. apply perm_nil.
  - inv_bind H. apply insert_perm in H.
    apply perm_trans with (x :: a); [| assumption].
    apply perm_skip. apply IH. assumption.
Qed.

Lemma decorate_snd {A : Type} (key : A -> res value) (l : list A)
  (keyed : list (value * A)) :
  decorate key l = OK keyed -> map snd keyed = l.
Proof.
  unfold decorate. revert keyed. induction l as [| a l IH]; simpl; intros keyed H.
  - inversion H. reflexivity.
  - inv_bind H. inv_bind Ha. inversion Ha; subst.
    inv_bind H. inversion H; subst. simpl. f_equal. apply IH. assumption.
Qed.

Lemma sorted_perm {A : Type} (l s : list A) (key : A -> res value) (reverse : bool) :
  sorted l key reverse = OK s -> Permutation l s.
Proof.
  unfold sorted. intros H. inv_bind H. inv_bind H. inversion H; subst.
  apply decorate_snd in Ha. subst l. apply Permutation_map.
  destruct reverse.
  - inv_bind Ha0. inversion Ha0; subst. apply isort_perm in Ha.
    apply perm_trans with (rev a); [apply Permutation_rev |].
    apply perm_trans with a1; [assumption | apply Permutation_rev].
  - apply isort_perm. assumption.
Qed.

Lemma sorted_nil {A : Type} (key : A -> res value) (reverse : bool) :
  sorted (@nil A) key reverse = OK [].
Proof. destruct reverse; reflexivity. Qed.

(** ** [ORDER BY] on distinct integer ranks *)

Section OrderFacts.
Context {A : Type} (rank : A -> value) (pos : A -> Z).

Lemma place_perm (x : A) (l : list A) :
  Permutation (x :: l) (Sql.place rank x l).
Proof.
  induction l as [| y l IH]; simpl.
  - apply Permutation_refl.
  - destruct (Sql.le (rank x) (rank y)).
    + apply Permutation_refl.
    + apply perm_trans with (y :: x :: l); [apply perm_swap |].
      apply perm_skip. exact IH.
Qed.

Lemma order_rows_perm (l : list A) : Permutation l (Sql.order_rows rank l).
Proof.
  induction l as [| x l IH]; simpl.
  - apply perm_nil.
  - apply perm_trans with (x :: Sql.order_rows rank l).
    + apply perm_skip. exact IH.
    + apply place_perm.
Qed.

Lemma place_sorted (x : A) (l : list A) :
  rank x = VInt (pos x) ->
  Forall (fun y => rank y = VInt (pos y)) l ->
  StronglySorted (fun x y => (pos x <= pos y)%Z) l ->
  StronglySorted (fun x y => (pos x <= pos y)%Z) (Sql.place rank x l).
Proof.
  intros Hx Hl Hs. induction Hs as [| y l Hs IH Hy]; simpl.
  - constructor; constructor.
  - inversion Hl as [| ? ? Hry Hl']; subst.
    rewrite Hx, Hry. simpl.
    destruct (Z.leb_spec (pos x) (pos y)) as [Hle | Hgt].
    + constructor; [constructor; assumption |].
      constructor; [exact Hle |].
      eapply Forall_impl; [| exact Hy].
      intros z Hz. simpl in Hz. lia.
    + constructor; [apply IH; assumption |].
      apply (Permutation_Forall (place_perm x l)).
      constructor; [lia | exact Hy].
Qed.

Lemma order_rows_sorted (l : list A) :
  Forall (fun y => rank y = VInt (pos y)) l ->
  StronglySorted (fun x y => (pos x <= pos y)%Z) (Sql.order_rows rank l).
Proof.
  induction 1 as [| x l Hx Hl IH]; simpl.
  - constructor.
  - apply place_sorted; [exact Hx | | exact IH].
    apply (Permutation_Forall (order_rows_perm l)). exact Hl.
Qed.
End OrderFacts.

Lemma StronglySorted_map {A B : Type} (R : A -> A -> Prop) (R' : B -> B -> Prop)
  (g : A -> B) (l : list A) :
  (forall a b, In a l -> In b l -> R a b -> R' (g a) (g b)) ->
  StronglySorted R l -> StronglySorted R' (map g l).
Proof.
  intros H Hs. induction Hs as [| a l Hs IH Ha]; simpl.
  - constructor.
  - constructor.
    + apply IH. intros x y Hx Hy. apply H; right; assumption.
    + apply Forall_forall. intros b Hb. apply in_map_iff in Hb.
      destruct Hb as (y & <- & Hy).
      apply H; [left; reflexivity | right; exact Hy |].
      rewrite Forall_forall in Ha. apply Ha. exact Hy.
Qed.

(** Two arrangements of the same items, both in ascending order of a
    rank that tells the items apart, are the same list. *)
Lemma sorted_perm_unique {A : Type} (pos : A -> Z) (l1 l2 : list A) :
  Permutation l1 l2 ->
  StronglySorted (fun x y => (pos x <= pos y)%Z) l1 ->
  StronglySorted (fun x y => (pos x <= pos y)%Z) l2 ->
  (forall x y, In x l1 -> In y l1 -> pos x = pos y -> x = y) ->
  l1 = l2.
Proof.
  revert l2. induction l1 as [| a l1 IH]; intros l2 Hp H1 H2 Hinj.
  - apply Permutation_nil in Hp. subst. reflexivity.
  - destruct l2 as [| b l2].
    + apply Permutation_sym, Permutation_nil in Hp. discriminate.
    + apply StronglySorted_inv in H1. destruct H1 as [H1 Ha].
      apply StronglySorted_inv in H2. destruct H2 as [H2 Hb].
      rewrite Forall_forall in Ha, Hb.
      assert (Hab : a = b).
      { assert (Hina : In a (b :: l2))
          by (apply (Permutation_in _ Hp); left; reflexivity).
        assert (Hinb : In b (a :: l1))
          by (apply (Permutation_in _ (Permutation_sym Hp)); left; reflexivity).
        destruct Hina as [-> | Hina]; [reflexivity |].
        destruct Hinb as [-> | Hinb]; [reflexivity |].
        apply Hinj; [left; reflexivity | right; exact Hinb |].
        specialize (Ha b Hinb). specialize (Hb a Hina). lia. }
      subst b. f_equal. apply IH; try assumption.
      * apply Permutation_cons_inv with a. exact Hp.
      * intros x y Hx Hy. apply Hinj; right; assumption.
Qed.

Lemma StronglySorted_unmap {A B : Type} (R : B -> B -> Prop) (g : A -> B) (l : list A) :
  StronglySorted R (map g l) -> StronglySorted (fun a b => R (g a) (g b)) l.
Proof.
  induction l as [| a l IH]; simpl; intros H.
  - constructor.
  - apply StronglySorted_inv in H. destruct H as [Hs Ha].
    constructor; [apply IH; exact Hs |].
    rewrite Forall_forall in *. intros b Hb. apply Ha. apply in_map. exact Hb.
Qed.

Lemma seq_sorted (len start : nat) : StronglySorted le (seq start len).
Proof.
  revert start. induction len as [| len IH]; intros start; simpl.
  - constructor.
  - constructor; [apply IH |].
    apply Forall_forall. intros n Hn. apply in_seq in Hn. lia.
Qed.

Lemma NoDup_map_inj {A B : Type} (g : A -> B) (l : list A) (a b : A) :
  NoDup (map g l) -> In a l -> In b l -> g a = g b -> a = b.
Proof.
  induction l as [| x l IH]; simpl; intros Hnd Ha Hb Hg; [contradiction |].
  inversion Hnd as [| ? ? Hnotin Hnd']; subst.
  destruct Ha as [-> | Ha]; destruct Hb as [-> | Hb]; try reflexivity.
  - exfalso. apply Hnotin. rewrite Hg. apply in_map. exact Hb.
  - exfalso. apply Hnotin. rewrite <- Hg. apply in_map. exact Ha.
  - apply IH; assumption.
Qed.

(** ** The mapping [sort] builds *)

Lemma enumerate_fst {A : Type} (g : A -> Z) (l : list A) (start : nat) :
  map (fun item => g (snd item)) (combine (seq start (List.length l)) l) = map g l.
Proof.
  revert start. induction l as [| a l IH]; intros start; simpl.
  - reflexivity.
  - f_equal. apply IH.
Qed.

Lemma enumerate_snd {A : Type} (l : list A) (start : nat) :
  map fst (combine (seq start (List.length l)) l) = seq start (List.length l).
Proof.
  revert start. induction l as [| a l IH]; intros start; simpl.
  - reflexivity.
  - f_equal. apply IH.
Qed.

Lemma order_mapping_keys (l : list record) :
  NoDup (map pk l) -> map fst (order_mapping l) = map pk l.
Proof.
  intros Hnd. unfold order_mapping, enumerate.
  rewrite (dict_of_fresh Z.eqb Z.eqb_eq); rewrite map_map; simpl.
  - apply enumerate_fst.
  - rewrite enumerate_fst. exact Hnd.
Qed.

Lemma order_mapping_ranks (l : list record) :
  NoDup (map pk l) -> map snd (order_mapping l) = seq 0 (List.length l).
Proof.
  intros Hnd. unfold order_mapping, enumerate.
  rewrite (dict_of_fresh Z.eqb Z.eqb_eq); rewrite map_map; simpl.
  - apply enumerate_snd.
  - rewrite enumerate_fst. exact Hnd.
Qed.

Lemma sort_sql_branches (l : list record) :
  sort_sql l = case_sql (map branch_text (map order_branch (order_mapping l))).
Proof. unfold sort_sql. rewrite map_map. reflexivity. Qed.

Lemma order_branch_ok (m : list (Z * nat)) : Forall branch_ok (map order_branch m).
Proof.
  apply Forall_forall. intros b Hb. apply in_map_iff in Hb.
  destruct Hb as (e & <- & _). unfold branch_ok, order_branch. simpl.
  apply read_literal_int.
Qed.

Lemma parse_sort_sql (l : list record) :
  l <> [] -> NoDup (map pk l) ->
  Sql.parse_case (sort_sql l)
  = Some (map branch_value (map order_branch (order_mapping l))).
Proof.
  intros Hne Hnd. rewrite sort_sql_branches.
  apply parse_case_sql; [apply order_branch_ok |].
  intros H. apply (f_equal (map branch_value)) in H.
  apply (f_equal (map fst)) in H. rewrite !map_map in H. simpl in H.
  change (map (fun x => fst x) (order_mapping l)) with (map fst (order_mapping l)) in H.
  rewrite order_mapping_keys in H by assumption.
  destruct l; [congruence | discriminate].
Qed.

Lemma rank_of_position (m : list (Z * nat)) (id : Z) :
  In id (map fst m) -> rank_of m id = VInt (position m id).
Proof.
  unfold rank_of, position, Sql.eval_case. rewrite map_map.
  induction m as [| [k n] m IH]; simpl; intros H; [contradiction |].
  destruct (Z.eqb id k) eqn:E; [reflexivity |].
  apply IH. destruct H as [H | H]; [| exact H].
  subst. rewrite Z.eqb_refl in E. discriminate.
Qed.

Lemma position_entry (m : list (Z * nat)) (e : Z * nat) :
  NoDup (map fst m) -> In e m -> position m (fst e) = Z.of_nat (snd e).
Proof.
  intros Hnd Hin. unfold position.
  rewrite (dict_get_NoDup Z.eqb Z.eqb_eq (fst e) (snd e)); try assumption.
  - reflexivity.
  - destruct e. exact Hin.
Qed.

(** Rows ordered by the rank read from the mapping come in the order of
    the mapping. *)
Lemma order_rows_by_mapping (m : list (Z * nat)) (rows : list record) :
  NoDup (map fst m) -> NoDup (map snd m) ->
  StronglySorted le (map snd m) ->
  Permutation (map pk rows) (map fst m) ->
  map pk (Sql.order_rows (fun row => rank_of m (pk row)) rows) = map fst m.
Proof.
  intros Hk Hv Hs Hp.
  apply (sorted_perm_unique (position m)).
  - apply perm_trans with (map pk rows); [| exact Hp].
    apply Permutation_map, Permutation_sym, order_rows_perm.
  - apply (StronglySorted_map (fun x y => (position m (pk x) <= position m (pk y))%Z)).
    + intros a b _ _ H. exact H.
    + apply (order_rows_sorted _ (fun row => position m (pk row))).
      apply Forall_forall. intros row Hrow. apply rank_of_position.
      apply (Permutation_in _ Hp). apply in_map. exact Hrow.
  - apply (StronglySorted_map (fun a b : Z * nat => snd a <= snd b)).
    + intros a b Ha Hb H.
      rewrite !position_entry by assumption. lia.
    + apply StronglySorted_unmap. exact Hs.
  - intros x y Hx Hy Hxy.
    assert (Hin : forall z, In z (map pk (Sql.order_rows (fun row => rank_of m (pk row)) rows)) ->
                            In z (map fst m)).
    { intros z Hz. apply (Permutation_in _ Hp).
      refine (Permutation_in z (Permutation_map pk (Permutation_sym _)) Hz).
      apply order_rows_perm. }
    apply Hin in Hx. apply Hin in Hy.
    apply in_map_iff in Hx. destruct Hx as (ex & <- & Hex).
    apply in_map_iff in Hy. destruct Hy as (ey & <- & Hey).
    rewrite !position_entry in Hxy by assumption.
    apply Nat2Z.inj in Hxy.
    rewrite (NoDup_map_inj snd m ex ey Hv Hex Hey Hxy). reflexivity.
Qed.

(** ** Iteration *)

Lemma fetch_pk (cols : list (string * list (Z * value))) (row : record) :
  pk (fetch cols row) = pk row.
Proof. induction cols as [| c cols IH]; simpl; [reflexivity | exact IH]. Qed.

Lemma map_fetch_pk (cols : list (string * list (Z * value))) (l : list record) :
  map pk (map (fetch cols) l) = map pk l.
Proof. rewrite map_map. apply map_ext. intros. apply fetch_pk. Qed.

Lemma compile_set (d : list (string * string)) (cols : list (string * list (Z * value)))
  (name sql : string) (bs : list (Z * value)) :
  mapM compile_field d = OK cols ->
  Sql.parse_case sql = Some bs ->
  mapM compile_field (dict_set String.eqb name sql d)
  = OK (dict_set String.eqb name bs cols).
Proof.
  intros Hd Hsql. revert cols Hd.
  induction d as [| [k v] d IH]; simpl; intros cols Hd.
  - inversion Hd; subst. unfold compile_field. simpl. rewrite Hsql. reflexivity.
  - inv_bind Hd. inv_bind Hd. inversion Hd; subst.
    unfold compile_field in Ha. simpl in Ha.
    destruct (Sql.parse_case v) as [bv |] eqn:Ev; [| discriminate].
    inversion Ha; subst. simpl.
    destruct (String.eqb name k) eqn:E; simpl.
    + unfold compile_field at 1. simpl. rewrite Hsql. simpl.
      rewrite Ha0. reflexivity.
    + unfold compile_field at 1. simpl. rewrite Ev. simpl.
      rewrite (IH a0 Ha0). reflexivity.
Qed.

Lemma iter_inv (qs : QuerySet) (objs : list record) :
  iter qs = OK objs ->
  exists cols ordered,
    mapM compile_field (extra_select qs) = OK cols /\
    objs = map (fetch cols) ordered /\
    Permutation (rows qs) ordered /\
    (ordering qs = None -> ordered = rows qs).
Proof.
  unfold iter. intros H. inv_bind H. inv_bind H. inversion H; subst.
  exists a, a0. split; [assumption |]. split; [reflexivity |].
  destruct (ordering qs) as [name |].
  - destruct (dict_get String.eqb name a); [| discriminate].
    inversion Ha0; subst. split; [apply order_rows_perm | discriminate].
  - inversion Ha0; subst. split; [apply Permutation_refl | reflexivity].
Qed.

Lemma iter_pks (qs : QuerySet) (objs : list record) :
  iter qs = OK objs -> Permutation (map pk (rows qs)) (map pk objs).
Proof.
  intros H. destruct (iter_inv _ _ H) as (cols & ordered & _ & -> & Hp & _).
  rewrite map_fetch_pk. apply Permutation_map. exact Hp.
Qed.

Lemma iter_nil_rows (qs : QuerySet) : iter qs = OK [] -> rows qs = [].
Proof.
  intros H. apply iter_pks in H. simpl in H.
  apply Permutation_sym, Permutation_nil in H.
  destruct (rows qs); [reflexivity | discriminate].
Qed.

(** ** Sort-by-key *)

Lemma extra_one (name sql : string) (qs : QuerySet) :
  extra_select (extra [(name, sql)] qs)
  = dict_set String.eqb name sql (extra_select qs).
Proof. reflexivity. Qed.

(** What iterating the collection [sort] returns gives, in terms of the
    in-memory sorted list. *)
Lemma iter_sorted_collection (qs : QuerySet) (objs l : list record) :
  NoDup (map pk (rows qs)) ->
  iter qs = OK objs ->
  Permutation objs l ->
  l <> [] ->
  exists out,
    iter (order_by "sort_order" (extra [("sort_order", sort_sql l)] qs)) = OK out /\
    map pk out = map pk l.
Proof.
  intros Hnd Hiter Hperm Hne.
  assert (Hpks : Permutation (map pk (rows qs)) (map pk l)).
  { apply perm_trans with (map pk objs); [apply iter_pks; exact Hiter |].
    apply Permutation_map. exact Hperm. }
  assert (Hndl : NoDup (map pk l)) by (apply (Permutation_NoDup Hpks); exact Hnd).
  destruct (iter_inv _ _ Hiter) as (cols & ordered & Hcols & _).
  unfold iter. cbn [ordering order_by extra_select rows].
  rewrite extra_one.
  rewrite (compile_set _ cols _ _ _ Hcols (parse_sort_sql l Hne Hndl)).
  cbn [bind]. rewrite (dict_get_set_eq String.eqb String.eqb_eq). cbn [bind].
  eexists. split; [reflexivity |].
  rewrite map_fetch_pk.
  change (fun row : record =>
            Sql.eval_case (map branch_value (map order_branch (order_mapping l))) (pk row))
    with (fun row : record => rank_of (order_mapping l) (pk row)).
  rewrite <- (order_mapping_keys l Hndl).
  apply order_rows_by_mapping.
  - apply dict_of_NoDup. exact Z.eqb_eq.
  - rewrite order_mapping_ranks by assumption. apply seq_NoDup.
  - rewrite order_mapping_ranks by assumption. apply seq_sorted.
  - rewrite order_mapping_keys by assumption. exact Hpks.
Qed.

Lemma sort_collection (qs : QuerySet) (key : Key) (reverse : bool)
  (k : record -> res value) (objs l : list record) :
  NoDup (map pk (rows qs)) ->
  iter qs = OK objs ->
  objs <> [] ->
  normalize key = OK k ->
  sorted objs k reverse = OK l ->
  exists qs' out,
    sort qs key reverse = OK qs' /\ iter qs' = OK out /\ map pk out = map pk l.
Proof.
  intros Hnd Hiter Hne Hk Hsorted.
  pose proof (sorted_perm _ _ _ _ Hsorted) as Hperm.
  assert (Hl : l <> []).
  { intros ->. apply Permutation_sym, Permutation_nil in Hperm. contradiction. }
  destruct (iter_sorted_collection qs objs l Hnd Hiter Hperm Hl) as (out & Hout & Hpk).
  exists (order_by "sort_order" (extra [("sort_order", sort_sql l)] qs)), out.
  split; [| split; assumption].
  unfold sort. rewrite Hk. cbn [bind]. rewrite Hiter. cbn [bind].
  rewrite Hsorted. cbn [bind]. destruct l; [congruence | reflexivity].
Qed.

(** ** The empty collection *)

Lemma sort_of_nothing (qs : QuerySet) (key : Key) (reverse : bool)
  (k : record -> res value) :
  normalize key = OK k -> iter qs = OK [] -> sort qs key reverse = OK qs.
Proof.
  intros Hk Hiter. unfold sort. rewrite Hk. cbn [bind]. rewrite Hiter. cbn [bind].
  rewrite sorted_nil. reflexivity.
Qed.

Lemma normalize_total (key : Key) :
  key <> KTuple [] -> exists k, normalize key = OK k.
Proof.
  destruct key as [f | name | [| name [| name' names]]]; simpl; intros H;
    try congruence; eexists; reflexivity.
Qed.

Lemma sort_of_nothing_any_key (qs : QuerySet) (key : Key) (reverse : bool) :
  iter qs = OK [] -> key <> KTuple [] -> sort qs key reverse = OK qs.
Proof.
  intros Hiter Hkey.
  destruct (normalize_total key Hkey) as (k & Hk).
  apply (sort_of_nothing qs key reverse k); assumption.
Qed.

(** C3, as stated, fails: with the empty tuple as key, [sort] on an empty
    collection raises the [TypeError] of [attrgetter] called without a
    name. *)
Lemma sort_empty_collection_empty_tuple :
  iter no_records = OK [] /\
  sort no_records (KTuple []) false
  = Err (TypeError "attrgetter expected 1 argument, got 0").
Proof. split; reflexivity. Qed.

(** C3, amended. For every key other than the empty tuple and either
    value of [reverse], [sort] on a collection that iterates to nothing
    returns that collection itself: no error, and no expression added to
    what it selects. *)
Theorem sort_empty_collection_unchanged :
  forall (qs : QuerySet) (key : Key) (reverse : bool),
    iter qs = OK [] ->
    key <> KTuple [] ->
    sort qs key reverse = OK qs.
Proof.
  intros qs key reverse Hiter Hkey.
  destruct (normalize_total key Hkey) as (k & Hk).
  unfold sort. rewrite Hk. cbn [bind]. rewrite Hiter. cbn [bind].
  rewrite sorted_nil. reflexivity.
Qed.

Lemma sort_empty_collection_unchanged_witness :
  sort no_records (KCallable (fun obj => Returns (VInt (pk obj)))) true = OK no_records.
Proof.
  apply sort_empty_collection_unchanged.
  - reflexivity.
  - discriminate.
Defined.

(** C10. On a collection that iterates to nothing, [sort] by an attribute
    name, or by a tuple that names one attribute at least, returns the
    collection itself whatever the names are: no attribute is looked up,
    so a name no record has raises nothing. *)
Theorem sort_empty_collection_unknown_attribute :
  forall (qs : QuerySet) (reverse : bool),
    iter qs = OK [] ->
    (forall name, sort qs (KStr name) reverse = OK qs) /\
    (forall name names, sort qs (KTuple (name :: names)) reverse = OK qs).
Proof.
  intros qs reverse Hiter. split; intros.
  - apply sort_of_nothing_any_key; [assumption | discriminate].
  - apply sort_of_nothing_any_key; [assumption | discriminate].
Qed.

Lemma sort_empty_collection_unknown_attribute_witness :
  (forall name, sort no_records (KStr name) false = OK no_records) /\
  (forall name names, sort no_records (KTuple (name :: names)) false = OK no_records).
Proof. apply sort_empty_collection_unknown_attribute. reflexivity. Defined.

(** ** The name of the computed field *)

Lemma mapM_Err {A B : Type} (f : A -> res B) (l : list A) (e : exn) :
  mapM f l = Err e -> exists a, In a l /\ f a = Err e.
Proof.
  induction l as [| a l IH]; simpl; intros H; [discriminate |].
  apply bind_Err in H. destruct H as [H | (b & Hb & H)].
  - exists a. split; [left; reflexivity | exact H].
  - apply bind_Err in H. destruct H as [H | (bs & _ & H)]; [| discriminate].
    destruct (IH H) as (x & Hx & Hfx). exists x. split; [right |]; assumption.
Qed.

Lemma iter_not_value_error (qs : QuerySet) (e : exn) :
  iter qs = Err e -> not_value_error e.
Proof.
  unfold iter. intros H msg.
  apply bind_Err in H. destruct H as [H | (cols & _ & H)].
  - apply mapM_Err in H. destruct H as (c & _ & H).
    unfold compile_field in H. destruct (Sql.parse_case (snd c)); [discriminate |].
    inversion H. discriminate.
  - apply bind_Err in H. destruct H as [H | (ordered & _ & H)]; [| discriminate].
    destruct (ordering qs) as [name |]; [| discriminate].
    destruct (dict_get String.eqb name cols); [discriminate |].
    inversion H. discriminate.
Qed.

Lemma annotation_key_not_value_error (annotation : Annotation)
  (k : record -> res value) (obj : record) (e : exn) :
  annotation_key annotation = OK k -> k obj = Err e -> not_value_error e.
Proof.
  intros Hk He msg. destruct annotation as [f | name]; simpl in Hk; inversion Hk; subst.
  - unfold call in He. destruct (f obj); [discriminate |]. inversion He. discriminate.
  - unfold getattr in He. destruct (String.eqb name "pk"); [discriminate |].
    destruct (dict_get String.eqb name (attrs obj)); [discriminate |].
    inversion He. discriminate.
Qed.

Lemma annotation_key_total (annotation : Annotation) :
  exists k, annotation_key annotation = OK k.
Proof. destruct annotation; eexists; reflexivity. Qed.

(** C4. [annotate_property] raises its configuration error, the
    [ValueError] of line 69, exactly when the annotation is a callable and
    no name is given; with an attribute name and no name given, it does
    what it does under the name made of the attribute name and the suffix
    [_property]. *)
Theorem annotate_property_name :
  forall (qs : QuerySet),
    (forall annotation property_name,
        annotate_property qs annotation property_name = Err no_name
        <-> (property_name = None /\ exists f, annotation = ACallable f)) /\
    (forall attr,
        output_name (AStr attr) None = OK (attr ++ "_property")%string /\
        annotate_property qs (AStr attr) None
        = annotate_property qs (AStr attr) (Some (attr ++ "_property")%string)).
Proof.
  intros qs. split.
  - intros annotation property_name.
    assert (Hinv : forall msg,
               annotate_property qs annotation property_name = Err (ValueError msg) ->
               ValueError msg = no_name /\
               property_name = None /\ exists f, annotation = ACallable f).
    { intros msg H. unfold annotate_property in H.
      apply bind_Err in H. destruct H as [H | (name & _ & H)].
      - destruct property_name as [name |]; [discriminate |].
        destruct annotation as [f | attr]; [| discriminate].
        simpl in H. inversion H.
        split; [reflexivity |]. split; [reflexivity | exists f; reflexivity].
      - exfalso.
        apply bind_Err in H. destruct H as [H | (k & Hk & H)].
        { destruct (annotation_key_total annotation) as (k & Hk). congruence. }
        apply bind_Err in H. destruct H as [H | (objs & _ & H)].
        { exact (iter_not_value_error _ _ H msg Logic.eq_refl). }
        apply bind_Err in H. destruct H as [H | (m & _ & H)]; [| discriminate].
        unfold value_mapping in H.
        apply bind_Err in H. destruct H as [H | (items & _ & H)]; [| discriminate].
        apply mapM_Err in H. destruct H as (obj & _ & H).
        apply bind_Err in H. destruct H as [H | (v & _ & H)]; [| discriminate].
        exact (annotation_key_not_value_error _ _ _ _ Hk H msg Logic.eq_refl). }
    split.
    + intros H. apply (Hinv _ H).
    + intros (-> & f & ->). reflexivity.
  - intros attr. split; reflexivity.
Qed.

(** ** Annotate-property on the empty collection *)

Lemma compile_set_rejected (d : list (string * string))
  (cols : list (string * list (Z * value))) (name sql : string) :
  mapM compile_field d = OK cols ->
  Sql.parse_case sql = None ->
  mapM compile_field (dict_set String.eqb name sql d) = Err DatabaseError.
Proof.
  intros Hd Hsql. revert cols Hd.
  induction d as [| [k v] d IH]; simpl; intros cols Hd.
  - unfold compile_field. simpl. rewrite Hsql. reflexivity.
  - inv_bind Hd. inv_bind Hd. inversion Hd; subst.
    destruct (String.eqb name k) eqn:E; simpl.
    + unfold compile_field at 1. simpl. rewrite Hsql. reflexivity.
    + rewrite Ha. simpl. rewrite (IH a0 Ha0). reflexivity.
Qed.

(** C6. On a collection that iterates to nothing, [annotate_property]
    (given a name, or an attribute name to make one from) does not return
    the collection: it returns one that selects, under the output name,
    the text [CASE  END], and so differs from the one it was given.  That
    text has no branch and is not an expression, so iterating the returned
    collection fails in the database.  [sort], on the same collection, has
    a guard. *)
Theorem annotate_property_empty_collection_malformed :
  forall (qs : QuerySet) (annotation : Annotation) (property_name : option string)
         (name : string),
    iter qs = OK [] ->
    output_name annotation property_name = OK name ->
    annotate_property qs annotation property_name
    = OK (extra [(name, "CASE  END")] qs) /\
    extra [(name, "CASE  END")] qs <> qs /\
    Sql.parse_case "CASE  END" = None /\
    iter (extra [(name, "CASE  END")] qs) = Err DatabaseError /\
    (forall key reverse, key <> KTuple [] -> sort qs key reverse = OK qs).
Proof.
  intros qs annotation property_name name Hiter Hname.
  assert (Hbad : iter (extra [(name, "CASE  END")] qs) = Err DatabaseError).
  { destruct (iter_inv _ _ Hiter) as (cols & ordered & Hcols & _).
    unfold iter. rewrite extra_one.
    rewrite (compile_set_rejected _ cols _ _ Hcols) by reflexivity.
    reflexivity. }
  split; [| split; [| split; [reflexivity | split; [exact Hbad |]]]].
  - unfold annotate_property. rewrite Hname. cbn [bind].
    destruct (annotation_key_total annotation) as (k & ->). cbn [bind].
    rewrite Hiter. reflexivity.
  - intros H. rewrite H in Hbad. congruence.
  - intros key reverse Hkey. apply sort_of_nothing_any_key; assumption.
Qed.

Lemma annotate_property_empty_collection_malformed_witness :
  annotate_property no_records (AStr "name") None
  = OK (extra [("name_property", "CASE  END")] no_records) /\
  extra [("name_property", "CASE  END")] no_records <> no_records /\
  Sql.parse_case "CASE  END" = None /\
  iter (extra [("name_property", "CASE  END")] no_records) = Err DatabaseError /\
  (forall key reverse, key <> KTuple [] -> sort no_records key reverse = OK no_records).
Proof.
  apply (annotate_property_empty_collection_malformed no_records (AStr "name") None).
  - reflexivity.
  - reflexivity.
Defined.

(** ** The manager *)

Lemma fetch_nothing (l : list record) : map (fetch []) l = l.
Proof. induction l as [| a l IH]; simpl; [| rewrite IH]; reflexivity. Qed.

(** C9. The manager's [sort] and [annotate_property] return what the
    methods of the collection return on [get_queryset], with the same
    arguments; and [get_queryset] is the collection of all the records of
    the kind, in their own order. *)
Theorem manager_forwards :
  forall (m : AnnotatableManager.Manager),
    iter (AnnotatableManager.get_queryset m) = OK (AnnotatableManager.model m) /\
    (forall key reverse,
        AnnotatableManager.sort m key reverse
        = sort (AnnotatableManager.get_queryset m) key reverse) /\
    (forall annotation property_name,
        AnnotatableManager.annotate_property m annotation property_name
        = annotate_property (AnnotatableManager.get_queryset m) annotation property_name).
Proof.
  intros m. split; [| split; reflexivity].
  unfold iter. simpl. rewrite fetch_nothing. reflexivity.
Qed.

(** ** The mappings and what the two methods return *)

Lemma order_mapping_ids (l : list record) (id : Z) :
  In id (map fst (order_mapping l)) <-> In id (map pk l).
Proof.
  unfold order_mapping, enumerate.
  rewrite (dict_of_keys Z.eqb Z.eqb_eq). rewrite map_map. simpl.
  rewrite enumerate_fst. tauto.
Qed.

Lemma order_mapping_nonempty (l : list record) : l <> [] -> order_mapping l <> [].
Proof.
  destruct l as [| o l]; [congruence |]. intros _ H.
  assert (Hin : In (pk o) (map fst (order_mapping (o :: l)))).
  { apply order_mapping_ids. left. reflexivity. }
  rewrite H in Hin. contradiction.
Qed.

Lemma parse_sort_sql_any (l : list record) :
  l <> [] ->
  Sql.parse_case (sort_sql l)
  = Some (map branch_value (map order_branch (order_mapping l))).
Proof.
  intros Hne. rewrite sort_sql_branches.
  apply parse_case_sql; [apply order_branch_ok |].
  intros H. apply map_eq_nil in H. exact (order_mapping_nonempty l Hne H).
Qed.

Lemma repr_branch_value (items : list (Z * value)) :
  map branch_value (map repr_branch items) = items.
Proof.
  rewrite map_map. rewrite <- (map_id items) at 2.
  apply map_ext. intros [id v]. reflexivity.
Qed.

Lemma annotate_sql_branches (items : list (Z * value)) :
  annotate_sql items = case_sql (map branch_text (map repr_branch items)).
Proof. unfold annotate_sql. rewrite map_map. reflexivity. Qed.

Lemma value_items_ids (k : record -> res value) (objs : list record)
  (items : list (Z * value)) :
  mapM (fun obj => v <- k obj ;; OK (pk obj, v)) objs = OK items ->
  map fst items = map pk objs.
Proof.
  revert items. induction objs as [| obj objs IH]; simpl; intros items H.
  - inversion H. reflexivity.
  - inv_bind H. inv_bind Ha. inversion Ha; subst.
    inv_bind H. inversion H; subst. simpl. f_equal. apply IH. assumption.
Qed.

Lemma sort_inv (qs qs' : QuerySet) (key : Key) (reverse : bool) (objs : list record) :
  iter qs = OK objs -> objs <> [] ->
  sort qs key reverse = OK qs' ->
  exists k l,
    normalize key = OK k /\ sorted objs k reverse = OK l /\ l <> [] /\
    qs' = order_by "sort_order" (extra [("sort_order", sort_sql l)] qs).
Proof.
  intros Hiter Hne H. unfold sort in H.
  inv_bind H. rewrite Hiter in H. cbn [bind] in H. inv_bind H.
  exists a, a0. split; [assumption |]. split; [assumption |].
  assert (Hl : a0 <> []).
  { intros ->. apply sorted_perm in Ha0.
    apply Permutation_sym, Permutation_nil in Ha0. contradiction. }
  split; [exact Hl |].
  destruct a0; [congruence |]. inversion H. reflexivity.
Qed.

Lemma annotate_property_inv (qs qs' : QuerySet) (annotation : Annotation)
  (property_name : option string) (objs : list record) :
  iter qs = OK objs ->
  annotate_property qs annotation property_name = OK qs' ->
  exists name k items,
    output_name annotation property_name = OK name /\
    annotation_key annotation = OK k /\
    mapM (fun obj => v <- k obj ;; OK (pk obj, v)) objs = OK items /\
    qs' = extra [(name, annotate_sql (dict_of Z.eqb items))] qs.
Proof.
  intros Hiter H. unfold annotate_property in H.
  inv_bind H. inv_bind H. rewrite Hiter in H. cbn [bind] in H.
  inv_bind H. unfold value_mapping in Ha1. inv_bind Ha1.
  inversion Ha1; subst. inversion H; subst.
  exists a, a0, a2. repeat split; assumption.
Qed.

(** ** Annotate-property *)

Lemma compile_set_inv (d : list (string * string))
  (cols cols' : list (string * list (Z * value))) (name sql : string) :
  mapM compile_field d = OK cols ->
  mapM compile_field (dict_set String.eqb name sql d) = OK cols' ->
  exists bs, Sql.parse_case sql = Some bs /\ cols' = dict_set String.eqb name bs cols.
Proof.
  intros Hd Hd'. destruct (Sql.parse_case sql) as [bs |] eqn:E.
  - exists bs. split; [reflexivity |].
    rewrite (compile_set _ _ _ _ _ Hd E) in Hd'. inversion Hd'. reflexivity.
  - rewrite (compile_set_rejected _ _ _ _ Hd E) in Hd'. discriminate.
Qed.

(** Iterating a collection after one more computed field is selected. *)
Lemma iter_extra (qs : QuerySet) (objs : list record) (name sql : string)
  (cols : list (string * list (Z * value))) (bs : list (Z * value)) :
  iter qs = OK objs ->
  mapM compile_field (extra_select qs) = OK cols ->
  Sql.parse_case sql = Some bs ->
  exists ordered,
    iter (extra [(name, sql)] qs)
    = OK (map (fetch (dict_set String.eqb name bs cols)) ordered) /\
    Permutation (rows qs) ordered /\
    (ordering qs <> Some name -> map pk ordered = map pk objs).
Proof.
  intros Hiter Hcols Hsql. unfold iter in *.
  rewrite extra_one. cbn [ordering rows extra].
  rewrite (compile_set _ _ _ _ _ Hcols Hsql). rewrite Hcols in Hiter.
  cbn [bind] in *.
  destruct (ordering qs) as [n |].
  - destruct (String.eqb n name) eqn:E.
    + apply String.eqb_eq in E. subst n.
      rewrite (dict_get_set_eq String.eqb String.eqb_eq). cbn [bind].
      eexists. split; [reflexivity |]. split; [apply order_rows_perm | congruence].
    + apply String.eqb_neq in E.
      rewrite (dict_get_set_ne String.eqb String.eqb_eq) by exact E.
      destruct (dict_get String.eqb n cols) as [bn |]; [| discriminate].
      cbn [bind] in *. inversion Hiter; subst.
      eexists. split; [reflexivity |]. split; [apply order_rows_perm |].
      intros _. rewrite map_fetch_pk. reflexivity.
  - cbn [bind] in *. inversion Hiter; subst.
    eexists. split; [reflexivity |]. split; [apply Permutation_refl |].
    intros _. rewrite map_fetch_pk. reflexivity.
Qed.

(** C8, as stated, fails: on a collection ordered by [sort], annotating
    under the name [sort_order] replaces the expression the collection is
    ordered by, and the records come in another order. *)
Lemma annotate_property_reorders_sorted :
  exists q q' objs objs',
    sort two_records (KStr "name") false = OK q /\
    iter q = OK objs /\
    annotate_property q (ACallable (fun obj => Returns (VInt (pk obj))))
      (Some "sort_order") = OK q' /\
    iter q' = OK objs' /\
    map pk objs = [2; 1]%Z /\
    map pk objs' = [1; 2]%Z.
Proof. do 4 eexists. repeat split; reflexivity. Qed.

(** C8, amended. When the output name is not the name of the computed
    field the collection is ordered by, [annotate_property] returns a
    collection with the same rows, the same requested ordering and the same
    expressions under every other name; its iteration either is rejected
    by the database or yields the records in the order the input
    collection yields them.  The input collection is a value: the call
    leaves it as it was. *)
Theorem annotate_property_keeps_order :
  forall (qs qs' : QuerySet) (annotation : Annotation) (property_name : option string)
         (name : string) (objs : list record),
    iter qs = OK objs ->
    output_name annotation property_name = OK name ->
    ordering qs <> Some name ->
    annotate_property qs annotation property_name = OK qs' ->
    rows qs' = rows qs /\
    ordering qs' = ordering qs /\
    (forall other, other <> name ->
        dict_get String.eqb other (extra_select qs')
        = dict_get String.eqb other (extra_select qs)) /\
    (iter qs' = Err DatabaseError \/
     exists objs', iter qs' = OK objs' /\ map pk objs' = map pk objs).
Proof.
  intros qs qs' annotation property_name name objs Hiter Hname Hord Hann.
  destruct (annotate_property_inv _ _ _ _ _ Hiter Hann)
    as (name' & k & items & Hname' & Hk & Hitems & ->).
  rewrite Hname in Hname'. inversion Hname'; subst name'.
  split; [reflexivity |]. split; [reflexivity |]. split.
  - intros other Hother. rewrite extra_one.
    apply (dict_get_set_ne String.eqb String.eqb_eq). exact Hother.
  - destruct (iter_inv _ _ Hiter) as (cols & ordered & Hcols & _).
    destruct (Sql.parse_case (annotate_sql (dict_of Z.eqb items))) as [bs |] eqn:E.
    + right.
      destruct (iter_extra qs objs name _ cols bs Hiter Hcols E)
        as (ordered' & Hiter' & _ & Hpk).
      eexists. split; [exact Hiter' |].
      rewrite map_fetch_pk. apply Hpk. exact Hord.
    + left. unfold iter. rewrite extra_one.
      rewrite (compile_set_rejected _ cols _ _ Hcols E). reflexivity.
Qed.

Lemma annotate_property_keeps_order_witness :
  exists qs',
    annotate_property two_records (AStr "cost") None = OK qs' /\
    rows qs' = rows two_records /\
    ordering qs' = ordering two_records /\
    (forall other, other <> "cost_property" ->
        dict_get String.eqb other (extra_select qs')
        = dict_get String.eqb other (extra_select two_records)) /\
    (iter qs' = Err DatabaseError \/
     exists objs', iter qs' = OK objs' /\ map pk objs' = map pk [record_b; record_a]).
Proof.
  eexists. split; [reflexivity |].
  apply (annotate_property_keeps_order two_records _ (AStr "cost") None "cost_property").
  - reflexivity.
  - reflexivity.
  - discriminate.
  - reflexivity.
Defined.

Lemma getattr_setattr (obj : record) (name other : string) (v : value) :
  other <> "pk" ->
  getattr (setattr obj name v) other
  = if String.eqb other name then OK v else getattr obj other.
Proof.
  intros Hpk. unfold getattr, setattr. cbn [pk attrs].
  apply String.eqb_neq in Hpk. rewrite Hpk.
  destruct (String.eqb other name) eqn:E.
  - apply String.eqb_eq in E. subst.
    rewrite (dict_get_set_eq String.eqb String.eqb_eq). reflexivity.
  - apply String.eqb_neq in E.
    rewrite (dict_get_set_ne String.eqb String.eqb_eq) by exact E. reflexivity.
Qed.

(** A computed field reads as the value of its expression on the row. *)
Lemma getattr_fetch (cols : list (string * list (Z * value))) (row : record)
  (name : string) (bs : list (Z * value)) :
  name <> "pk" ->
  dict_get String.eqb name cols = Some bs ->
  getattr (fetch cols row) name = OK (Sql.eval_case bs (pk row)).
Proof.
  intros Hpk. induction cols as [| [n b] cols IH]; simpl; intros H; [discriminate |].
  rewrite getattr_setattr by exact Hpk.
  destruct (String.eqb name n).
  - inversion H. reflexivity.
  - apply IH. exact H.
Qed.

(** ** Stable sorting with a comparison that cannot fail *)

Section StableFacts.
Context {A : Type} (before : A -> A -> bool).

Lemma ins_perm (x : A) (l : list A) : Permutation (x :: l) (ins before x l).
Proof.
  induction l as [| y l IH]; simpl.
  - apply Permutation_refl.
  - destruct (before y x).
    + apply perm_trans with (y :: x :: l); [apply perm_swap |].
      apply perm_skip. exact IH.
    + apply Permutation_refl.
Qed.

Lemma stable_sort_perm (l : list A) : Permutation l (stable_sort before l).
Proof.
  induction l as [| x l IH]; simpl.
  - apply perm_nil.
  - apply perm_trans with (x :: stable_sort before l).
    + apply perm_skip. exact IH.
    + apply ins_perm.
Qed.

Lemma stable_sort_In (l : list A) (x : A) : In x (stable_sort before l) <-> In x l.
Proof.
  split; intros H.
  - exact (Permutation_in x (Permutation_sym (stable_sort_perm l)) H).
  - exact (Permutation_in x (stable_sort_perm l) H).
Qed.

Lemma sorted_by_perm (reverse : bool) (l : list A) :
  Permutation l (sorted_by before reverse l).
Proof.
  unfold sorted_by. destruct reverse; [| apply stable_sort_perm].
  apply perm_trans with (rev l); [apply Permutation_rev |].
  apply perm_trans with (stable_sort before (rev l)); [apply stable_sort_perm |].
  apply Permutation_rev.
Qed.

Lemma ins_ext (before' : A -> A -> bool) (x : A) (l : list A) :
  (forall y, In y l -> before y x = before' y x) ->
  ins before x l = ins before' x l.
Proof.
  induction l as [| y l IH]; simpl; intros H; [reflexivity |].
  rewrite <- (H y) by (left; reflexivity).
  rewrite IH by (intros; apply H; right; assumption). reflexivity.
Qed.

Lemma stable_sort_ext (before' : A -> A -> bool) (l : list A) :
  (forall x y, In x l -> In y l -> before y x = before' y x) ->
  stable_sort before l = stable_sort before' l.
Proof.
  induction l as [| x l IH]; simpl; intros H; [reflexivity |].
  rewrite <- IH by (intros; apply H; right; assumption).
  apply ins_ext. intros y Hy. apply (proj1 (stable_sort_In l y)) in Hy.
  apply H; [left; reflexivity | right; exact Hy].
Qed.

Lemma sorted_by_ext (before' : A -> A -> bool) (reverse : bool) (l : list A) :
  (forall x y, In x l -> In y l -> before y x = before' y x) ->
  sorted_by before reverse l = sorted_by before' reverse l.
Proof.
  intros H. unfold sorted_by. destruct reverse.
  - f_equal. apply stable_sort_ext. intros x y Hx Hy.
    apply H; apply in_rev; assumption.
  - apply stable_sort_ext. exact H.
Qed.
End StableFacts.

Lemma ins_map {A B : Type} (before : A -> A -> bool) (f : A -> B) (x : A) (l : list A) :
  ins (fun y' x' => before (snd y') (snd x')) (f x, x) (map (fun a => (f a, a)) l)
  = map (fun a => (f a, a)) (ins before x l).
Proof.
  induction l as [| y l IH]; simpl; [reflexivity |].
  destruct (before y x); simpl; [rewrite IH |]; reflexivity.
Qed.

Lemma stable_sort_map {A B : Type} (before : A -> A -> bool) (f : A -> B) (l : list A) :
  stable_sort (fun y' x' => before (snd y') (snd x')) (map (fun a => (f a, a)) l)
  = map (fun a => (f a, a)) (stable_sort before l).
Proof.
  induction l as [| x l IH]; simpl; [reflexivity |].
  rewrite IH. apply ins_map.
Qed.

(** [sorted] is the stable sort when every key is there and every
    comparison of two keys is defined. *)
Lemma insert_pure {A : Type} (before : value * A -> value * A -> bool)
  (x : value * A) (l : list (value * A)) :
  (forall y, In y l -> lt (fst y) (fst x) = OK (before y x)) ->
  insert x l = OK (ins before x l).
Proof.
  induction l as [| y l IH]; simpl; intros H; [reflexivity |].
  rewrite (H y) by (left; reflexivity). cbn [bind].
  destruct (before y x); [| reflexivity].
  rewrite IH by (intros; apply H; right; assumption). reflexivity.
Qed.

Lemma isort_pure {A : Type} (before : value * A -> value * A -> bool)
  (l : list (value * A)) :
  (forall x y, In x l -> In y l -> lt (fst y) (fst x) = OK (before y x)) ->
  isort l = OK (stable_sort before l).
Proof.
  induction l as [| x l IH]; simpl; intros H; [reflexivity |].
  rewrite IH by (intros; apply H; right; assumption). cbn [bind].
  apply insert_pure. intros y Hy. apply (proj1 (stable_sort_In before l y)) in Hy.
  apply H; [left; reflexivity | right; exact Hy].
Qed.

Lemma sorted_pure {A : Type} (key : A -> res value) (kf : A -> value)
  (before : A -> A -> bool) (reverse : bool) (l : list A) :
  (forall a, In a l -> key a = OK (kf a)) ->
  (forall x y, In x l -> In y l -> lt (kf y) (kf x) = OK (before y x)) ->
  sorted l key reverse = OK (sorted_by before reverse l).
Proof.
  intros Hkey Hlt. unfold sorted, decorate.
  rewrite (mapM_total _ (fun a => (kf a, a))).
  2:{ intros a Ha. rewrite (Hkey a Ha). reflexivity. }
  cbn [bind]. unfold sorted_by. destruct reverse.
  - rewrite <- map_rev.
    rewrite (isort_pure (fun y' x' => before (snd y') (snd x'))).
    + cbn [bind]. rewrite stable_sort_map. rewrite map_rev.
      rewrite map_map. simpl. rewrite map_id. reflexivity.
    + intros x y Hx Hy. apply in_map_iff in Hx. destruct Hx as (x0 & <- & Hx).
      apply in_map_iff in Hy. destruct Hy as (y0 & <- & Hy). simpl.
      apply Hlt; apply in_rev; assumption.
  - rewrite (isort_pure (fun y' x' => before (snd y') (snd x'))).
    + cbn [bind]. rewrite stable_sort_map.
      rewrite map_map. simpl. rewrite map_id. reflexivity.
    + intros x y Hx Hy. apply in_map_iff in Hx. destruct Hx as (x0 & <- & Hx).
      apply in_map_iff in Hy. destruct Hy as (y0 & <- & Hy). simpl.
      apply Hlt; assumption.
Qed.

(** ** Two stable passes sort lexicographically *)

Section TwoPasses.
Context {A : Type} (lt1 lt2 : A -> A -> bool) (P : A -> Prop).

Hypothesis asym1 : forall x y, P x -> P y -> lt1 x y = true -> lt1 y x = false.
Hypothesis weak1 :
  forall x y z, P x -> P y -> P z -> lt1 x z = true -> lt1 x y = true \/ lt1 y z = true.
Hypothesis asym2 : forall x y, P x -> P y -> lt2 x y = true -> lt2 y x = false.
Hypothesis weak2 :
  forall x y z, P x -> P y -> P z -> lt2 x z = true -> lt2 x y = true \/ lt2 y z = true.

Lemma ins_agree (x : A) (t : list A) :
  (forall z, In z t -> lt2 z x = false) ->
  ins lt1 x t = ins (lex lt1 lt2) x t.
Proof.
  intros H. apply ins_ext. intros z Hz. unfold lex.
  rewrite (H z Hz). rewrite andb_false_r, orb_false_r. reflexivity.
Qed.

Lemma lex_after (x y : A) :
  P x -> P y -> lt2 y x = true -> lex lt1 lt2 y x = negb (lt1 x y).
Proof.
  intros Hx Hy H. unfold lex. rewrite H, andb_true_r.
  destruct (lt1 x y) eqn:E; simpl.
  - rewrite (asym1 x y Hx Hy E). reflexivity.
  - apply orb_true_r.
Qed.

Lemma ins_commute (x y : A) (t : list A) :
  P x -> P y -> Forall P t -> lt2 y x = true ->
  ins lt1 y (ins (lex lt1 lt2) x t) = ins (lex lt1 lt2) x (ins lt1 y t).
Proof.
  intros Hx Hy Ht Hyx.
  pose proof (lex_after x y Hx Hy Hyx) as Hlex.
  induction Ht as [| z t Hz Ht IH]; cbn [ins].
  - rewrite Hlex. destruct (lt1 x y); reflexivity.
  - destruct (lex lt1 lt2 z x) eqn:Ezx; destruct (lt1 z y) eqn:Ezy; cbn [ins];
      rewrite ?Ezx, ?Ezy.
    + rewrite IH. reflexivity.
    + assert (E : lt1 x y = false).
      { destruct (lt1 x y) eqn:E; [| reflexivity].
        destruct (weak1 x z y Hx Hz Hy E) as [H | H]; [| congruence].
        unfold lex in Ezx. rewrite H in Ezx.
        rewrite (asym1 x z Hx Hz H) in Ezx. discriminate. }
      repeat (cbn [negb ins]; rewrite ?Hlex, ?E, ?Ezx, ?Ezy). reflexivity.
    + assert (E : lt1 x y = true).
      { destruct (weak1 z x y Hz Hx Hy Ezy) as [H | H]; [| exact H].
        unfold lex in Ezx. rewrite H in Ezx. discriminate. }
      repeat (cbn [negb ins]; rewrite ?Hlex, ?E, ?Ezx, ?Ezy). reflexivity.
    + destruct (lt1 x y) eqn:E;
        repeat (cbn [negb ins]; rewrite ?Hlex, ?E, ?Ezx, ?Ezy); reflexivity.
Qed.

Lemma ins_sorted2 (x : A) (s : list A) :
  P x -> Forall P s ->
  StronglySorted (fun u v => lt2 v u = false) s ->
  StronglySorted (fun u v => lt2 v u = false) (ins lt2 x s).
Proof.
  intros Hx Hs Hsorted. induction Hsorted as [| y s Hsorted IH Hy]; simpl.
  - constructor; constructor.
  - inversion Hs as [| ? ? HPy Hs']; subst.
    destruct (lt2 y x) eqn:E.
    + constructor; [apply IH; exact Hs' |].
      apply (Permutation_Forall (ins_perm lt2 x s)).
      constructor; [apply asym2; assumption | exact Hy].
    + constructor; [constructor; assumption |].
      constructor; [exact E |].
      rewrite Forall_forall in *. intros v Hv.
      destruct (lt2 v x) eqn:Evx; [| reflexivity].
      destruct (weak2 v y x (Hs' v Hv) HPy Hx Evx) as [H | H].
      * rewrite (Hy v Hv) in H. discriminate.
      * congruence.
Qed.

Lemma stable_sort_sorted2 (l : list A) :
  Forall P l -> StronglySorted (fun u v => lt2 v u = false) (stable_sort lt2 l).
Proof.
  induction 1 as [| x l Hx Hl IH]; simpl.
  - constructor.
  - apply ins_sorted2; [exact Hx | | exact IH].
    apply (Permutation_Forall (stable_sort_perm lt2 l)). exact Hl.
Qed.

Lemma second_pass_ins (x : A) (s : list A) :
  P x -> Forall P s ->
  StronglySorted (fun u v => lt2 v u = false) s ->
  stable_sort lt1 (ins lt2 x s) = ins (lex lt1 lt2) x (stable_sort lt1 s).
Proof.
  intros Hx Hs Hsorted. induction Hsorted as [| y s Hsorted IH Hy]; simpl.
  - reflexivity.
  - inversion Hs as [| ? ? HPy Hs']; subst.
    destruct (lt2 y x) eqn:E; simpl.
    + rewrite IH by exact Hs'. apply ins_commute; try assumption.
      apply (Permutation_Forall (stable_sort_perm lt1 s)). exact Hs'.
    + apply ins_agree. intros z Hz.
      apply (Permutation_in z (Permutation_sym (ins_perm lt1 y (stable_sort lt1 s)))) in Hz.
      destruct Hz as [<- | Hz]; [exact E |].
      apply (proj1 (stable_sort_In lt1 s z)) in Hz.
      rewrite Forall_forall in *.
      destruct (lt2 z x) eqn:Ezx; [| reflexivity].
      destruct (weak2 z y x (Hs' z Hz) HPy Hx Ezx) as [H | H].
      * rewrite (Hy z Hz) in H. discriminate.
      * congruence.
Qed.

(** Sorting by the second comparison, then by the first, is sorting by
    the first with its ties decided by the second. *)
Lemma two_passes (l : list A) :
  Forall P l ->
  stable_sort lt1 (stable_sort lt2 l) = stable_sort (lex lt1 lt2) l.
Proof.
  induction 1 as [| x l Hx Hl IH]; simpl.
  - reflexivity.
  - rewrite second_pass_ins.
    + rewrite IH. reflexivity.
    + exact Hx.
    + apply (Permutation_Forall (stable_sort_perm lt2 l)). exact Hl.
    + apply stable_sort_sorted2. exact Hl.
Qed.

Lemma two_passes_sorted_by (reverse : bool) (l : list A) :
  Forall P l ->
  sorted_by lt1 reverse (sorted_by lt2 reverse l) = sorted_by (lex lt1 lt2) reverse l.
Proof.
  intros Hl. unfold sorted_by. destruct reverse.
  - rewrite rev_involutive. rewrite two_passes; [reflexivity |].
    apply (Permutation_Forall (Permutation_rev l)). exact Hl.
  - apply two_passes. exact Hl.
Qed.
End TwoPasses.

Section LexOrder.
Context {A : Type} (lt1 lt2 : A -> A -> bool) (P : A -> Prop).

Hypothesis asym1 : forall x y, P x -> P y -> lt1 x y = true -> lt1 y x = false.
Hypothesis weak1 :
  forall x y z, P x -> P y -> P z -> lt1 x z = true -> lt1 x y = true \/ lt1 y z = true.
Hypothesis asym2 : forall x y, P x -> P y -> lt2 x y = true -> lt2 y x = false.
Hypothesis weak2 :
  forall x y z, P x -> P y -> P z -> lt2 x z = true -> lt2 x y = true \/ lt2 y z = true.

Lemma lex_asym (x y : A) :
  P x -> P y -> lex lt1 lt2 x y = true -> lex lt1 lt2 y x = false.
Proof.
  intros Hx Hy. unfold lex.
  destruct (lt1 x y) eqn:E1; destruct (lt1 y x) eqn:E2; simpl; try congruence.
  - rewrite (asym1 x y Hx Hy E1) in E2. discriminate.
  - intros H. apply asym2; assumption.
Qed.

Lemma lex_weak (x y z : A) :
  P x -> P y -> P z ->
  lex lt1 lt2 x z = true -> lex lt1 lt2 x y = true \/ lex lt1 lt2 y z = true.
Proof.
  intros Hx Hy Hz. unfold lex. intros H.
  destruct (lt1 x y) eqn:Exy; [left; reflexivity |].
  destruct (lt1 y z) eqn:Eyz; [right; reflexivity |].
  simpl. destruct (lt1 x z) eqn:Exz.
  - destruct (weak1 x y z Hx Hy Hz Exz); congruence.
  - simpl in H. apply andb_true_iff in H. destruct H as [Hzx H2].
    apply negb_true_iff in Hzx.
    destruct (lt1 y x) eqn:Eyx.
    + destruct (weak1 y z x Hy Hz Hx Eyx); congruence.
    + destruct (lt1 z y) eqn:Ezy.
      * destruct (weak1 z x y Hz Hx Hy Ezy); congruence.
      * simpl. apply weak2; assumption.
Qed.

(** The stable sort by [lex] leaves no item after one it goes before. *)
Lemma stable_sort_lex_sorted (l : list A) :
  Forall P l ->
  StronglySorted (fun u v => lex lt1 lt2 v u = false) (stable_sort (lex lt1 lt2) l).
Proof.
  apply (stable_sort_sorted2 (lex lt1 lt2) P).
  - intros x y Hx Hy. apply lex_asym; assumption.
  - intros x y z Hx Hy Hz. apply lex_weak; assumption.
Qed.
End LexOrder.

(** ** [sorted] is a stable sort *)

Section StableOrder.
Context {A : Type} (before : A -> A -> bool) (P : A -> Prop).

Hypothesis asym : forall x y, P x -> P y -> before x y = true -> before y x = false.
Hypothesis weak :
  forall x y z, P x -> P y -> P z ->
    before x z = true -> before x y = true \/ before y z = true.

Lemma stable_sort_ascending (l : list A) :
  Forall P l -> StronglySorted (fun u v => before v u = false) (stable_sort before l).
Proof. apply (stable_sort_sorted2 before P); assumption. Qed.

Lemma ins_tied (z x : A) (s : list A) :
  P z -> P x -> Forall P s ->
  filter (tied before z) (ins before x s)
  = if tied before z x then x :: filter (tied before z) s
    else filter (tied before z) s.
Proof.
  intros Hz Hx Hs. induction Hs as [| y s Hy Hs IH]; cbn [ins filter].
  - reflexivity.
  - destruct (before y x) eqn:E; cbn [filter]; [| reflexivity].
    rewrite IH.
    destruct (tied before z x) eqn:Tx; destruct (tied before z y) eqn:Ty;
      try reflexivity.
    exfalso. unfold tied in Tx, Ty.
    apply andb_true_iff in Tx. destruct Tx as [_ Tx]. apply negb_true_iff in Tx.
    apply andb_true_iff in Ty. destruct Ty as [Ty _]. apply negb_true_iff in Ty.
    destruct (weak y z x Hy Hz Hx E); congruence.
Qed.

(** The items tied with a given one keep the order they had. *)
Lemma stable_sort_stable (z : A) (l : list A) :
  P z -> Forall P l ->
  filter (tied before z) (stable_sort before l) = filter (tied before z) l.
Proof.
  intros Hz Hl. induction Hl as [| x l Hx Hl IH]; cbn [stable_sort fold_right filter].
  - reflexivity.
  - change (fold_right (ins before) [] l) with (stable_sort before l).
    rewrite ins_tied; try assumption.
    + rewrite IH. reflexivity.
    + apply (Permutation_Forall (stable_sort_perm before l)). exact Hl.
Qed.
End StableOrder.

(** ** Tuple keys *)

Lemma totally_ordered_triple (vs : list value) (x y z : value) :
  totally_ordered vs = true ->
  In x vs -> In y vs -> In z vs -> ordered_triple x y z = true.
Proof.
  unfold totally_ordered. intros H Hx Hy Hz.
  rewrite forallb_forall in H. specialize (H x Hx).
  rewrite forallb_forall in H. specialize (H y Hy).
  rewrite forallb_forall in H. exact (H z Hz).
Qed.

Lemma ordered_triple_inv (x y z : value) :
  ordered_triple x y z = true ->
  lt x y = OK (ltb x y) /\
  (ltb x y = true -> ltb y x = false) /\
  eq x y = negb (ltb x y) && negb (ltb y x) /\
  (ltb x z = true -> ltb x y = true \/ ltb y z = true).
Proof.
  unfold ordered_triple.
  assert (Hxy : forall b, lt x y = OK b -> ltb x y = b)
    by (intros b E; unfold ltb; rewrite E; destruct b; reflexivity).
  assert (Hyx : forall b, lt y x = OK b -> ltb y x = b)
    by (intros b E; unfold ltb; rewrite E; destruct b; reflexivity).
  destruct (lt x y) as [xy | e] eqn:Exy; [| discriminate].
  destruct (lt y x) as [yx | e] eqn:Eyx; [| discriminate].
  rewrite (Hxy xy Logic.eq_refl), (Hyx yx Logic.eq_refl).
  intros H. apply andb_true_iff in H. destruct H as [H H3].
  apply andb_true_iff in H. destruct H as [H1 H2].
  apply Bool.eqb_prop in H2.
  split; [reflexivity |]. split; [| split; [exact H2 |]].
  - intros ->. destruct yx; [discriminate | reflexivity].
  - intros Hxz. rewrite Hxz in H3. simpl in H3.
    apply orb_true_iff in H3. exact H3.
Qed.

Lemma mapM_attr (name : string) (objs : list record) (vs : list value) :
  mapM (fun obj => getattr obj name) objs = OK vs ->
  vs = map (attr_value name) objs /\
  (forall obj, In obj objs -> getattr obj name = OK (attr_value name obj)).
Proof.
  revert vs. induction objs as [| o objs IH]; simpl; intros vs H.
  - inversion H. split; [reflexivity | contradiction].
  - inv_bind H. inv_bind H. inversion H; subst.
    destruct (IH a0 Ha0) as (-> & Hall).
    assert (E : attr_value name o = a) by (unfold attr_value; rewrite Ha; reflexivity).
    split; [rewrite E; reflexivity |].
    intros obj [<- | Hin]; [rewrite E; exact Ha | apply Hall; exact Hin].
Qed.

(** The facts [totally_ordered] gives on the records, for one attribute. *)
Lemma by_attr_order (name : string) (objs : list record) (vs : list value) :
  mapM (fun obj => getattr obj name) objs = OK vs ->
  totally_ordered vs = true ->
  (forall x y, In x objs -> In y objs ->
     lt (attr_value name y) (attr_value name x) = OK (by_attr name y x)) /\
  (forall x y, In x objs -> In y objs ->
     by_attr name x y = true -> by_attr name y x = false) /\
  (forall x y, In x objs -> In y objs ->
     eq (attr_value name y) (attr_value name x)
     = negb (by_attr name y x) && negb (by_attr name x y)) /\
  (forall x y z, In x objs -> In y objs -> In z objs ->
     by_attr name x z = true -> by_attr name x y = true \/ by_attr name y z = true).
Proof.
  intros Hvs Htot. destruct (mapM_attr _ _ _ Hvs) as (-> & _).
  assert (Hin : forall o, In o objs -> In (attr_value name o) (map (attr_value name) objs))
    by (intros; apply in_map; assumption).
  assert (T : forall x y z, In x objs -> In y objs -> In z objs ->
                ordered_triple (attr_value name x) (attr_value name y) (attr_value name z)
                = true).
  { intros x y z Hx Hy Hz. apply (totally_ordered_triple _ _ _ _ Htot); apply Hin; assumption. }
  unfold by_attr. repeat split.
  - intros x y Hx Hy. apply (ordered_triple_inv _ _ _ (T y x x Hy Hx Hx)).
  - intros x y Hx Hy. apply (ordered_triple_inv _ _ _ (T x y y Hx Hy Hy)).
  - intros x y Hx Hy. apply (ordered_triple_inv _ _ _ (T y x x Hy Hx Hx)).
  - intros x y z Hx Hy Hz. apply (ordered_triple_inv _ _ _ (T x y z Hx Hy Hz)).
Qed.

Lemma lt_pair (a b a' b' : value) :
  lt (VTuple [a; b]) (VTuple [a'; b'])
  = if eq a a' then (if eq b b' then OK false else lt b b') else lt a a'.
Proof. reflexivity. Qed.

(** In memory: sorting by the tuple of two attributes is sorting by the
    second, then by the first; the result is in lexicographic order. *)
Lemma sorted_pair (a b : string) (reverse : bool) (objs : list record)
  (vas vbs : list value) (k : record -> res value) :
  mapM (fun obj => getattr obj a) objs = OK vas -> totally_ordered vas = true ->
  mapM (fun obj => getattr obj b) objs = OK vbs -> totally_ordered vbs = true ->
  normalize (KTuple [a; b]) = OK k ->
  sorted objs (fun obj => getattr obj b) reverse
  = OK (sorted_by (by_attr b) reverse objs) /\
  sorted (sorted_by (by_attr b) reverse objs) (fun obj => getattr obj a) reverse
  = OK (sorted_by (lex (by_attr a) (by_attr b)) reverse objs) /\
  sorted objs k reverse = OK (sorted_by (lex (by_attr a) (by_attr b)) reverse objs) /\
  StronglySorted (fun u v => lex (by_attr a) (by_attr b) v u = false)
    (sorted_by (lex (by_attr a) (by_attr b)) false objs).
Proof.
  intros Hvas Hta Hvbs Htb Hk.
  destruct (by_attr_order a objs vas Hvas Hta) as (La & Aa & Ea & Wa).
  destruct (by_attr_order b objs vbs Hvbs Htb) as (Lb & Ab & Eb & Wb).
  destruct (mapM_attr _ _ _ Hvas) as (_ & Ga).
  destruct (mapM_attr _ _ _ Hvbs) as (_ & Gb).
  assert (Hinb : forall o, In o (sorted_by (by_attr b) reverse objs) -> In o objs).
  { intros o Ho.
    exact (Permutation_in o (Permutation_sym (sorted_by_perm (by_attr b) reverse objs)) Ho). }
  assert (Hall : Forall (fun o => In o objs) objs)
    by (apply Forall_forall; intros o Ho; exact Ho).
  split; [| split; [| split]].
  - apply (sorted_pure _ (attr_value b)); assumption.
  - rewrite <- (two_passes_sorted_by (by_attr a) (by_attr b) (fun o => In o objs));
      try assumption.
    apply (sorted_pure _ (attr_value a)).
    + intros o Ho. apply Ga, Hinb, Ho.
    + intros x y Hx Hy. apply La; apply Hinb; assumption.
  - simpl in Hk. inversion Hk; subst k.
    apply (sorted_pure _ (fun o => VTuple [attr_value a o; attr_value b o])).
    + intros o Ho. simpl. rewrite (Ga o Ho). cbn [bind].
      rewrite (Gb o Ho). reflexivity.
    + intros x y Hx Hy. rewrite lt_pair. unfold lex.
      rewrite (Ea x y Hx Hy), (Eb x y Hx Hy), (La x y Hx Hy), (Lb x y Hx Hy).
      destruct (by_attr a y x) eqn:E1; destruct (by_attr a x y) eqn:E2;
        destruct (by_attr b y x) eqn:E3; destruct (by_attr b x y) eqn:E4;
        reflexivity.
  - apply (stable_sort_lex_sorted (by_attr a) (by_attr b) (fun o => In o objs));
      assumption.
Qed.

(** ** Integers and strings are totally ordered *)

Lemma ordered_triple_int (x y z : Z) :
  ordered_triple (VInt x) (VInt y) (VInt z) = true.
Proof.
  unfold ordered_triple, ltb. simpl.
  destruct (Z.ltb_spec x y); destruct (Z.ltb_spec y x); destruct (Z.eqb_spec x y);
    destruct (Z.ltb_spec x z); destruct (Z.ltb_spec y z); simpl; try reflexivity; lia.
Qed.

Lemma string_compare_refl (s : string) : String.compare s s = Eq.
Proof.
  induction s as [| c s IH]; simpl; [reflexivity |].
  unfold Ascii.compare. rewrite N.compare_refl. exact IH.
Qed.

Lemma string_compare_weak (x y z : string) :
  String.compare x z = Lt -> String.compare x y = Lt \/ String.compare y z = Lt.
Proof.
  revert y z. induction x as [| c x IH]; intros y z H.
  - destruct z; [discriminate |]. destruct y; [right | left]; reflexivity.
  - destruct z as [| e z]; [discriminate |].
    destruct y as [| d y]; [right; reflexivity |].
    simpl in *. unfold Ascii.compare in *.
    destruct (N.compare_spec (N_of_ascii c) (N_of_ascii e)) as [Hce | Hce | Hce];
      try discriminate;
      destruct (N.compare_spec (N_of_ascii c) (N_of_ascii d)) as [Hcd | Hcd | Hcd];
      destruct (N.compare_spec (N_of_ascii d) (N_of_ascii e)) as [Hde | Hde | Hde];
      try (left; reflexivity); try (right; reflexivity); try lia.
    apply IH. exact H.
Qed.

Lemma ordered_triple_str (x y z : string) :
  ordered_triple (VStr x) (VStr y) (VStr z) = true.
Proof.
  unfold ordered_triple, ltb. simpl. unfold String.ltb.
  pose proof (String.compare_antisym x y) as Hanti.
  pose proof (string_compare_weak x y z) as Hweak.
  destruct (String.eqb_spec x y) as [-> | Hne].
  - rewrite string_compare_refl in *. simpl.
    destruct (String.compare y z); reflexivity.
  - destruct (String.compare x y) eqn:Exy.
    + apply String.compare_eq_iff in Exy. contradiction.
    + destruct (String.compare y x); try discriminate. simpl.
      destruct (String.compare x z); reflexivity.
    + destruct (String.compare y x); try discriminate. simpl.
      destruct (String.compare x z) eqn:Exz; try reflexivity.
      destruct (Hweak Logic.eq_refl) as [H | H]; [discriminate |].
      rewrite H. reflexivity.
Qed.

Lemma totally_ordered_by (vs : list value) :
  (forall x y z, In x vs -> In y vs -> In z vs -> ordered_triple x y z = true) ->
  totally_ordered vs = true.
Proof.
  intros H. unfold totally_ordered.
  apply forallb_forall. intros x Hx.
  apply forallb_forall. intros y Hy.
  apply forallb_forall. intros z Hz. apply H; assumption.
Qed.

(** [<] is a total order on any integers, and on any strings. *)
Lemma totally_ordered_ints (zs : list Z) : totally_ordered (map VInt zs) = true.
Proof.
  apply totally_ordered_by. intros x y z Hx Hy Hz.
  apply in_map_iff in Hx. destruct Hx as (x' & <- & _).
  apply in_map_iff in Hy. destruct Hy as (y' & <- & _).
  apply in_map_iff in Hz. destruct Hz as (z' & <- & _).
  apply ordered_triple_int.
Qed.

Lemma totally_ordered_strs (ss : list string) : totally_ordered (map VStr ss) = true.
Proof.
  apply totally_ordered_by. intros x y z Hx Hy Hz.
  apply in_map_iff in Hx. destruct Hx as (x' & <- & _).
  apply in_map_iff in Hy. destruct Hy as (y' & <- & _).
  apply in_map_iff in Hz. destruct Hz as (z' & <- & _).
  apply ordered_triple_str.
Qed.

(** ** Plain strings as text *)

Lemma plain_char_inv (c : ascii) :
  plain_char c = true ->
  repr_char squote c = String c "" /\
  Ascii.eqb c "%" = false /\ Ascii.eqb c "'" = false.
Proof.
  destruct c as [[] [] [] [] [] [] [] []]; vm_compute; intros H;
    try discriminate; repeat split.
Qed.

Lemma plain_no_quote (s : string) : plain s = true -> contains squote s = false.
Proof.
  induction s as [| c s IH]; cbn [plain contains]; intros H; [reflexivity |].
  apply andb_true_iff in H. destruct H as [Hc Hs].
  destruct (plain_char_inv c Hc) as (_ & _ & Hq).
  rewrite Ascii.eqb_sym in Hq. change squote with "'"%char.
  rewrite Hq. apply IH. exact Hs.
Qed.

Lemma plain_repr_chars (s : string) : plain s = true -> repr_chars squote s = s.
Proof.
  induction s as [| c s IH]; simpl; intros H; [reflexivity |].
  apply andb_true_iff in H. destruct H as [Hc Hs].
  destruct (plain_char_inv c Hc) as (-> & _). rewrite IH by exact Hs. reflexivity.
Qed.

Lemma lex_text (s acc : string) :
  plain s = true ->
  Sql.lex (Sql.InText acc) (s ++ "'") = Some [Sql.TText (acc ++ s)].
Proof.
  revert acc. induction s as [| c s IH]; simpl; intros acc H.
  - rewrite append_nil_r. reflexivity.
  - apply andb_true_iff in H. destruct H as [Hc Hs].
    destruct (plain_char_inv c Hc) as (_ & -> & ->).
    rewrite IH by exact Hs. unfold Sql.snoc. rewrite append_assoc. reflexivity.
Qed.

(** The [repr] of a plain string is a literal that denotes the string. *)
Lemma read_literal_plain (s : string) :
  plain s = true -> Sql.read_literal (repr (VStr s)) = Some (VStr s).
Proof.
  intros H. unfold Sql.read_literal. simpl. unfold repr_str.
  rewrite (plain_no_quote s H). simpl.
  rewrite (plain_repr_chars s H).
  change (String squote "") with "'"%string.
  rewrite lex_text by exact H. reflexivity.
Qed.

(** ** Values and names that come back *)

Lemma storable_literal (v : value) :
  storable v = true -> Sql.read_literal (repr v) = Some v.
Proof.
  destruct v as [| z | s | items]; simpl; try discriminate; intros H.
  - apply read_literal_int.
  - apply (read_literal_plain s H).
Qed.

Lemma mapM_values {A : Type} (k : A -> res value) (l : list A) (vs : list value) :
  mapM k l = OK vs ->
  forallb storable vs = true ->
  forall a, In a l -> exists v, k a = OK v /\ Sql.read_literal (repr v) = Some v.
Proof.
  intros H Hs. apply mapM_OK_Forall2 in H.
  induction H as [| a v l vs Hav _ IH]; intros b Hb; [contradiction |].
  simpl in Hs. apply andb_true_iff in Hs. destruct Hs as [Hv Hvs].
  destruct Hb as [<- | Hb].
  - exists v. split; [exact Hav | apply storable_literal; exact Hv].
  - apply IH; assumption.
Qed.

Lemma storable_values {A : Type} (k : A -> res value) (l : list A) :
  (forall a, In a l -> exists v, k a = OK v /\ storable v = true) ->
  forall a, In a l -> exists v, k a = OK v /\ Sql.read_literal (repr v) = Some v.
Proof.
  intros H a Ha. destruct (H a Ha) as (v & Hv & Hs).
  exists v. split; [exact Hv | apply storable_literal; exact Hs].
Qed.

Lemma field_name_not_pk (name : string) : field_name name = true -> name <> "pk".
Proof. intros H E. subst name. discriminate H. Qed.

(** ** One branch per identifier, in the text *)

(** C7. The expression either method adds to the collection is the text
    [CASE], then one [WHEN id = <identifier> THEN <value>] per entry of
    its mapping, a space between two of them, then [END]; [sort] writes
    the rank as the value, [annotate_property] the [repr] of the
    computed value.  The identifiers of the branches are distinct and
    are exactly the identifiers of the records the collection iterates
    to.  The database reads the text of [sort] as these branches, and on
    a non-empty collection the text of [annotate_property] too when the
    values are integers below [2 ^ 63] in absolute value and plain
    strings.  The expression is a function of the records and of the
    arguments alone: a second call, on any collection that iterates to
    the same records, writes the same text. *)
Theorem one_branch_per_identifier :
  forall (qs : QuerySet) (objs : list record),
    iter qs = OK objs ->
    (forall key reverse qs',
        objs <> [] ->
        sort qs key reverse = OK qs' ->
        exists (m : list (Z * nat)) (text : string),
          dict_get String.eqb "sort_order" (extra_select qs') = Some text /\
          text = ("CASE "
                  ++ join " " (map (fun item => "WHEN id = " ++ str_int (fst item)
                                                ++ " THEN " ++ str_int (Z.of_nat (snd item)))
                                   m)
                  ++ " END")%string /\
          NoDup (map fst m) /\
          (forall id, In id (map fst m) <-> In id (map pk objs)) /\
          Sql.parse_case text
          = Some (map (fun item => (fst item, VInt (Z.of_nat (snd item)))) m) /\
          (forall qs2 qs2',
              iter qs2 = OK objs ->
              sort qs2 key reverse = OK qs2' ->
              dict_get String.eqb "sort_order" (extra_select qs2') = Some text)) /\
    (forall annotation property_name qs',
        annotate_property qs annotation property_name = OK qs' ->
        exists (name : string) (m : list (Z * value)) (text : string),
          output_name annotation property_name = OK name /\
          dict_get String.eqb name (extra_select qs') = Some text /\
          text = ("CASE "
                  ++ join " " (map (fun item => "WHEN id = " ++ str_int (fst item)
                                                ++ " THEN " ++ repr (snd item))
                                   m)
                  ++ " END")%string /\
          NoDup (map fst m) /\
          (forall id, In id (map fst m) <-> In id (map pk objs)) /\
          (objs <> [] ->
           (forall item, In item m -> storable (snd item) = true) ->
           Sql.parse_case text = Some m) /\
          (forall qs2 qs2',
              iter qs2 = OK objs ->
              annotate_property qs2 annotation property_name = OK qs2' ->
              dict_get String.eqb name (extra_select qs2') = Some text)).
Proof.
  intros qs objs Hiter. split.
  - intros key reverse qs' Hne Hsort.
    destruct (sort_inv _ _ _ _ _ Hiter Hne Hsort) as (k & l & Hk & Hl & Hnel & ->).
    exists (order_mapping l), (sort_sql l).
    split; [| split; [reflexivity | split; [| split; [| split]]]].
    + cbn [order_by extra_select]. rewrite extra_one.
      apply (dict_get_set_eq String.eqb String.eqb_eq).
    + apply dict_of_NoDup. exact Z.eqb_eq.
    + intros id. rewrite order_mapping_ids.
      pose proof (Permutation_map pk (sorted_perm _ _ _ _ Hl)) as Hp.
      split; intros H.
      * exact (Permutation_in id (Permutation_sym Hp) H).
      * exact (Permutation_in id Hp H).
    + rewrite (parse_sort_sql_any l Hnel). rewrite map_map. reflexivity.
    + intros qs2 qs2' Hiter2 Hsort2.
      destruct (sort_inv _ _ _ _ _ Hiter2 Hne Hsort2) as (k2 & l2 & Hk2 & Hl2 & _ & ->).
      rewrite Hk in Hk2. inversion Hk2; subst k2.
      rewrite Hl in Hl2. inversion Hl2; subst l2.
      cbn [order_by extra_select]. rewrite extra_one.
      apply (dict_get_set_eq String.eqb String.eqb_eq).
  - intros annotation property_name qs' Hann.
    destruct (annotate_property_inv _ _ _ _ _ Hiter Hann)
      as (name & k & items & Hname & Hk & Hitems & ->).
    exists name, (dict_of Z.eqb items), (annotate_sql (dict_of Z.eqb items)).
    split; [exact Hname |].
    split; [| split; [reflexivity | split; [| split; [| split]]]].
    + rewrite extra_one. apply (dict_get_set_eq String.eqb String.eqb_eq).
    + apply dict_of_NoDup. exact Z.eqb_eq.
    + intros id. rewrite (dict_of_keys Z.eqb Z.eqb_eq).
      rewrite (value_items_ids _ _ _ Hitems). tauto.
    + intros Hne Hlit. rewrite annotate_sql_branches. rewrite parse_case_sql.
      * rewrite repr_branch_value. reflexivity.
      * apply Forall_forall. intros b Hb. apply in_map_iff in Hb.
        destruct Hb as (item & <- & Hitem).
        apply storable_literal. apply (Hlit item Hitem).
      * intros H. apply map_eq_nil in H.
        destruct objs as [| o objs]; [congruence |].
        assert (Hin : In (pk o) (map fst (dict_of Z.eqb items))).
        { rewrite (dict_of_keys Z.eqb Z.eqb_eq).
          rewrite (value_items_ids _ _ _ Hitems). left. reflexivity. }
        rewrite H in Hin. contradiction.
    + intros qs2 qs2' Hiter2 Hann2.
      destruct (annotate_property_inv _ _ _ _ _ Hiter2 Hann2)
        as (name2 & k2 & items2 & Hname2 & Hk2 & Hitems2 & ->).
      rewrite Hname in Hname2. inversion Hname2; subst name2.
      rewrite Hk in Hk2. inversion Hk2; subst k2.
      rewrite Hitems in Hitems2. inversion Hitems2; subst items2.
      rewrite extra_one. apply (dict_get_set_eq String.eqb String.eqb_eq).
Qed.

Lemma one_branch_per_identifier_witness :
  (forall key reverse qs',
      [record_b; record_a] <> [] ->
      sort two_records key reverse = OK qs' ->
      exists (m : list (Z * nat)) (text : string),
        dict_get String.eqb "sort_order" (extra_select qs') = Some text /\
        text = ("CASE "
                ++ join " " (map (fun item => "WHEN id = " ++ str_int (fst item)
                                              ++ " THEN " ++ str_int (Z.of_nat (snd item)))
                                 m)
                ++ " END")%string /\
        NoDup (map fst m) /\
        (forall id, In id (map fst m) <-> In id (map pk [record_b; record_a])) /\
        Sql.parse_case text
        = Some (map (fun item => (fst item, VInt (Z.of_nat (snd item)))) m) /\
        (forall qs2 qs2',
            iter qs2 = OK [record_b; record_a] ->
            sort qs2 key reverse = OK qs2' ->
            dict_get String.eqb "sort_order" (extra_select qs2') = Some text)) /\
  (forall annotation property_name qs',
      annotate_property two_records annotation property_name = OK qs' ->
      exists (name : string) (m : list (Z * value)) (text : string),
        output_name annotation property_name = OK name /\
        dict_get String.eqb name (extra_select qs') = Some text /\
        text = ("CASE "
                ++ join " " (map (fun item => "WHEN id = " ++ str_int (fst item)
                                              ++ " THEN " ++ repr (snd item))
                                 m)
                ++ " END")%string /\
        NoDup (map fst m) /\
        (forall id, In id (map fst m) <-> In id (map pk [record_b; record_a])) /\
        ([record_b; record_a] <> [] ->
         (forall item, In item m -> storable (snd item) = true) ->
         Sql.parse_case text = Some m) /\
        (forall qs2 qs2',
            iter qs2 = OK [record_b; record_a] ->
            annotate_property qs2 annotation property_name = OK qs2' ->
            dict_get String.eqb name (extra_select qs2') = Some text)).
Proof. apply (one_branch_per_identifier two_records). reflexivity. Defined.

(** The two expressions on the records of the scenario, as they are written. *)
Example scenario_expressions :
  (qs' <- sort two_records (KStr "name") false ;;
   OK (dict_get String.eqb "sort_order" (extra_select qs')))
  = OK (Some "CASE WHEN id = 2 THEN 0 WHEN id = 1 THEN 1 END") /\
  (qs' <- annotate_property two_records (AStr "name") None ;;
   OK (dict_get String.eqb "name_property" (extra_select qs')))
  = OK (Some "CASE WHEN id = 1 THEN 'b' WHEN id = 2 THEN 'a' END").
Proof. split; reflexivity. Qed.

(** ** The round trip of a computed value *)




(** ** The scenarios of the specification *)

(** Section 8: records [{pk: 1, name: b}] and [{pk: 2, name: a}] sorted
    by [name] iterate as [pk 2, pk 1]; with [reverse], as [pk 1, pk 2]. *)
Example scenario_sort_by_name :
  (qs' <- sort two_records (KStr "name") false ;;
   objs <- iter qs' ;; OK (map pk objs)) = OK [2; 1]%Z /\
  (qs' <- sort two_records (KStr "name") true ;;
   objs <- iter qs' ;; OK (map pk objs)) = OK [1; 2]%Z.
Proof. split; reflexivity. Qed.

(** The expression [sort] writes for the three records, by [cost] then [name]. *)
Example scenario_sort_sql :
  (qs' <- sort three_records (KTuple ["cost"; "name"]) false ;;
   OK (extra_select qs', ordering qs'))
  = OK ([("sort_order",
          "CASE WHEN id = 2 THEN 0 WHEN id = 3 THEN 1 WHEN id = 1 THEN 2 END")],
        Some "sort_order").
Proof. reflexivity. Qed.

(** The docstring's [annotate_property(annotation=name)]: the field reads
    the name of each record. *)
Example scenario_annotate_name :
  (qs' <- annotate_property two_records (AStr "name") (Some "product_name") ;;
   objs <- iter qs' ;;
   mapM (fun obj => getattr obj "product_name") objs) = OK [VStr "b"; VStr "a"].
Proof. reflexivity. Qed.

(** A record that lacks the attribute: the lookup error reaches the caller. *)
Example scenario_missing_attribute :
  sort two_records (KStr "price") false = Err (AttributeError "price") /\
  annotate_property two_records (AStr "price") None = Err (AttributeError "price").
Proof. split; reflexivity. Qed.

(** * Further properties of the two methods *)

(** ** Reading the attributes of a fetched record *)

Lemma getattr_fetch_cases (cols : list (string * list (Z * value))) (row : record)
  (name : string) :
  getattr (fetch cols row) name
  = if String.eqb name "pk" then OK (VInt (pk row))
    else match dict_get String.eqb name cols with
         | Some bs => OK (Sql.eval_case bs (pk row))
         | None => getattr row name
         end.
Proof.
  destruct (String.eqb name "pk") eqn:Epk.
  - unfold getattr. rewrite Epk. rewrite fetch_pk. reflexivity.
  - apply String.eqb_neq in Epk.
    induction cols as [| [n b] cols IH]; simpl; [reflexivity |].
    rewrite getattr_setattr by exact Epk.
    destruct (String.eqb name n); [reflexivity | exact IH].
Qed.

Lemma getattr_fetch_same (cols cols' : list (string * list (Z * value)))
  (row : record) (name : string) :
  dict_get String.eqb name cols = dict_get String.eqb name cols' ->
  getattr (fetch cols row) name = getattr (fetch cols' row) name.
Proof. intros H. rewrite !getattr_fetch_cases, H. reflexivity. Qed.

(** ** Lists related item by item *)

Lemma Forall2_map_same {A B C : Type} (R : B -> C -> Prop) (f : A -> B) (g : A -> C)
  (l : list A) :
  (forall x, In x l -> R (f x) (g x)) -> Forall2 R (map f l) (map g l).
Proof.
  induction l as [| a l IH]; simpl; intros H; constructor.
  - apply H. left. reflexivity.
  - apply IH. intros x Hx. apply H. right. exact Hx.
Qed.

Lemma Forall2_of_map_eq {A B C : Type} (R : A -> B -> Prop) (f : A -> C) (g : B -> C)
  (l1 : list A) (l2 : list B) :
  map f l1 = map g l2 ->
  (forall a b, In a l1 -> In b l2 -> f a = g b -> R a b) ->
  Forall2 R l1 l2.
Proof.
  revert l2. induction l1 as [| a l1 IH]; intros [| b l2] Hmap H;
    simpl in Hmap; try discriminate; constructor.
  - inversion Hmap. apply H; [left; reflexivity | left; reflexivity | assumption].
  - inversion Hmap. apply IH; [assumption |].
    intros x y Hx Hy. apply H; right; assumption.
Qed.

Lemma Forall2_map_eq {A B C : Type} (R : A -> B -> Prop) (f : A -> C) (g : B -> C)
  (l1 : list A) (l2 : list B) :
  (forall a b, R a b -> f a = g b) -> Forall2 R l1 l2 -> map f l1 = map g l2.
Proof.
  intros H. induction 1 as [| a b l1 l2 Hab _ IH]; simpl; [reflexivity |].
  rewrite (H a b Hab), IH. reflexivity.
Qed.

Lemma Forall2_rev {A B : Type} (R : A -> B -> Prop) (l1 : list A) (l2 : list B) :
  Forall2 R l1 l2 -> Forall2 R (rev l1) (rev l2).
Proof.
  induction 1 as [| a b l1 l2 Hab _ IH]; simpl; [constructor |].
  apply Forall2_app; [exact IH | constructor; [exact Hab | constructor]].
Qed.

(** ** What the sorted collection iterates to *)

(** The rows of the collection [sort] returns, as iteration fetches them. *)
Lemma iter_sorted_rows (qs : QuerySet) (objs l : list record) :
  NoDup (map pk (rows qs)) ->
  iter qs = OK objs ->
  Permutation objs l ->
  l <> [] ->
  exists cols ordered ordered',
    objs = map (fetch cols) ordered /\
    Permutation (rows qs) ordered /\
    Permutation (rows qs) ordered' /\
    map pk ordered' = map pk l /\
    iter (order_by "sort_order" (extra [("sort_order", sort_sql l)] qs))
    = OK (map (fetch (dict_set String.eqb "sort_order"
                        (map branch_value (map order_branch (order_mapping l))) cols))
              ordered').
Proof.
  intros Hnd Hiter Hperm Hne.
  assert (Hpks : Permutation (map pk (rows qs)) (map pk l)).
  { apply perm_trans with (map pk objs); [apply iter_pks; exact Hiter |].
    apply Permutation_map. exact Hperm. }
  assert (Hndl : NoDup (map pk l)) by (apply (Permutation_NoDup Hpks); exact Hnd).
  destruct (iter_inv _ _ Hiter) as (cols & ordered & Hcols & Hobjs & Hord & _).
  exists cols, ordered.
  exists (Sql.order_rows (fun row => rank_of (order_mapping l) (pk row)) (rows qs)).
  split; [exact Hobjs |]. split; [exact Hord |].
  split; [apply order_rows_perm |]. split.
  - rewrite <- (order_mapping_keys l Hndl).
    apply order_rows_by_mapping.
    + apply dict_of_NoDup. exact Z.eqb_eq.
    + rewrite order_mapping_ranks by assumption. apply seq_NoDup.
    + rewrite order_mapping_ranks by assumption. apply seq_sorted.
    + rewrite order_mapping_keys by assumption. exact Hpks.
  - unfold iter. cbn [ordering order_by extra_select rows].
    rewrite extra_one.
    rewrite (compile_set _ cols _ _ _ Hcols (parse_sort_sql l Hne Hndl)).
    cbn [bind]. rewrite (dict_get_set_eq String.eqb String.eqb_eq). reflexivity.
Qed.

Lemma position_keys (m : list (Z * nat)) :
  NoDup (map fst m) ->
  map (position m) (map fst m) = map Z.of_nat (map snd m).
Proof.
  intros Hnd. rewrite !map_map. apply map_ext_in.
  intros e He. apply position_entry; assumption.
Qed.

(** The records of the sorted collection, against the list sorted in memory:
    the same records in the same order, each with its position as
    [sort_order] and its other attributes as they were. *)
Lemma sorted_collection_records (qs : QuerySet) (objs l : list record) :
  NoDup (map pk (rows qs)) ->
  iter qs = OK objs ->
  Permutation objs l ->
  l <> [] ->
  exists out,
    iter (order_by "sort_order" (extra [("sort_order", sort_sql l)] qs)) = OK out /\
    Forall2 (fun s o =>
               pk o = pk s /\
               forall name, name <> "sort_order" -> getattr o name = getattr s name)
            l out /\
    map (fun o => getattr o "sort_order") out
    = map (fun i => OK (VInt (Z.of_nat i))) (seq 0 (List.length l)).
Proof.
  intros Hnd Hiter Hperm Hne.
  destruct (iter_sorted_rows qs objs l Hnd Hiter Hperm Hne)
    as (cols & ordered & ordered' & Hobjs & Hord & Hord' & Hpk & Hout).
  assert (Hndl : NoDup (map pk l)).
  { rewrite <- Hpk. apply (Permutation_NoDup (Permutation_map pk Hord')). exact Hnd. }
  eexists. split; [exact Hout |]. split.
  - apply (Forall2_of_map_eq _ pk pk).
    + rewrite map_fetch_pk. symmetry. exact Hpk.
    + intros s o Hs Ho Hso.
      apply in_map_iff in Ho. destruct Ho as (r' & <- & Hr').
      apply (Permutation_in s (Permutation_sym Hperm)) in Hs.
      rewrite Hobjs in Hs. apply in_map_iff in Hs. destruct Hs as (r & <- & Hr).
      rewrite !fetch_pk in Hso.
      apply (Permutation_in _ (Permutation_sym Hord)) in Hr.
      apply (Permutation_in _ (Permutation_sym Hord')) in Hr'.
      assert (r = r') by (apply (NoDup_map_inj pk (rows qs)); assumption).
      subst r'. split; [rewrite !fetch_pk; reflexivity |].
      intros name Hname. apply getattr_fetch_same.
      apply (dict_get_set_ne String.eqb String.eqb_eq). exact Hname.
  - rewrite map_map.
    rewrite (map_ext_in _ (fun row => OK (VInt (position (order_mapping l) (pk row))))).
    + rewrite <- (map_map pk (fun id => OK (VInt (position (order_mapping l) id)))).
      rewrite Hpk, <- (order_mapping_keys l Hndl).
      rewrite <- (map_map (position (order_mapping l)) (fun z => OK (VInt z))).
      rewrite position_keys by (apply dict_of_NoDup; exact Z.eqb_eq).
      rewrite order_mapping_ranks by exact Hndl.
      rewrite !map_map. reflexivity.
    + intros row Hrow.
      rewrite (getattr_fetch _ row "sort_order" _ ltac:(discriminate)
                 (dict_get_set_eq String.eqb String.eqb_eq _ _ _)).
      f_equal.
      change (Sql.eval_case (map branch_value (map order_branch (order_mapping l))) (pk row))
        with (rank_of (order_mapping l) (pk row)).
      apply rank_of_position.
      rewrite (order_mapping_keys l Hndl), <- Hpk. apply in_map. exact Hrow.
Qed.

Lemma sort_unfold (qs : QuerySet) (key : Key) (reverse : bool)
  (k : record -> res value) (objs l : list record) :
  normalize key = OK k ->
  iter qs = OK objs ->
  sorted objs k reverse = OK l ->
  l <> [] ->
  sort qs key reverse
  = OK (order_by "sort_order" (extra [("sort_order", sort_sql l)] qs)).
Proof.
  intros Hk Hiter Hsorted Hl. unfold sort.
  rewrite Hk. cbn [bind]. rewrite Hiter. cbn [bind]. rewrite Hsorted. cbn [bind].
  destruct l; [congruence | reflexivity].
Qed.

Lemma sorted_nonempty {A : Type} (key : A -> res value) (reverse : bool)
  (l s : list A) :
  sorted l key reverse = OK s -> l <> [] -> s <> [].
Proof.
  intros H Hl ->. apply sorted_perm in H.
  apply Permutation_sym, Permutation_nil in H. contradiction.
Qed.

(** X1. [sort] only reorders and numbers: on a non-empty collection of
    records with distinct identifiers, the collection it returns iterates
    to the records of the list sorted in memory, in that order; each
    record carries its position, from 0, as the attribute [sort_order], and
    every other attribute as the input collection gave it. *)
Theorem sort_numbers_and_keeps_attributes :
  forall (qs : QuerySet) (key : Key) (reverse : bool)
         (k : record -> res value) (objs sorted_objects : list record),
    NoDup (map pk (rows qs)) ->
    iter qs = OK objs ->
    objs <> [] ->
    normalize key = OK k ->
    sorted objs k reverse = OK sorted_objects ->
    exists qs' out,
      sort qs key reverse = OK qs' /\
      iter qs' = OK out /\
      Forall2 (fun s o =>
                 pk o = pk s /\
                 forall name, name <> "sort_order" -> getattr o name = getattr s name)
              sorted_objects out /\
      map (fun o => getattr o "sort_order") out
      = map (fun i => OK (VInt (Z.of_nat i))) (seq 0 (List.length objs)).
Proof.
  intros qs key reverse k objs l Hnd Hiter Hne Hk Hsorted.
  assert (Hperm : Permutation objs l) by (eapply sorted_perm; exact Hsorted).
  assert (Hl : l <> []) by (eapply sorted_nonempty; eassumption).
  destruct (sorted_collection_records qs objs l Hnd Hiter Hperm Hl)
    as (out & Hout & Hrec & Hrank).
  exists (order_by "sort_order" (extra [("sort_order", sort_sql l)] qs)), out.
  split; [apply (sort_unfold qs key reverse k objs l); assumption |].
  split; [exact Hout |]. split; [exact Hrec |].
  rewrite (Permutation_length Hperm). exact Hrank.
Qed.

Lemma sort_numbers_and_keeps_attributes_witness :
  exists qs' out,
    sort three_records (KStr "name") false = OK qs' /\
    iter qs' = OK out /\
    Forall2 (fun s o =>
               pk o = pk s /\
               forall name, name <> "sort_order" -> getattr o name = getattr s name)
            [record_a; record_c; record_b] out /\
    map (fun o => getattr o "sort_order") out
    = map (fun i => OK (VInt (Z.of_nat i)))
          (seq 0 (List.length [record_b; record_a; record_c])).
Proof.
  apply (sort_numbers_and_keeps_attributes three_records (KStr "name") false
           (fun obj => getattr obj "name") [record_b; record_a; record_c]).
  - repeat constructor; simpl; intuition discriminate.
  - reflexivity.
  - discriminate.
  - reflexivity.
  - reflexivity.
Defined.

(** ** [sort] never returns a collection the database rejects *)



(** ** The records of the annotated collection *)

(** One more computed field, under a name the collection is not ordered
    by: the same rows come back, in the same order. *)
Lemma iter_extra_rows (qs : QuerySet) (objs : list record) (name sql : string)
  (bs : list (Z * value)) :
  iter qs = OK objs ->
  Sql.parse_case sql = Some bs ->
  ordering qs <> Some name ->
  exists cols ordered,
    objs = map (fetch cols) ordered /\
    Permutation (rows qs) ordered /\
    iter (extra [(name, sql)] qs)
    = OK (map (fetch (dict_set String.eqb name bs cols)) ordered).
Proof.
  intros Hiter Hsql Hord. unfold iter in *.
  rewrite extra_one. cbn [ordering rows extra].
  destruct (mapM compile_field (extra_select qs)) as [cols |] eqn:Hcols;
    [| discriminate].
  rewrite (compile_set _ _ _ _ _ Hcols Hsql). cbn [bind] in *.
  exists cols.
  destruct (ordering qs) as [n |].
  - assert (Hn : n <> name) by congruence.
    rewrite (dict_get_set_ne String.eqb String.eqb_eq) by exact Hn.
    destruct (dict_get String.eqb n cols) as [bn |]; [| discriminate].
    cbn [bind] in *. inversion Hiter; subst.
    eexists. split; [reflexivity |]. split; [apply order_rows_perm | reflexivity].
  - cbn [bind] in *. inversion Hiter; subst.
    eexists. split; [reflexivity |]. split; [apply Permutation_refl | reflexivity].
Qed.

(** The annotated collection against the input one, record by record. *)
Lemma annotated_collection_records (qs : QuerySet) (annotation : Annotation)
  (property_name : option string) (name : string) (k : record -> res value)
  (objs : list record) :
  NoDup (map pk (rows qs)) ->
  iter qs = OK objs ->
  objs <> [] ->
  output_name annotation property_name = OK name ->
  name <> "pk" ->
  ordering qs <> Some name ->
  annotation_key annotation = OK k ->
  (forall obj, In obj objs ->
     exists v, k obj = OK v /\ Sql.read_literal (repr v) = Some v) ->
  exists qs' objs',
    annotate_property qs annotation property_name = OK qs' /\
    rows qs' = rows qs /\
    iter qs' = OK objs' /\
    Forall2 (fun obj obj' =>
               pk obj' = pk obj /\
               getattr obj' name = k obj /\
               forall other, other <> name -> getattr obj' other = getattr obj other)
            objs objs'.
Proof.
  intros Hnd Hiter Hne Hname Hpk Hord Hk Hlit.
  assert (Hndo : NoDup (map pk objs))
    by (apply (Permutation_NoDup (iter_pks _ _ Hiter)); exact Hnd).
  set (g := fun obj => match k obj with OK v => v | Err _ => VNone end).
  set (items := map (fun obj => (pk obj, g obj)) objs).
  assert (Hg : forall obj, In obj objs ->
                 k obj = OK (g obj) /\ Sql.read_literal (repr (g obj)) = Some (g obj)).
  { intros obj Hin. destruct (Hlit obj Hin) as (v & Hv & Hr).
    unfold g. rewrite Hv. split; [reflexivity | exact Hr]. }
  assert (Hitems : mapM (fun obj => v <- k obj ;; OK (pk obj, v)) objs = OK items).
  { apply mapM_total. intros obj Hin.
    destruct (Hg obj Hin) as [-> _]. reflexivity. }
  assert (Hkeys : map fst items = map pk objs).
  { unfold items. rewrite map_map. reflexivity. }
  assert (Hdict : dict_of Z.eqb items = items).
  { apply (dict_of_fresh Z.eqb Z.eqb_eq). rewrite Hkeys. exact Hndo. }
  assert (Hparse : Sql.parse_case (annotate_sql items) = Some items).
  { rewrite annotate_sql_branches. rewrite parse_case_sql.
    - rewrite repr_branch_value. reflexivity.
    - apply Forall_forall. intros b Hb. apply in_map_iff in Hb.
      destruct Hb as (it & <- & Hit). unfold items in Hit.
      apply in_map_iff in Hit. destruct Hit as (obj & <- & Hobj).
      unfold branch_ok, repr_branch. simpl. apply Hg. exact Hobj.
    - unfold items. destruct objs; [congruence | discriminate]. }
  destruct (iter_extra_rows qs objs name _ items Hiter Hparse Hord)
    as (cols & ordered & Hobjs & Hperm & Hiter').
  exists (extra [(name, annotate_sql items)] qs).
  eexists. split; [| split; [reflexivity | split; [exact Hiter' |]]].
  - unfold annotate_property. rewrite Hname. cbn [bind]. rewrite Hk. cbn [bind].
    rewrite Hiter. cbn [bind]. unfold value_mapping. rewrite Hitems. cbn [bind].
    rewrite Hdict. reflexivity.
  - rewrite Hobjs. apply Forall2_map_same. intros row Hrow.
    assert (Hin : In (fetch cols row) objs)
      by (rewrite Hobjs; apply in_map; exact Hrow).
    split; [rewrite !fetch_pk; reflexivity |]. split.
    + rewrite (getattr_fetch _ row name items Hpk)
        by apply (dict_get_set_eq String.eqb String.eqb_eq).
      destruct (Hg _ Hin) as [-> _]. f_equal.
      unfold Sql.eval_case.
      rewrite (dict_get_NoDup Z.eqb Z.eqb_eq (pk row) (g (fetch cols row))).
      * reflexivity.
      * rewrite Hkeys. exact Hndo.
      * rewrite <- (fetch_pk cols row) at 1. unfold items.
        apply (in_map (fun o => (pk o, g o))). exact Hin.
    + intros other Hother. apply getattr_fetch_same.
      apply (dict_get_set_ne String.eqb String.eqb_eq). exact Hother.
Qed.

(** X3. [annotate_property] only adds a field: on a non-empty collection
    of records with distinct identifiers, with an output name made of a
    letter followed by letters, digits and underscores that is not [pk],
    [id] or the field the collection is ordered by, and a key function
    that returns integers below [2 ^ 63] in absolute value and plain
    strings, the returned collection iterates to the records of the
    input in the same order; each reads the value of the key function
    under the output name, whatever was there before, and every other
    attribute as the input collection gave it. *)
Theorem annotate_property_only_adds_field :
  forall (qs : QuerySet) (annotation : Annotation) (property_name : option string)
         (name : string) (k : record -> res value) (objs : list record),
    NoDup (map pk (rows qs)) ->
    iter qs = OK objs ->
    objs <> [] ->
    output_name annotation property_name = OK name ->
    field_name name = true ->
    ordering qs <> Some name ->
    annotation_key annotation = OK k ->
    (forall obj, In obj objs -> exists v, k obj = OK v /\ storable v = true) ->
    exists qs' objs',
      annotate_property qs annotation property_name = OK qs' /\
      iter qs' = OK objs' /\
      Forall2 (fun obj obj' =>
                 pk obj' = pk obj /\
                 getattr obj' name = k obj /\
                 forall other, other <> name -> getattr obj' other = getattr obj other)
              objs objs'.
Proof.
  intros qs annotation property_name name k objs Hnd Hiter Hne Hname Hfield Hord Hk Hst.
  destruct (annotated_collection_records qs annotation property_name name k objs
              Hnd Hiter Hne Hname (field_name_not_pk name Hfield) Hord Hk
              (storable_values k objs Hst))
    as (qs' & objs' & Hann & _ & Hiter' & Hrec).
  exists qs', objs'. split; [exact Hann |]. split; [exact Hiter' | exact Hrec].
Qed.

Lemma annotate_property_only_adds_field_witness :
  exists qs' objs',
    annotate_property two_records (AStr "cost") (Some "price") = OK qs' /\
    iter qs' = OK objs' /\
    Forall2 (fun obj obj' =>
               pk obj' = pk obj /\
               getattr obj' "price" = getattr obj "cost" /\
               forall other, other <> "price" -> getattr obj' other = getattr obj other)
            [record_b; record_a] objs'.
Proof.
  apply (annotate_property_only_adds_field two_records (AStr "cost") (Some "price") "price"
           (fun obj => getattr obj "cost") [record_b; record_a]).
  - repeat constructor; simpl; intuition discriminate.
  - reflexivity.
  - discriminate.
  - reflexivity.
  - reflexivity.
  - discriminate.
  - reflexivity.
  - intros obj [<- | [<- | []]]; eexists; split; reflexivity.
Defined.

(** ** The first record the key function fails on *)

Lemma mapM_first_error {A B : Type} (f : A -> res B) (before after : list A)
  (a : A) (e : exn) :
  (forall x, In x before -> exists b, f x = OK b) ->
  f a = Err e ->
  mapM f (before ++ a :: after) = Err e.
Proof.
  induction before as [| x before IH]; simpl; intros Hbefore Ha.
  - rewrite Ha. reflexivity.
  - destruct (Hbefore x (or_introl Logic.eq_refl)) as (b & ->). cbn [bind].
    rewrite IH; [reflexivity | | exact Ha].
    intros y Hy. apply Hbefore. right. exact Hy.
Qed.

Lemma decorate_first_error {A : Type} (key : A -> res value) (before after : list A)
  (a : A) (e : exn) :
  (forall x, In x before -> exists v, key x = OK v) ->
  key a = Err e ->
  decorate key (before ++ a :: after) = Err e.
Proof.
  intros Hbefore Ha. unfold decorate. apply mapM_first_error.
  - intros x Hx. destruct (Hbefore x Hx) as (v & ->). eexists. reflexivity.
  - rewrite Ha. reflexivity.
Qed.

(** X4. The key function is applied to the records in the order the
    collection iterates them, before any comparison: [sort] raises what
    the key function raises on the first record it fails on, for either
    value of [reverse]. *)
Theorem sort_raises_first_key_error :
  forall (qs : QuerySet) (key : Key) (reverse : bool) (k : record -> res value)
         (before after : list record) (obj : record) (e : exn),
    normalize key = OK k ->
    iter qs = OK (before ++ obj :: after) ->
    (forall o, In o before -> exists v, k o = OK v) ->
    k obj = Err e ->
    sort qs key reverse = Err e.
Proof.
  intros qs key reverse k before after obj e Hk Hiter Hbefore Hobj.
  unfold sort. rewrite Hk. cbn [bind]. rewrite Hiter. cbn [bind].
  unfold sorted. rewrite (decorate_first_error k before after obj e Hbefore Hobj).
  reflexivity.
Qed.

Lemma sort_raises_first_key_error_witness :
  sort three_records
    (KCallable (fun obj => if Z.eqb (pk obj) 1 then Returns (VInt 0) else Raises (Z.to_nat (pk obj))))
    true
  = Err (Raised 2).
Proof.
  apply (sort_raises_first_key_error three_records _ true
           (call (fun obj => if Z.eqb (pk obj) 1 then Returns (VInt 0)
                             else Raises (Z.to_nat (pk obj))))
           [record_b] [record_c] record_a).
  - reflexivity.
  - reflexivity.
  - intros o [<- | []]. eexists. reflexivity.
  - reflexivity.
Defined.

(** X5. [annotate_property], once it has a name for the field, applies
    the key function to the records in the order the collection iterates
    them, and raises what the key function raises on the first record it
    fails on; no collection is returned. *)
Theorem annotate_property_raises_first_key_error :
  forall (qs : QuerySet) (annotation : Annotation) (property_name : option string)
         (name : string) (k : record -> res value)
         (before after : list record) (obj : record) (e : exn),
    output_name annotation property_name = OK name ->
    annotation_key annotation = OK k ->
    iter qs = OK (before ++ obj :: after) ->
    (forall o, In o before -> exists v, k o = OK v) ->
    k obj = Err e ->
    annotate_property qs annotation property_name = Err e.
Proof.
  intros qs annotation property_name name k before after obj e
         Hname Hk Hiter Hbefore Hobj.
  unfold annotate_property. rewrite Hname. cbn [bind]. rewrite Hk. cbn [bind].
  rewrite Hiter. cbn [bind]. unfold value_mapping.
  rewrite (mapM_first_error _ before after obj e).
  - reflexivity.
  - intros o Ho. destruct (Hbefore o Ho) as (v & ->). eexists. reflexivity.
  - rewrite Hobj. reflexivity.
Qed.

Lemma annotate_property_raises_first_key_error_witness :
  annotate_property three_records
    (ACallable (fun obj => if Z.eqb (pk obj) 1 then Returns (VInt 0)
                           else Raises (Z.to_nat (pk obj))))
    (Some "note")
  = Err (Raised 2).
Proof.
  apply (annotate_property_raises_first_key_error three_records _ (Some "note") "note"
           (call (fun obj => if Z.eqb (pk obj) 1 then Returns (VInt 0)
                             else Raises (Z.to_nat (pk obj))))
           [record_b] [record_c] record_a).
  - reflexivity.
  - reflexivity.
  - reflexivity.
  - intros o [<- | []]. eexists. reflexivity.
  - reflexivity.
Defined.

(** ** Keys that cannot be ordered *)

Lemma lt_error : forall (a b : value) (e : exn), lt a b = Err e -> e = unorderable.
Proof.
  fix IH 1. intros a b e.
  destruct a as [| x | x | xs]; destruct b as [| y | y | ys]; simpl;
    try (intros H; inversion H; reflexivity).
  revert ys. induction xs as [| x xs IHxs]; intros [| y ys]; try discriminate.
  destruct (eq x y); [apply IHxs | apply IH].
Qed.

Lemma lt_none_l (b : value) : lt VNone b = Err unorderable.
Proof. destruct b; reflexivity. Qed.

Lemma lt_none_r (a : value) : lt a VNone = Err unorderable.
Proof. destruct a; reflexivity. Qed.

Lemma insert_error {A : Type} (x : value * A) (l : list (value * A)) (e : exn) :
  insert x l = Err e -> e = unorderable.
Proof.
  induction l as [| y l IH]; simpl; intros H; [discriminate |].
  apply bind_Err in H. destruct H as [H | (b & _ & H)].
  - exact (lt_error _ _ _ H).
  - destruct b; [| discriminate].
    apply bind_Err in H. destruct H as [H | (s & _ & H)]; [| discriminate].
    apply IH. exact H.
Qed.

Lemma isort_error {A : Type} (l : list (value * A)) (e : exn) :
  isort l = Err e -> e = unorderable.
Proof.
  induction l as [| x l IH]; simpl; intros H; [discriminate |].
  apply bind_Err in H. destruct H as [H | (s & _ & H)].
  - apply IH. exact H.
  - exact (insert_error _ _ _ H).
Qed.

Lemma insert_OK_head {A : Type} (x y : value * A) (l s : list (value * A)) :
  insert x (y :: l) = OK s -> fst x <> VNone /\ fst y <> VNone.
Proof.
  simpl. intros H. inv_bind H. split; intros E; rewrite E in Ha.
  - rewrite lt_none_r in Ha. discriminate.
  - rewrite lt_none_l in Ha. discriminate.
Qed.

(** A sort that ends has compared every key, once the list has two items. *)
Lemma isort_OK_no_none {A : Type} (l s : list (value * A)) :
  isort l = OK s -> 2 <= List.length l -> forall x, In x l -> fst x <> VNone.
Proof.
  revert s. induction l as [| x l IH]; simpl; intros s H Hlen; [lia |].
  inv_bind H.
  destruct l as [| y l]; [simpl in Hlen; lia |].
  assert (Hx : fst x <> VNone /\ forall z, In z (y :: l) -> fst z <> VNone).
  { destruct l as [| y' l].
    - simpl in Ha. inversion Ha; subst a.
      destruct (insert_OK_head _ _ _ _ H) as (Hx & Hy).
      split; [exact Hx |]. intros z [<- | []]. exact Hy.
    - split; [| apply (IH a Ha); simpl; lia].
      destruct a as [| y0 a].
      + apply isort_perm in Ha. apply Permutation_sym, Permutation_nil in Ha.
        discriminate.
      + apply (insert_OK_head _ _ _ _ H). }
  destruct Hx as [Hx Hrest].
  intros z [<- | Hz]; [exact Hx | apply Hrest; exact Hz].
Qed.

Lemma sorted_none_key {A : Type} (key : A -> res value) (reverse : bool)
  (l : list A) (a : A) :
  2 <= List.length l ->
  (forall x, In x l -> exists v, key x = OK v) ->
  In a l -> key a = OK VNone ->
  sorted l key reverse = Err unorderable.
Proof.
  intros Hlen Hall Ha Hnone.
  set (kf := fun x => match key x with OK v => v | Err _ => VNone end).
  assert (Hdec : decorate key l = OK (map (fun x => (kf x, x)) l)).
  { unfold decorate. apply mapM_total. intros x Hx.
    destruct (Hall x Hx) as (v & Hv). unfold kf. rewrite Hv. reflexivity. }
  assert (Hin : In (VNone, a) (map (fun x => (kf x, x)) l)).
  { apply in_map_iff. exists a. split; [| exact Ha].
    unfold kf. rewrite Hnone. reflexivity. }
  assert (Hsort : forall keyed : list (value * A),
             2 <= List.length keyed -> In (VNone, a) keyed ->
             isort keyed = Err unorderable).
  { intros keyed Hk Hi. destruct (isort keyed) as [s | e] eqn:E.
    - exfalso. apply (isort_OK_no_none keyed s E Hk (VNone, a) Hi). reflexivity.
    - rewrite (isort_error keyed e E). reflexivity. }
  unfold sorted. rewrite Hdec. cbn [bind]. destruct reverse.
  - rewrite Hsort; [reflexivity | |].
    + rewrite length_rev, length_map. exact Hlen.
    + apply -> in_rev. exact Hin.
  - rewrite Hsort; [reflexivity | | exact Hin].
    rewrite length_map. exact Hlen.
Qed.

(** X6. A key that is [None] on some record cannot be ordered: as soon
    as the collection iterates to two records or more, [sort] raises the
    [TypeError] of [<], for either value of [reverse]. *)
Theorem sort_none_key_raises :
  forall (qs : QuerySet) (key : Key) (reverse : bool) (k : record -> res value)
         (objs : list record) (obj : record),
    normalize key = OK k ->
    iter qs = OK objs ->
    2 <= List.length objs ->
    (forall o, In o objs -> exists v, k o = OK v) ->
    In obj objs ->
    k obj = OK VNone ->
    sort qs key reverse = Err unorderable.
Proof.
  intros qs key reverse k objs obj Hk Hiter Hlen Hall Hin Hnone.
  unfold sort. rewrite Hk. cbn [bind]. rewrite Hiter. cbn [bind].
  rewrite (sorted_none_key k reverse objs obj Hlen Hall Hin Hnone). reflexivity.
Qed.

Lemma sort_none_key_raises_witness :
  sort two_records
    (KCallable (fun obj => if Z.eqb (pk obj) 1 then Returns VNone else Returns (VInt 3)))
    false
  = Err unorderable.
Proof.
  apply (sort_none_key_raises two_records _ false
           (call (fun obj => if Z.eqb (pk obj) 1 then Returns VNone else Returns (VInt 3)))
           [record_b; record_a] record_b).
  - reflexivity.
  - reflexivity.
  - simpl. lia.
  - intros o [<- | [<- | []]]; eexists; reflexivity.
  - left. reflexivity.
  - reflexivity.
Defined.

(** X7. A collection of one record is never compared: [sort] returns a
    collection that iterates to that record whatever the key function
    returns on it, [None] included. *)
Theorem sort_single_record :
  forall (qs : QuerySet) (key : Key) (reverse : bool) (k : record -> res value)
         (obj : record) (v : value),
    normalize key = OK k ->
    iter qs = OK [obj] ->
    k obj = OK v ->
    exists qs' out,
      sort qs key reverse = OK qs' /\
      iter qs' = OK out /\
      map pk out = [pk obj].
Proof.
  intros qs key reverse k obj v Hk Hiter Hv.
  assert (Hnd : NoDup (map pk (rows qs))).
  { apply (Permutation_NoDup (Permutation_sym (iter_pks _ _ Hiter))).
    simpl. constructor; [tauto | constructor]. }
  assert (Hsorted : sorted [obj] k reverse = OK [obj]).
  { unfold sorted, decorate. simpl. rewrite Hv. destruct reverse; reflexivity. }
  exact (sort_collection qs key reverse k [obj] [obj] Hnd Hiter
           ltac:(discriminate) Hk Hsorted).
Qed.

Lemma sort_single_record_witness :
  exists qs' out,
    sort {| rows := [record_a]; extra_select := []; ordering := None |}
         (KCallable (fun _ => Returns VNone)) true = OK qs' /\
    iter qs' = OK out /\
    map pk out = [pk record_a].
Proof.
  apply (sort_single_record _ _ true (call (fun _ => Returns VNone)) record_a VNone).
  - reflexivity.
  - reflexivity.
  - reflexivity.
Defined.

(** ** Sorting two lists with the same keys *)

Section SortedRelated.
Context {A B : Type} (R : A -> B -> Prop).

Lemma insert_related (x : value * A) (x' : value * B)
  (l : list (value * A)) (l' : list (value * B)) (s : list (value * A)) :
  fst x = fst x' -> R (snd x) (snd x') ->
  Forall2 (fun y y' => fst y = fst y' /\ R (snd y) (snd y')) l l' ->
  insert x l = OK s ->
  exists s', insert x' l' = OK s' /\
             Forall2 (fun y y' => fst y = fst y' /\ R (snd y) (snd y')) s s'.
Proof.
  intros Hx HR Hl. revert s.
  induction Hl as [| y y' l l' (Hy & HRy) Hl IH]; simpl; intros s H.
  - inversion H; subst. eexists. split; [reflexivity |].
    constructor; [split; assumption | constructor].
  - rewrite <- Hx, <- Hy. inv_bind H. rewrite Ha. cbn [bind]. destruct a.
    + inv_bind H. inversion H; subst.
      destruct (IH a Ha0) as (s' & -> & Hs'). cbn [bind].
      eexists. split; [reflexivity |].
      constructor; [split; assumption | exact Hs'].
    + inversion H; subst. eexists. split; [reflexivity |].
      constructor; [split; assumption |].
      constructor; [split; assumption | exact Hl].
Qed.

Lemma isort_related (l : list (value * A)) (l' : list (value * B))
  (s : list (value * A)) :
  Forall2 (fun y y' => fst y = fst y' /\ R (snd y) (snd y')) l l' ->
  isort l = OK s ->
  exists s', isort l' = OK s' /\
             Forall2 (fun y y' => fst y = fst y' /\ R (snd y) (snd y')) s s'.
Proof.
  intros Hl. revert s.
  induction Hl as [| y y' l l' (Hy & HRy) Hl IH]; simpl; intros s H.
  - inversion H; subst. exists []. split; [reflexivity | constructor].
  - inv_bind H. destruct (IH a Ha) as (s0 & -> & Hs0). cbn [bind].
    apply (insert_related y y' a s0 s Hy HRy Hs0 H).
Qed.

Lemma decorate_related (key : A -> res value) (key' : B -> res value)
  (l : list A) (l' : list B) (keyed : list (value * A)) :
  (forall a b, R a b -> key a = key' b) ->
  Forall2 R l l' ->
  decorate key l = OK keyed ->
  exists keyed', decorate key' l' = OK keyed' /\
                 Forall2 (fun y y' => fst y = fst y' /\ R (snd y) (snd y')) keyed keyed'.
Proof.
  intros Hkey Hl. unfold decorate. revert keyed.
  induction Hl as [| a b l l' Hab Hl IH]; simpl; intros keyed H.
  - inversion H; subst. exists []. split; [reflexivity | constructor].
  - rewrite <- (Hkey a b Hab). inv_bind H. inv_bind Ha. inversion Ha; subst.
    inv_bind H. inversion H; subst. rewrite Ha0. cbn [bind].
    destruct (IH a0 Ha1) as (keyed' & -> & Hk'). cbn [bind].
    eexists. split; [reflexivity |].
    constructor; [split; [reflexivity | exact Hab] | exact Hk'].
Qed.

(** Two lists whose items correspond, with equal keys on corresponding
    items, are sorted alike. *)
Lemma sorted_related (key : A -> res value) (key' : B -> res value) (reverse : bool)
  (l s : list A) (l' : list B) :
  (forall a b, R a b -> key a = key' b) ->
  Forall2 R l l' ->
  sorted l key reverse = OK s ->
  exists s', sorted l' key' reverse = OK s' /\ Forall2 R s s'.
Proof.
  intros Hkey Hl H. unfold sorted in *. inv_bind H.
  destruct (decorate_related key key' l l' a Hkey Hl Ha) as (keyed' & -> & Hk').
  cbn [bind]. inv_bind H. inversion H; subst.
  assert (Hsnd : forall (t : list (value * A)) (t' : list (value * B)),
             Forall2 (fun y y' => fst y = fst y' /\ R (snd y) (snd y')) t t' ->
             Forall2 R (map snd t) (map snd t')).
  { intros t t'. induction 1 as [| y y' t t' (_ & Hy) _ IHt]; simpl; constructor;
      assumption. }
  destruct reverse.
  - inv_bind Ha0. inversion Ha0; subst.
    destruct (isort_related (rev a) (rev keyed') a1 (Forall2_rev _ _ _ Hk') Ha1)
      as (s0 & -> & Hs0).
    cbn [bind]. eexists. split; [reflexivity |].
    apply Hsnd, Forall2_rev. exact Hs0.
  - destruct (isort_related a keyed' a0 Hk' Ha0) as (s0 & -> & Hs0).
    cbn [bind]. eexists. split; [reflexivity |].
    apply Hsnd. exact Hs0.
Qed.
End SortedRelated.

(** ** Chaining the two methods *)

(** X8. The annotated field can be sorted by: on a non-empty collection
    of records with distinct identifiers, with an output name made of a
    letter followed by letters, digits and underscores that is not [pk],
    [id] or the field the collection is ordered by, and a key function
    that returns integers below [2 ^ 63] in absolute value and plain
    strings, [annotate_property] followed by [sort] on the output name
    returns a collection that iterates in the order of the records
    sorted in memory by the key function itself. *)
Theorem annotate_property_then_sort :
  forall (qs : QuerySet) (annotation : Annotation) (property_name : option string)
         (name : string) (k : record -> res value) (reverse : bool)
         (objs sorted_objects : list record),
    NoDup (map pk (rows qs)) ->
    iter qs = OK objs ->
    objs <> [] ->
    output_name annotation property_name = OK name ->
    field_name name = true ->
    ordering qs <> Some name ->
    annotation_key annotation = OK k ->
    (forall obj, In obj objs -> exists v, k obj = OK v /\ storable v = true) ->
    sorted objs k reverse = OK sorted_objects ->
    exists annotated qs' out,
      annotate_property qs annotation property_name = OK annotated /\
      sort annotated (KStr name) reverse = OK qs' /\
      iter qs' = OK out /\
      map pk out = map pk sorted_objects.
Proof.
  intros qs annotation property_name name k reverse objs l
         Hnd Hiter Hne Hname Hfield Hord Hk Hst Hsorted.
  destruct (annotated_collection_records qs annotation property_name name k objs
              Hnd Hiter Hne Hname (field_name_not_pk name Hfield) Hord Hk
              (storable_values k objs Hst))
    as (q1 & objs1 & Hann & Hrows & Hiter1 & Hrec).
  assert (Hkeys : forall a b : record,
             (pk b = pk a /\ getattr b name = k a /\
              forall other, other <> name -> getattr b other = getattr a other) ->
             k a = getattr b name).
  { intros a b (_ & H & _). symmetry. exact H. }
  destruct (sorted_related _ k (fun o => getattr o name) reverse objs l objs1
              Hkeys Hrec Hsorted)
    as (l1 & Hsorted1 & Hl1).
  assert (Hne1 : objs1 <> []).
  { intros ->. inversion Hrec; subst. congruence. }
  assert (Hnd1 : NoDup (map pk (rows q1))) by (rewrite Hrows; exact Hnd).
  destruct (sort_collection q1 (KStr name) reverse _ objs1 l1 Hnd1 Hiter1 Hne1
              Logic.eq_refl Hsorted1)
    as (q2 & out & Hsort & Hout & Hpks).
  exists q1, q2, out. split; [exact Hann |]. split; [exact Hsort |].
  split; [exact Hout |]. rewrite Hpks.
  clear - Hl1. induction Hl1 as [| a b l l1 (H & _) _ IH]; simpl; [reflexivity |].
  rewrite H, IH. reflexivity.
Qed.

Lemma annotate_property_then_sort_witness :
  exists annotated qs' out,
    annotate_property three_records (AStr "name") None = OK annotated /\
    sort annotated (KStr "name_property") false = OK qs' /\
    iter qs' = OK out /\
    map pk out = map pk [record_a; record_c; record_b].
Proof.
  apply (annotate_property_then_sort three_records (AStr "name") None "name_property"
           (fun obj => getattr obj "name") false [record_b; record_a; record_c]).
  - repeat constructor; simpl; intuition discriminate.
  - reflexivity.
  - discriminate.
  - reflexivity.
  - reflexivity.
  - discriminate.
  - reflexivity.
  - intros obj [<- | [<- | [<- | []]]]; eexists; split; reflexivity.
  - reflexivity.
Defined.

(** A key function with totally ordered values, as a comparison of records. *)
Lemma keys_total {A : Type} (key : A -> res value) (l : list A) (ks : list value) :
  mapM key l = OK ks -> totally_ordered ks = true ->
  exists kf,
    ks = map kf l /\
    (forall a, In a l -> key a = OK (kf a)) /\
    (forall x y, In x l -> In y l -> lt (kf y) (kf x) = OK (ltb (kf y) (kf x))) /\
    (forall x y, In x l -> In y l ->
       ltb (kf x) (kf y) = true -> ltb (kf y) (kf x) = false) /\
    (forall x y, In x l -> In y l ->
       eq (kf x) (kf y) = negb (ltb (kf x) (kf y)) && negb (ltb (kf y) (kf x))) /\
    (forall x y z, In x l -> In y l -> In z l ->
       ltb (kf x) (kf z) = true -> ltb (kf x) (kf y) = true \/ ltb (kf y) (kf z) = true).
Proof.
  intros Hks Htot.
  set (kf := fun a => match key a with OK v => v | Err _ => VNone end).
  assert (Hkey : forall a, In a l -> key a = OK (kf a)).
  { apply mapM_OK_Forall2 in Hks. clear Htot. unfold kf.
    induction Hks as [| a v l ks Hav _ IH]; intros b Hb; [contradiction |].
    destruct Hb as [<- | Hb]; [rewrite Hav; reflexivity | apply IH; exact Hb]. }
  assert (Hmap : ks = map kf l).
  { apply mapM_OK_Forall2 in Hks. clear Htot.
    induction Hks as [| a v l ks Hav _ IH]; [reflexivity |].
    simpl. rewrite IH by (intros; apply Hkey; right; assumption).
    rewrite (Hkey a (or_introl Logic.eq_refl)) in Hav. inversion Hav. reflexivity. }
  subst ks.
  assert (T : forall x y z, In x l -> In y l -> In z l ->
                ordered_triple (kf x) (kf y) (kf z) = true).
  { intros x y z Hx Hy Hz.
    apply (totally_ordered_triple _ _ _ _ Htot); apply in_map; assumption. }
  exists kf. split; [reflexivity |]. split; [exact Hkey |]. repeat split.
  - intros x y Hx Hy. apply (ordered_triple_inv _ _ _ (T y x x Hy Hx Hx)).
  - intros x y Hx Hy. apply (ordered_triple_inv _ _ _ (T x y y Hx Hy Hy)).
  - intros x y Hx Hy. apply (ordered_triple_inv _ _ _ (T x y y Hx Hy Hy)).
  - intros x y z Hx Hy Hz. apply (ordered_triple_inv _ _ _ (T x y z Hx Hy Hz)).
Qed.

(** X9. Two sorts in a row are the multi-key sort: for attribute names
    [a], other than [sort_order], and [b], whose values [<] totally
    orders, sorting the collection by [b] and the result by [a] iterates
    in the same order as sorting the collection by the tuple key [(a, b)],
    for either value of [reverse]. *)
Theorem sort_twice_is_tuple_sort :
  forall (qs : QuerySet) (a b : string) (reverse : bool)
         (objs : list record) (vas vbs : list value),
    NoDup (map pk (rows qs)) ->
    iter qs = OK objs ->
    a <> "sort_order" ->
    mapM (fun obj => getattr obj a) objs = OK vas -> totally_ordered vas = true ->
    mapM (fun obj => getattr obj b) objs = OK vbs -> totally_ordered vbs = true ->
    exists by_b then_by_a by_tuple out2 out,
      sort qs (KStr b) reverse = OK by_b /\
      sort by_b (KStr a) reverse = OK then_by_a /\
      iter then_by_a = OK out2 /\
      sort qs (KTuple [a; b]) reverse = OK by_tuple /\
      iter by_tuple = OK out /\
      map pk out2 = map pk out.
Proof.
  intros qs a b reverse objs vas vbs Hnd Hiter Hso Hvas Hta Hvbs Htb.
  destruct (sorted_pair a b reverse objs vas vbs _ Hvas Hta Hvbs Htb Logic.eq_refl)
    as (Hb & Ha & Hab & _).
  destruct objs as [| o objs].
  - exists qs, qs, qs, [], [].
    repeat split; try exact Hiter;
      apply sort_of_nothing_any_key; try exact Hiter; discriminate.
  - set (lb := sorted_by (by_attr b) reverse (o :: objs)) in *.
    set (la := sorted_by (lex (by_attr a) (by_attr b)) reverse (o :: objs)) in *.
    assert (Hpb : Permutation (o :: objs) lb) by (eapply sorted_perm; exact Hb).
    assert (Hlb : lb <> []) by (eapply sorted_nonempty; [exact Hb | discriminate]).
    destruct (sorted_collection_records qs (o :: objs) lb Hnd Hiter Hpb Hlb)
      as (out1 & Hout1 & Hrec & _).
    assert (Hkeys : forall s r : record,
               (pk r = pk s /\
                forall name, name <> "sort_order" -> getattr r name = getattr s name) ->
               getattr s a = getattr r a).
    { intros s r (_ & H). symmetry. apply H. exact Hso. }
    destruct (sorted_related _ (fun obj => getattr obj a) (fun obj => getattr obj a)
                reverse lb la out1 Hkeys Hrec Ha)
      as (l2 & Hsorted2 & Hl2).
    assert (Hne1 : out1 <> []).
    { intros ->. inversion Hrec; subst. congruence. }
    destruct (sort_collection
                (order_by "sort_order" (extra [("sort_order", sort_sql lb)] qs))
                (KStr a) reverse _ out1 l2 Hnd Hout1 Hne1 Logic.eq_refl Hsorted2)
      as (q2 & out2 & Hsort2 & Hout2 & Hpk2).
    destruct (sort_collection qs (KTuple [a; b]) reverse _ (o :: objs) la
                Hnd Hiter ltac:(discriminate) Logic.eq_refl Hab)
      as (q & out & Hsort & Hout & Hpk).
    exists (order_by "sort_order" (extra [("sort_order", sort_sql lb)] qs)), q2, q, out2, out.
    split; [apply (sort_unfold qs (KStr b) reverse _ (o :: objs) lb Logic.eq_refl Hiter Hb Hlb) |].
    split; [exact Hsort2 |]. split; [exact Hout2 |].
    split; [exact Hsort |]. split; [exact Hout |].
    rewrite Hpk2, Hpk.
    clear - Hl2. induction Hl2 as [| s r la l2 (H & _) _ IH]; simpl; [reflexivity |].
    rewrite H, IH. reflexivity.
Qed.

Lemma sort_twice_is_tuple_sort_witness :
  exists by_b then_by_a by_tuple out2 out,
    sort three_records (KStr "name") true = OK by_b /\
    sort by_b (KStr "cost") true = OK then_by_a /\
    iter then_by_a = OK out2 /\
    sort three_records (KTuple ["cost"; "name"]) true = OK by_tuple /\
    iter by_tuple = OK out /\
    map pk out2 = map pk out.
Proof.
  apply (sort_twice_is_tuple_sort three_records "cost" "name" true
           [record_b; record_a; record_c]
           [VInt 10; VInt 9; VInt 10] [VStr "b"; VStr "a"; VStr "a"]).
  - repeat constructor; simpl; intuition discriminate.
  - reflexivity.
  - discriminate.
  - reflexivity.
  - reflexivity.
  - reflexivity.
  - reflexivity.
Defined.

(** ** Sorting what is sorted, and sorting in reverse *)





Lemma eq_sym : forall a b : value, eq a b = eq b a.
Proof.
  fix IH 1. intros a b.
  destruct a as [| x | x | xs]; destruct b as [| y | y | ys]; simpl;
    try reflexivity.
  - apply Z.eqb_sym.
  - apply String.eqb_sym.
  - revert ys. induction xs as [| x xs IHxs]; intros [| y ys]; try reflexivity.
    rewrite (IH x y), (IHxs ys). reflexivity.
Qed.

Lemma all_distinct_inj {A : Type} (f : A -> value) (l : list A) (x y : A) :
  all_distinct (map f l) = true ->
  In x l -> In y l -> eq (f x) (f y) = true -> x = y.
Proof.
  induction l as [| a l IH]; simpl; intros H Hx Hy E; [contradiction |].
  apply andb_true_iff in H. destruct H as [Ha Hl].
  rewrite forallb_forall in Ha.
  destruct Hx as [<- | Hx]; destruct Hy as [<- | Hy].
  - reflexivity.
  - specialize (Ha (f y) (in_map f l y Hy)). rewrite E in Ha. discriminate.
  - specialize (Ha (f x) (in_map f l x Hx)). rewrite eq_sym, E in Ha. discriminate.
  - apply IH; assumption.
Qed.

(** Two ascending arrangements of the same items are the same list when
    no two different items tie. *)
Lemma ascending_unique {A : Type} (before : A -> A -> bool) (l1 l2 : list A) :
  Permutation l1 l2 ->
  StronglySorted (fun u v => before v u = false) l1 ->
  StronglySorted (fun u v => before v u = false) l2 ->
  (forall x y, In x l1 -> In y l1 ->
     before x y = false -> before y x = false -> x = y) ->
  l1 = l2.
Proof.
  revert l2. induction l1 as [| a l1 IH]; intros l2 Hp H1 H2 Hties.
  - apply Permutation_nil in Hp. subst. reflexivity.
  - destruct l2 as [| b l2].
    + apply Permutation_sym, Permutation_nil in Hp. discriminate.
    + apply StronglySorted_inv in H1. destruct H1 as [H1 Ha].
      apply StronglySorted_inv in H2. destruct H2 as [H2 Hb].
      rewrite Forall_forall in Ha, Hb.
      assert (Hab : a = b).
      { assert (Hina : In a (b :: l2))
          by (apply (Permutation_in _ Hp); left; reflexivity).
        assert (Hinb : In b (a :: l1))
          by (apply (Permutation_in _ (Permutation_sym Hp)); left; reflexivity).
        destruct Hina as [-> | Hina]; [reflexivity |].
        destruct Hinb as [-> | Hinb]; [reflexivity |].
        apply Hties; [left; reflexivity | right; exact Hinb | |].
        - apply Hb. exact Hina.
        - apply Ha. exact Hinb. }
      subst b. f_equal. apply IH; try assumption.
      * apply Permutation_cons_inv with a. exact Hp.
      * intros x y Hx Hy. apply Hties; right; assumption.
Qed.

(** X11. With keys that [<] totally orders and of which no two are
    [==], [reverse] reverses: the collection [sort] returns with
    [reverse=True] iterates in the reversed order of the one it returns
    with [reverse=False]. *)
Theorem sort_reverse_distinct_keys :
  forall (qs : QuerySet) (key : Key) (k : record -> res value)
         (objs : list record) (ks : list value),
    NoDup (map pk (rows qs)) ->
    iter qs = OK objs ->
    normalize key = OK k ->
    mapM k objs = OK ks ->
    totally_ordered ks = true ->
    all_distinct ks = true ->
    exists ascending descending out_asc out_desc,
      sort qs key false = OK ascending /\
      iter ascending = OK out_asc /\
      sort qs key true = OK descending /\
      iter descending = OK out_desc /\
      map pk out_desc = rev (map pk out_asc).
Proof.
  intros qs key k objs ks Hnd Hiter Hk Hks Htot Hdis.
  destruct (keys_total k objs ks Hks Htot) as (kf & -> & Hkey & Hlt & Hasym & Htie & Hweak).
  set (before := fun y x => ltb (kf y) (kf x)).
  assert (Hall : Forall (fun o => In o objs) objs)
    by (apply Forall_forall; intros o Ho; exact Ho).
  assert (Hallr : Forall (fun o => In o objs) (rev objs))
    by (apply (Permutation_Forall (Permutation_rev objs)); exact Hall).
  assert (Hasc : sorted objs k false = OK (stable_sort before objs))
    by (apply (sorted_pure k kf before false objs Hkey Hlt)).
  assert (Hdesc : sorted objs k true = OK (rev (stable_sort before objs))).
  { rewrite (sorted_pure k kf before true objs Hkey Hlt). unfold sorted_by.
    do 2 f_equal.
    apply (ascending_unique before).
    - apply perm_trans with (rev objs).
      + apply Permutation_sym, stable_sort_perm.
      + apply perm_trans with objs;
          [apply Permutation_sym, Permutation_rev | apply stable_sort_perm].
    - apply (stable_sort_ascending before (fun o => In o objs)); assumption.
    - apply (stable_sort_ascending before (fun o => In o objs)); assumption.
    - intros x y Hx Hy Exy Eyx.
      apply (proj1 (stable_sort_In before (rev objs) x)) in Hx.
      apply (proj1 (stable_sort_In before (rev objs) y)) in Hy.
      apply in_rev in Hx. apply in_rev in Hy.
      apply (all_distinct_inj kf objs x y Hdis Hx Hy).
      rewrite (Htie x y Hx Hy). unfold before in Exy, Eyx.
      rewrite Exy, Eyx. reflexivity. }
  destruct objs as [| o objs].
  - exists qs, qs, [], [].
    repeat split; try exact Hiter;
      apply (sort_of_nothing qs key _ k Hk Hiter).
  - destruct (sort_collection qs key false k (o :: objs) _ Hnd Hiter
                ltac:(discriminate) Hk Hasc)
      as (qa & outa & Hsa & Hia & Hpa).
    destruct (sort_collection qs key true k (o :: objs) _ Hnd Hiter
                ltac:(discriminate) Hk Hdesc)
      as (qd & outd & Hsd & Hid & Hpd).
    exists qa, qd, outa, outd. repeat split; try assumption.
    rewrite Hpd, Hpa. apply map_rev.
Qed.

Lemma sort_reverse_distinct_keys_witness :
  exists ascending descending out_asc out_desc,
    sort three_records (KStr "pk") false = OK ascending /\
    iter ascending = OK out_asc /\
    sort three_records (KStr "pk") true = OK descending /\
    iter descending = OK out_desc /\
    map pk out_desc = rev (map pk out_asc).
Proof.
  apply (sort_reverse_distinct_keys three_records (KStr "pk")
           (fun obj => getattr obj "pk") [record_b; record_a; record_c]
           [VInt 1; VInt 2; VInt 3]).
  - repeat constructor; simpl; intuition discriminate.
  - reflexivity.
  - reflexivity.
  - reflexivity.
  - reflexivity.
  - reflexivity.
Defined.

(** With ties it does not: the three records by [name], of which two tie. *)
Example scenario_reverse_with_ties :
  (qs' <- sort three_records (KStr "name") false ;;
   objs <- iter qs' ;; OK (map pk objs)) = OK [2; 3; 1]%Z /\
  (qs' <- sort three_records (KStr "name") true ;;
   objs <- iter qs' ;; OK (map pk objs)) = OK [1; 2; 3]%Z.
Proof. split; reflexivity. Qed.

(** ** The order [sort] gives, for either value of [reverse] *)

Lemma StronglySorted_app {A : Type} (R : A -> A -> Prop) (l1 l2 : list A) :
  StronglySorted R l1 -> StronglySorted R l2 ->
  (forall x y, In x l1 -> In y l2 -> R x y) ->
  StronglySorted R (l1 ++ l2).
Proof.
  intros H1 H2 H. induction H1 as [| a l1 H1 IH Ha]; simpl; [exact H2 |].
  constructor.
  - apply IH. intros x y Hx Hy. apply H; [right |]; assumption.
  - apply Forall_app. split; [exact Ha |].
    apply Forall_forall. intros y Hy. apply H; [left; reflexivity | exact Hy].
Qed.

Lemma StronglySorted_rev {A : Type} (R : A -> A -> Prop) (l : list A) :
  StronglySorted R l -> StronglySorted (fun u v => R v u) (rev l).
Proof.
  induction 1 as [| a l Hl IH Ha]; simpl; [constructor |].
  apply StronglySorted_app.
  - exact IH.
  - constructor; constructor.
  - intros x y Hx [<- | []]. apply in_rev in Hx.
    rewrite Forall_forall in Ha. apply Ha. exact Hx.
Qed.

(** Where [<] is a total order on the keys, [sorted] gives the stable
    sort, ascending or, with [reverse], descending. *)
Lemma sorted_stable {A : Type} (key : A -> res value) (reverse : bool) (l : list A)
  (ks : list value) :
  mapM key l = OK ks -> totally_ordered ks = true ->
  exists s kf,
    sorted l key reverse = OK s /\
    (forall a, In a l -> key a = OK (kf a)) /\
    Permutation l s /\
    StronglySorted
      (fun u v => if reverse then ltb (kf u) (kf v) = false
                  else ltb (kf v) (kf u) = false) s /\
    (forall z, In z l ->
       filter (tied (fun y x => ltb (kf y) (kf x)) z) s
       = filter (tied (fun y x => ltb (kf y) (kf x)) z) l).
Proof.
  intros Hks Htot.
  destruct (keys_total key l ks Hks Htot) as (kf & -> & Hkey & Hlt & Hasym & _ & Hweak).
  set (before := fun y x => ltb (kf y) (kf x)).
  assert (Hall : Forall (fun a => In a l) l)
    by (apply Forall_forall; intros a Ha; exact Ha).
  assert (Hallr : Forall (fun a => In a l) (rev l))
    by (apply (Permutation_Forall (Permutation_rev l)); exact Hall).
  exists (sorted_by before reverse l), kf.
  split; [apply (sorted_pure key kf before reverse l Hkey Hlt) |].
  split; [exact Hkey |]. split; [apply sorted_by_perm |].
  unfold sorted_by. destruct reverse; split.
  - apply (StronglySorted_rev (fun u v => before v u = false)).
    apply (stable_sort_ascending before (fun a => In a l)); assumption.
  - intros z Hz. rewrite filter_rev.
    rewrite (stable_sort_stable before (fun a => In a l)); try assumption.
    rewrite filter_rev, rev_involutive. reflexivity.
  - apply (stable_sort_ascending before (fun a => In a l)); assumption.
  - intros z Hz.
    apply (stable_sort_stable before (fun a => In a l)); assumption.
Qed.

(** C1, as stated, fails where an identifier repeats: the mapping of line
    41 keeps one rank per identifier, the last one.  The three rows below
    sort in memory as they stand, and the returned collection iterates the
    second row first. *)
Lemma sort_repeated_identifier :
  iter repeated_identifier = OK [row_1a; row_2b; row_1c] /\
  sorted [row_1a; row_2b; row_1c] (fun obj => getattr obj "name") false
  = OK [row_1a; row_2b; row_1c] /\
  exists qs' out,
    sort repeated_identifier (KStr "name") false = OK qs' /\
    dict_get String.eqb "sort_order" (extra_select qs')
    = Some "CASE WHEN id = 1 THEN 2 WHEN id = 2 THEN 1 END" /\
    iter qs' = OK out /\
    map pk [row_1a; row_2b; row_1c] = [1; 2; 1]%Z /\
    map pk out = [2; 1; 1]%Z.
Proof. split; [reflexivity |]. split; [reflexivity |]. do 2 eexists. repeat split; reflexivity. Qed.

(** C1, amended. For a non-empty collection of records with distinct
    identifiers, a key (callable, attribute name or tuple of attribute
    names) and either value of [reverse]: when sorting the materialized
    records in memory with the normalized key gives [sorted_objects],
    [sort] returns a collection, and iterating that collection yields the
    records in the order of [sorted_objects].  That list holds the records
    of the collection, and where [<] totally orders the keys it is their
    stable sort: no record has a key below the key of an earlier one
    (above, with [reverse]), and the records of equal key are in the order
    the collection iterates them. *)
Theorem sort_iterates_in_sorted_order :
  forall (qs : QuerySet) (key : Key) (reverse : bool)
         (k : record -> res value) (objs sorted_objects : list record),
    NoDup (map pk (rows qs)) ->
    iter qs = OK objs ->
    objs <> [] ->
    normalize key = OK k ->
    sorted objs k reverse = OK sorted_objects ->
    (exists qs' out,
       sort qs key reverse = OK qs' /\
       iter qs' = OK out /\
       map pk out = map pk sorted_objects) /\
    Permutation objs sorted_objects /\
    (forall ks,
       mapM k objs = OK ks -> totally_ordered ks = true ->
       exists kf,
         (forall o, In o objs -> k o = OK (kf o)) /\
         StronglySorted
           (fun u v => if reverse then ltb (kf u) (kf v) = false
                       else ltb (kf v) (kf u) = false) sorted_objects /\
         (forall z, In z objs ->
            filter (tied (fun y x => ltb (kf y) (kf x)) z) sorted_objects
            = filter (tied (fun y x => ltb (kf y) (kf x)) z) objs)).
Proof.
  intros qs key reverse k objs l Hnd Hiter Hne Hk Hsorted.
  split; [apply (sort_collection qs key reverse k objs l); assumption |].
  split; [apply (sorted_perm _ _ _ _ Hsorted) |].
  intros ks Hks Htot.
  destruct (sorted_stable k reverse objs ks Hks Htot)
    as (s & kf & Hs & Hkey & _ & Hord & Hstable).
  rewrite Hsorted in Hs. inversion Hs; subst s.
  exists kf. split; [exact Hkey |]. split; [exact Hord | exact Hstable].
Qed.

Lemma sort_iterates_in_sorted_order_witness :
  (exists qs' out,
     sort three_records (KStr "name") false = OK qs' /\
     iter qs' = OK out /\
     map pk out = map pk [record_a; record_c; record_b]) /\
  Permutation [record_b; record_a; record_c] [record_a; record_c; record_b] /\
  (forall ks,
     mapM (fun obj => getattr obj "name") [record_b; record_a; record_c] = OK ks ->
     totally_ordered ks = true ->
     exists kf,
       (forall o, In o [record_b; record_a; record_c] -> getattr o "name" = OK (kf o)) /\
       StronglySorted
         (fun u v => if false then ltb (kf u) (kf v) = false
                     else ltb (kf v) (kf u) = false) [record_a; record_c; record_b] /\
       (forall z, In z [record_b; record_a; record_c] ->
          filter (tied (fun y x => ltb (kf y) (kf x)) z) [record_a; record_c; record_b]
          = filter (tied (fun y x => ltb (kf y) (kf x)) z) [record_b; record_a; record_c])).
Proof.
  apply (sort_iterates_in_sorted_order three_records (KStr "name") false
           (fun obj => getattr obj "name") [record_b; record_a; record_c]
           [record_a; record_c; record_b]).
  - repeat constructor; simpl; intuition discriminate.
  - reflexivity.
  - discriminate.
  - reflexivity.
  - reflexivity.
Defined.

(** ** Tuple keys compare attribute by attribute *)

Lemma eq_not_lt : forall a b : value, eq a b = true -> ltb a b = false.
Proof.
  unfold ltb. fix IH 1. intros a b.
  destruct a as [| x | x | xs]; destruct b as [| y | y | ys]; simpl;
    try discriminate; try reflexivity.
  - intros H. apply Z.eqb_eq in H. subst. rewrite Z.ltb_irrefl. reflexivity.
  - intros H. apply String.eqb_eq in H. subst. unfold String.ltb.
    rewrite string_compare_refl. reflexivity.
  - revert ys. induction xs as [| x xs IHxs]; intros [| y ys]; try discriminate;
      try reflexivity.
    destruct (eq x y) eqn:E; [| discriminate]. cbn [andb]. apply IHxs.
Qed.

Lemma lt_trichotomy :
  forall a b : value, eq a b = false -> lt a b = OK false -> lt b a = OK true.
Proof.
  fix IH 1. intros a b.
  destruct a as [| x | x | xs]; destruct b as [| y | y | ys]; simpl;
    try discriminate.
  - intros He Hl. inversion Hl as [Hxy]. f_equal.
    apply Z.eqb_neq in He. apply Z.ltb_ge in Hxy. apply Z.ltb_lt. lia.
  - intros He Hl. inversion Hl as [Hxy]. f_equal.
    apply String.eqb_neq in He. unfold String.ltb in *.
    rewrite String.compare_antisym.
    destruct (String.compare x y) eqn:C; try discriminate; try reflexivity.
    apply String.compare_eq_iff in C. contradiction.
  - revert ys. induction xs as [| x xs IHxs]; intros [| y ys]; try discriminate;
      try reflexivity.
    rewrite (eq_sym y x).
    destruct (eq x y) eqn:E; cbn [andb].
    + apply IHxs.
    + intros _. apply IH. exact E.
Qed.

Lemma lt_cons (x y : value) (xs ys : list value) :
  lt (VTuple (x :: xs)) (VTuple (y :: ys))
  = if eq x y then lt (VTuple xs) (VTuple ys) else lt x y.
Proof. reflexivity. Qed.

Lemma ltb_OK (a b : value) (r : bool) : lt a b = OK r -> ltb a b = r.
Proof. unfold ltb. intros ->. destruct r; reflexivity. Qed.

(** Where two tuples of the same length compare both ways, the first is
    below the second exactly when it is on the first item on which either
    is below the other. *)
Lemma lt_tuple_items (f g : string -> value) (names : list string) (r r' : bool) :
  lt (VTuple (map f names)) (VTuple (map g names)) = OK r ->
  lt (VTuple (map g names)) (VTuple (map f names)) = OK r' ->
  r = (fix items (names : list string) : bool :=
         match names with
         | [] => false
         | a :: rest =>
             ltb (f a) (g a) || (negb (ltb (g a) (f a)) && items rest)
         end) names.
Proof.
  induction names as [| a names IH]; cbn [map]; intros H H'.
  - inversion H. reflexivity.
  - rewrite lt_cons in H, H'. rewrite (eq_sym (g a) (f a)) in H'.
    destruct (eq (f a) (g a)) eqn:E.
    + rewrite (eq_not_lt _ _ E).
      rewrite eq_sym in E. rewrite (eq_not_lt _ _ E).
      cbn [orb negb andb]. apply IH; assumption.
    + rewrite (ltb_OK _ _ _ H). destruct r; [reflexivity |].
      rewrite (ltb_OK _ _ _ (lt_trichotomy _ _ E H)). reflexivity.
Qed.

Lemma by_attrs_items (names : list string) (y x : record) :
  by_attrs names y x
  = (fix items (names : list string) : bool :=
       match names with
       | [] => false
       | a :: rest =>
           ltb (attr_value a y) (attr_value a x)
           || (negb (ltb (attr_value a x) (attr_value a y)) && items rest)
       end) names.
Proof.
  induction names as [| a names IH]; [reflexivity |].
  cbn [by_attrs]. unfold lex at 1. rewrite IH. reflexivity.
Qed.

Lemma attr_values (obj : record) (names : list string) (vs : list value) :
  mapM (getattr obj) names = OK vs ->
  vs = map (fun a => attr_value a obj) names.
Proof.
  revert vs. induction names as [| a names IH]; simpl; intros vs H.
  - inversion H. reflexivity.
  - inv_bind H. inv_bind H. inversion H; subst.
    unfold attr_value at 1. rewrite Ha. f_equal. apply IH. exact Ha0.
Qed.

(** The key [attrgetter] extracts for a tuple of names orders two records
    as [by_attrs] does, when it compares them both ways. *)
Lemma tuple_key_by_attrs (names : list string) (k : record -> res value)
  (kf : record -> value) (y x : record) :
  normalize (KTuple names) = OK k ->
  k y = OK (kf y) -> k x = OK (kf x) ->
  lt (kf y) (kf x) = OK (ltb (kf y) (kf x)) ->
  lt (kf x) (kf y) = OK (ltb (kf x) (kf y)) ->
  ltb (kf y) (kf x) = by_attrs names y x.
Proof.
  intros Hk Hy Hx Hyx Hxy. rewrite by_attrs_items.
  destruct names as [| a [| b rest]]; cbn [normalize attrgetter] in Hk.
  - discriminate.
  - inversion Hk; subst k.
    unfold attr_value. rewrite Hy, Hx.
    rewrite andb_false_r, orb_false_r. reflexivity.
  - assert (Ek : k = fun obj => vs <- mapM (getattr obj) (a :: b :: rest) ;; OK (VTuple vs))
      by congruence.
    subst k. clear Hk. cbv beta in Hy, Hx.
    destruct (mapM (getattr y) (a :: b :: rest)) as [vy |] eqn:My; [| discriminate].
    destruct (mapM (getattr x) (a :: b :: rest)) as [vx |] eqn:Mx; [| discriminate].
    apply attr_values in My. apply attr_values in Mx. subst vy vx.
    cbn [bind] in Hy, Hx.
    inversion Hy as [Ey]. inversion Hx as [Ex].
    rewrite <- Ey, <- Ex in Hyx, Hxy.
    apply (lt_tuple_items (fun n => attr_value n y) (fun n => attr_value n x)
             (a :: b :: rest) _ _ Hyx Hxy).
Qed.

Lemma StronglySorted_in {A : Type} (R R' : A -> A -> Prop) (l : list A) :
  (forall u v, In u l -> In v l -> R u v -> R' u v) ->
  StronglySorted R l -> StronglySorted R' l.
Proof.
  intros H Hs. induction Hs as [| a l Hs IH Ha]; constructor.
  - apply IH. intros u v Hu Hv. apply H; right; assumption.
  - rewrite Forall_forall in *. intros v Hv.
    apply H; [left; reflexivity | right; exact Hv | apply Ha; exact Hv].
Qed.

(** In memory: where [<] totally orders the keys a tuple of names
    extracts, [sorted] puts the records in the order of [by_attrs], and
    leaves those it ties in the order they had. *)
Lemma sorted_by_attrs (names : list string) (k : record -> res value)
  (reverse : bool) (objs : list record) (ks : list value) :
  normalize (KTuple names) = OK k ->
  mapM k objs = OK ks -> totally_ordered ks = true ->
  exists l,
    sorted objs k reverse = OK l /\
    Permutation objs l /\
    StronglySorted
      (fun u v => if reverse then by_attrs names u v = false
                  else by_attrs names v u = false) l /\
    (forall z, In z objs ->
       filter (tied (by_attrs names) z) l = filter (tied (by_attrs names) z) objs).
Proof.
  intros Hk Hks Htot.
  destruct (keys_total k objs ks Hks Htot) as (kf & _ & Hkey & Hlt & _).
  destruct (sorted_stable k reverse objs ks Hks Htot)
    as (l & kf' & Hsorted & Hkey' & Hperm & Hord & Hstable).
  assert (Hkf : forall o, In o objs -> kf' o = kf o).
  { intros o Ho. pose proof (Hkey o Ho) as H. rewrite (Hkey' o Ho) in H.
    inversion H. reflexivity. }
  assert (E : forall y x, In y objs -> In x objs ->
                ltb (kf' y) (kf' x) = by_attrs names y x).
  { intros y x Hy Hx. rewrite (Hkf y Hy), (Hkf x Hx).
    apply (tuple_key_by_attrs names k kf y x Hk);
      [apply Hkey | apply Hkey | apply Hlt | apply Hlt]; assumption. }
  assert (Hin : forall o, In o l -> In o objs)
    by (intros o Ho; exact (Permutation_in o (Permutation_sym Hperm) Ho)).
  exists l. split; [exact Hsorted |]. split; [exact Hperm |]. split.
  - apply (StronglySorted_in _ _ l) with (2 := Hord).
    intros u v Hu Hv. destruct reverse; rewrite E by (apply Hin; assumption);
      intros H; exact H.
  - intros z Hz.
    assert (T : forall x, In x objs ->
                  tied (by_attrs names) z x
                  = tied (fun y x => ltb (kf' y) (kf' x)) z x).
    { intros x Hx. unfold tied. rewrite !E by assumption. reflexivity. }
    rewrite (filter_ext_in _ _ l (fun x Hx => T x (Hin x Hx))).
    rewrite (filter_ext_in _ _ objs T). apply Hstable. exact Hz.
Qed.

(** C5, as stated, fails where an identifier repeats, as C1 does: the
    three rows below are already in the order of [(cost, name)], and the
    returned collection iterates the second row first.  It also asks for
    tuples [<] can compare: on the records of [mixed_records] the key
    [(tag, rank)] raises [TypeError]. *)
Lemma sort_tuple_key_repeated_identifier :
  (sorted [row_1a; row_2b; row_1c]
     (fun obj => vs <- mapM (getattr obj) ["cost"; "name"] ;; OK (VTuple vs)) false
   = OK [row_1a; row_2b; row_1c] /\
   exists qs' out,
     sort repeated_identifier (KTuple ["cost"; "name"]) false = OK qs' /\
     iter qs' = OK out /\
     map pk [row_1a; row_2b; row_1c] = [1; 2; 1]%Z /\
     map pk out = [2; 1; 1]%Z) /\
  sort mixed_records (KTuple ["tag"; "rank"]) false = Err unorderable.
Proof.
  split; [| reflexivity]. split; [reflexivity |].
  do 2 eexists. repeat split; reflexivity.
Qed.

(** C5, amended. For a collection of records with distinct identifiers
    and a tuple of attribute names whose tuples of values [<] totally
    orders on the records: [sort] by the tuple key returns a collection
    that iterates in the order of sorting by the first attribute with
    ties broken by the next one, and so on.  The order holds the records
    of the collection and is sorted under [by_attrs], for which a record
    is lower than another when it is lower on the first attribute on
    which either is lower: ascending, no record is lower than an earlier
    one; with [reverse], none is lower than a later one.  The records
    that tie on every attribute are in the order the collection iterates
    them. *)
Theorem sort_tuple_key_lexicographic :
  forall (qs : QuerySet) (names : list string) (reverse : bool)
         (k : record -> res value) (objs : list record) (ks : list value),
    NoDup (map pk (rows qs)) ->
    iter qs = OK objs ->
    normalize (KTuple names) = OK k ->
    mapM k objs = OK ks ->
    totally_ordered ks = true ->
    exists qs' out l,
      sort qs (KTuple names) reverse = OK qs' /\
      iter qs' = OK out /\
      map pk out = map pk l /\
      Permutation objs l /\
      StronglySorted
        (fun u v => if reverse then by_attrs names u v = false
                    else by_attrs names v u = false) l /\
      (forall z, In z objs ->
         filter (tied (by_attrs names) z) l = filter (tied (by_attrs names) z) objs).
Proof.
  intros qs names reverse k objs ks Hnd Hiter Hk Hks Htot.
  destruct (sorted_by_attrs names k reverse objs ks Hk Hks Htot)
    as (l & Hsorted & Hperm & Hord & Hstable).
  destruct objs as [| o objs].
  - apply Permutation_nil in Hperm. subst l.
    exists qs, [], []. split; [apply (sort_of_nothing qs _ reverse k Hk Hiter) |].
    split; [exact Hiter |]. split; [reflexivity |]. split; [apply perm_nil |].
    split; [exact Hord | exact Hstable].
  - destruct (sort_collection qs (KTuple names) reverse k (o :: objs) l Hnd Hiter
                ltac:(discriminate) Hk Hsorted)
      as (qs' & out & Hsort & Hout & Hpk).
    exists qs', out, l. repeat split; assumption.
Qed.

Lemma sort_tuple_key_lexicographic_witness :
  exists qs' out l,
    sort mixed_records (KTuple ["rank"; "tag"]) false = OK qs' /\
    iter qs' = OK out /\
    map pk out = map pk l /\
    Permutation [record_x; record_7; record_5] l /\
    StronglySorted
      (fun u v => if false then by_attrs ["rank"; "tag"] u v = false
                  else by_attrs ["rank"; "tag"] v u = false) l /\
    (forall z, In z [record_x; record_7; record_5] ->
       filter (tied (by_attrs ["rank"; "tag"]) z) l
       = filter (tied (by_attrs ["rank"; "tag"]) z) [record_x; record_7; record_5]).
Proof.
  apply (sort_tuple_key_lexicographic mixed_records ["rank"; "tag"] false
           (fun obj => vs <- mapM (getattr obj) ["rank"; "tag"] ;; OK (VTuple vs))
           [record_x; record_7; record_5]
           [VTuple [VInt 2; VStr "x"]; VTuple [VInt 1; VInt 7]; VTuple [VInt 1; VInt 5]]).
  - repeat constructor; simpl; intuition discriminate.
  - reflexivity.
  - reflexivity.
  - reflexivity.
  - reflexivity.
Defined.

(** The three records come out by [rank], the two of [rank] 1 by [tag];
    sorting them by [tag] alone compares a string with an integer. *)
Example scenario_tuple_key :
  (qs' <- sort mixed_records (KTuple ["rank"; "tag"]) false ;;
   objs <- iter qs' ;; OK (map pk objs)) = OK [3; 2; 1]%Z /\
  (qs' <- sort mixed_records (KTuple ["rank"; "tag"]) true ;;
   objs <- iter qs' ;; OK (map pk objs)) = OK [1; 2; 3]%Z /\
  sort mixed_records (KStr "tag") false = Err unorderable.
Proof. repeat split; reflexivity. Qed.

(** X12. [sort] is the stable sort by the key: where [<] totally orders
    the keys, the returned collection iterates to the records of a list
    that holds the records of the input, has no key below the key of an
    earlier record (above, with [reverse]), and keeps the records of equal
    key in the order the input collection iterates them, for either value
    of [reverse]. *)
Theorem sort_is_stable :
  forall (qs : QuerySet) (key : Key) (reverse : bool) (k : record -> res value)
         (objs : list record) (ks : list value),
    NoDup (map pk (rows qs)) ->
    iter qs = OK objs ->
    normalize key = OK k ->
    mapM k objs = OK ks ->
    totally_ordered ks = true ->
    exists qs' out l kf,
      sort qs key reverse = OK qs' /\
      iter qs' = OK out /\
      map pk out = map pk l /\
      (forall o, In o objs -> k o = OK (kf o)) /\
      Permutation objs l /\
      StronglySorted
        (fun u v => if reverse then ltb (kf u) (kf v) = false
                    else ltb (kf v) (kf u) = false) l /\
      (forall z, In z objs ->
         filter (tied (fun y x => ltb (kf y) (kf x)) z) l
         = filter (tied (fun y x => ltb (kf y) (kf x)) z) objs).
Proof.
  intros qs key reverse k objs ks Hnd Hiter Hk Hks Htot.
  destruct (sorted_stable k reverse objs ks Hks Htot)
    as (l & kf & Hsorted & Hkey & Hperm & Hord & Hstable).
  destruct objs as [| o objs].
  - apply Permutation_nil in Hperm. subst l.
    exists qs, [], [], kf. split; [apply (sort_of_nothing qs key reverse k Hk Hiter) |].
    split; [exact Hiter |]. split; [reflexivity |]. split; [exact Hkey |].
    split; [apply perm_nil |]. split; [exact Hord | exact Hstable].
  - destruct (sort_collection qs key reverse k (o :: objs) l Hnd Hiter
                ltac:(discriminate) Hk Hsorted)
      as (qs' & out & Hsort & Hout & Hpk).
    exists qs', out, l, kf. repeat split; assumption.
Qed.

Lemma sort_is_stable_witness :
  exists qs' out l kf,
    sort three_records (KStr "name") true = OK qs' /\
    iter qs' = OK out /\
    map pk out = map pk l /\
    (forall o, In o [record_b; record_a; record_c] -> getattr o "name" = OK (kf o)) /\
    Permutation [record_b; record_a; record_c] l /\
    StronglySorted
      (fun u v => if true then ltb (kf u) (kf v) = false
                  else ltb (kf v) (kf u) = false) l /\
    (forall z, In z [record_b; record_a; record_c] ->
       filter (tied (fun y x => ltb (kf y) (kf x)) z) l
       = filter (tied (fun y x => ltb (kf y) (kf x)) z) [record_b; record_a; record_c]).
Proof.
  apply (sort_is_stable three_records (KStr "name") true
           (fun obj => getattr obj "name") [record_b; record_a; record_c]
           [VStr "b"; VStr "a"; VStr "a"]).
  - repeat constructor; simpl; intuition discriminate.
  - reflexivity.
  - reflexivity.
  - reflexivity.
  - reflexivity.
Defined.

(** ** Integers and plain strings *)

Lemma annotated_values (name : string) (k : record -> res value)
  (objs objs' : list record) (vs : list value) :
  Forall2 (fun obj obj' =>
             pk obj' = pk obj /\
             getattr obj' name = k obj /\
             forall other, other <> name -> getattr obj' other = getattr obj other)
          objs objs' ->
  mapM k objs = OK vs ->
  map pk objs' = map pk objs /\
  mapM (fun obj => getattr obj name) objs' = OK vs.
Proof.
  intros Hrec Hvs. apply mapM_OK_Forall2 in Hvs. split.
  - clear Hvs. induction Hrec as [| a b l l' [H _] _ IH]; simpl; [reflexivity |].
    rewrite H, IH. reflexivity.
  - apply mapM_OK_Forall2. revert vs Hvs.
    induction Hrec as [| a b l l' [_ [H _]] _ IH]; intros vs Hvs;
      inversion Hvs; subst; constructor.
    + rewrite H. assumption.
    + apply IH. assumption.
Qed.

(** X13. Integers and plain strings are stored faithfully: when the key
    function returns only integers below [2 ^ 63] in absolute value and
    plain strings on a non-empty collection of records with distinct
    identifiers, and the output name, a letter followed by letters,
    digits and underscores, is not [pk], [id] or the field the
    collection is ordered by, the returned collection iterates to the
    records in the same order, and reading the field on them gives the
    values the key function gave, in order. *)
Theorem annotate_property_stores_values :
  forall (qs : QuerySet) (annotation : Annotation) (property_name : option string)
         (name : string) (k : record -> res value)
         (objs : list record) (vs : list value),
    NoDup (map pk (rows qs)) ->
    iter qs = OK objs ->
    objs <> [] ->
    output_name annotation property_name = OK name ->
    field_name name = true ->
    ordering qs <> Some name ->
    annotation_key annotation = OK k ->
    mapM k objs = OK vs ->
    forallb storable vs = true ->
    exists qs' objs',
      annotate_property qs annotation property_name = OK qs' /\
      iter qs' = OK objs' /\
      map pk objs' = map pk objs /\
      mapM (fun obj => getattr obj name) objs' = OK vs.
Proof.
  intros qs annotation property_name name k objs vs
         Hnd Hiter Hne Hname Hfield Hord Hk Hvs Hst.
  destruct (annotated_collection_records qs annotation property_name name k objs
              Hnd Hiter Hne Hname (field_name_not_pk name Hfield) Hord Hk
              (mapM_values k objs vs Hvs Hst))
    as (qs' & objs' & Hann & _ & Hiter' & Hrec).
  exists qs', objs'. split; [exact Hann |]. split; [exact Hiter' |].
  apply (annotated_values name k objs objs' vs Hrec Hvs).
Qed.

Lemma annotate_property_stores_values_witness :
  exists qs' objs',
    annotate_property three_records (AStr "name") (Some "label") = OK qs' /\
    iter qs' = OK objs' /\
    map pk objs' = map pk [record_b; record_a; record_c] /\
    mapM (fun obj => getattr obj "label") objs' = OK [VStr "b"; VStr "a"; VStr "a"].
Proof.
  apply (annotate_property_stores_values three_records (AStr "name") (Some "label")
           "label" (fun obj => getattr obj "name")).
  - repeat constructor; simpl; intuition discriminate.
  - reflexivity.
  - discriminate.
  - reflexivity.
  - reflexivity.
  - discriminate.
  - reflexivity.
  - reflexivity.
  - reflexivity.
Defined.

(** A string with an apostrophe is written between double quotes, which
    the target language does not take for a literal. *)
Example scenario_apostrophe :
  repr (VStr "it's") = String dquote ("it's" ++ String dquote "") /\
  Sql.read_literal (repr (VStr "it's")) = None.
Proof. split; reflexivity. Qed.

(** ** The manager, end to end *)

Lemma iter_get_queryset (m : AnnotatableManager.Manager) :
  iter (AnnotatableManager.get_queryset m) = OK (AnnotatableManager.model m).
Proof. unfold iter. simpl. rewrite fetch_nothing. reflexivity. Qed.

(** X14. The manager's [sort] orders all the records of the kind: when
    they are not none and have distinct identifiers, and sorting them in
    memory with the normalized key gives a list, the manager returns a
    collection that iterates in the order of that list. *)
Theorem manager_sort_orders_all_records :
  forall (m : AnnotatableManager.Manager) (key : Key) (reverse : bool)
         (k : record -> res value) (sorted_objects : list record),
    NoDup (map pk (AnnotatableManager.model m)) ->
    AnnotatableManager.model m <> [] ->
    normalize key = OK k ->
    sorted (AnnotatableManager.model m) k reverse = OK sorted_objects ->
    exists qs' out,
      AnnotatableManager.sort m key reverse = OK qs' /\
      iter qs' = OK out /\
      map pk out = map pk sorted_objects.
Proof.
  intros m key reverse k l Hnd Hne Hk Hsorted.
  unfold AnnotatableManager.sort.
  apply (sort_collection (AnnotatableManager.get_queryset m) key reverse k
           (AnnotatableManager.model m) l); try assumption.
  apply iter_get_queryset.
Qed.

Lemma manager_sort_orders_all_records_witness :
  exists qs' out,
    AnnotatableManager.sort
      {| AnnotatableManager.model := [record_b; record_a; record_c] |}
      (KTuple ["cost"; "name"]) false = OK qs' /\
    iter qs' = OK out /\
    map pk out = map pk [record_a; record_c; record_b].
Proof.
  apply (manager_sort_orders_all_records
           {| AnnotatableManager.model := [record_b; record_a; record_c] |}
           (KTuple ["cost"; "name"]) false
           (fun obj => vs <- mapM (getattr obj) ["cost"; "name"] ;; OK (VTuple vs))).
  - repeat constructor; simpl; intuition discriminate.
  - discriminate.
  - reflexivity.
  - reflexivity.
Defined.

(** X15. The manager's [annotate_property] annotates all the records of
    the kind: when they are not none and have distinct identifiers, the
    output name is a letter followed by letters, digits and underscores
    and is neither [pk] nor [id], and the key function returns only
    integers below [2 ^ 63] in absolute value and plain strings, the
    manager returns a collection that iterates to the records in their
    own order, and reading the field on them gives the values of the key
    function, in order. *)
Theorem manager_annotate_property_stores_values :
  forall (m : AnnotatableManager.Manager) (annotation : Annotation)
         (property_name : option string) (name : string)
         (k : record -> res value) (vs : list value),
    NoDup (map pk (AnnotatableManager.model m)) ->
    AnnotatableManager.model m <> [] ->
    output_name annotation property_name = OK name ->
    field_name name = true ->
    annotation_key annotation = OK k ->
    mapM k (AnnotatableManager.model m) = OK vs ->
    forallb storable vs = true ->
    exists qs' objs',
      AnnotatableManager.annotate_property m annotation property_name = OK qs' /\
      iter qs' = OK objs' /\
      map pk objs' = map pk (AnnotatableManager.model m) /\
      mapM (fun obj => getattr obj name) objs' = OK vs.
Proof.
  intros m annotation property_name name k vs Hnd Hne Hname Hfield Hk Hvs Hst.
  unfold AnnotatableManager.annotate_property.
  destruct (annotated_collection_records (AnnotatableManager.get_queryset m)
              annotation property_name name k (AnnotatableManager.model m)
              Hnd (iter_get_queryset m) Hne Hname (field_name_not_pk name Hfield)
              ltac:(discriminate) Hk
              (mapM_values k _ vs Hvs Hst))
    as (qs' & objs' & Hann & _ & Hiter' & Hrec).
  exists qs', objs'. split; [exact Hann |]. split; [exact Hiter' |].
  apply (annotated_values name k _ objs' vs Hrec Hvs).
Qed.

Lemma manager_annotate_property_stores_values_witness :
  exists qs' objs',
    AnnotatableManager.annotate_property
      {| AnnotatableManager.model := [record_b; record_a] |}
      (ACallable (fun obj => Returns (VInt (2 * pk obj)))) (Some "double") = OK qs' /\
    iter qs' = OK objs' /\
    map pk objs' = map pk [record_b; record_a] /\
    mapM (fun obj => getattr obj "double") objs' = OK [VInt 2; VInt 4].
Proof.
  apply (manager_annotate_property_stores_values
           {| AnnotatableManager.model := [record_b; record_a] |}
           (ACallable (fun obj => Returns (VInt (2 * pk obj)))) (Some "double") "double"
           (call (fun obj => Returns (VInt (2 * pk obj))))).
  - repeat constructor; simpl; intuition discriminate.
  - discriminate.
  - reflexivity.
  - reflexivity.
  - reflexivity.
  - reflexivity.
  - reflexivity.
Defined.
